(** * A typed tree-based genetic-programming engine: packed trees,
      the random tree generator, the ramped half-and-half initializer and
      the evolving population.

    The development embeds the C++ sources shallowly:
    - [core::Tree<T>] (tree.h): a vector of [NodeStorage] in preorder;
    - [TreeGenerator] (treeGenerator.h);
    - [RampedHalfAndHalfInitializer] (rampedHalfAndHalfInitializer.h);
    - [Population] (geneticProgramming.h);
    - [TreeGenomePrinter] (treePrinter.h), [TreeGenomeCompiler]
      (treeCompiler.h) and [TreeGenomeEvaluator] (treeEvaluator.h).

    Conventions.
    - [unsigned] is a 32-bit integer: a [Z] wrapped by [wrap32] after every
      arithmetic step.  [size_t] is 64 bits wide ([wrap64]).  [int] is a
      signed 32-bit integer whose overflow is undefined behaviour.
    - A [std::vector] is a [list]; positions in it are [nat].
    - Undefined behaviour (reads and erasures out of range, an empty range
      handed to a uniform distribution, a range of a vector inserted into
      that vector, signed overflow) and failed [assert]s end the computation
      with a [failure]; the computations live in the [result] monad.
    - A [const Tree<T> &] argument of a method of a tree is a [TreeRef]: it
      refers to the tree the method is called on or to another object. *)

From Stdlib Require QArith Qround.
From stdpp Require Import base numbers list option strings.

Set Default Proof Using "Type".
Set Warnings "-register-all".

(** ** Failures and the result monad *)

Inductive failure :=
| AssertionFailed   (* an [assert] of the source does not hold *)
| OutOfRange        (* a vector is read, written or erased out of range *)
| InvalidRange      (* a uniform distribution over an empty range *)
| OverlappingRange  (* a range of a vector is inserted into that vector *)
| SignedOverflow    (* arithmetic on [int] leaves its range *)
| OutOfFuel.        (* the recursion bound of the model is exhausted *)

Inductive result (A : Type) :=
| Ok (a : A)
| Fail (e : failure).
Arguments Ok {A} a.
Arguments Fail {A} e.

#[global] Instance result_ret : MRet result := fun A a => Ok a.
#[global] Instance result_bind : MBind result :=
  fun A B f m => match m with Ok a => f a | Fail e => Fail e end.

Definition assert (b : bool) : result unit :=
  if b then Ok tt else Fail AssertionFailed.

Definition isOk {A} (r : result A) : Prop :=
  match r with Ok _ => True | Fail _ => False end.

(** ** Machine integers *)

Definition wrap32 (z : Z) : Z := (z mod 2 ^ 32)%Z.
Definition wrap64 (z : Z) : Z := (z mod 2 ^ 64)%Z.
Definition INT_MIN : Z := (- 2 ^ 31)%Z.
Definition INT_MAX : Z := (2 ^ 31 - 1)%Z.

(** [a - b] on [int]. *)
Definition int_sub (a b : Z) : result Z :=
  if bool_decide (INT_MIN ≤ a - b ≤ INT_MAX)%Z then Ok (a - b)%Z
  else Fail SignedOverflow.

(** [a + b] on [int]. *)
Definition int_add (a b : Z) : result Z :=
  if bool_decide (INT_MIN ≤ a + b ≤ INT_MAX)%Z then Ok (a + b)%Z
  else Fail SignedOverflow.

(** ** tree.h: the packed tree *)

Section TreeADT.
Context {T : Type}.

Record NodeStorage := mkNodeStorage {
  value : T;
  (* The number of children that this tree node has. *)
  childCount : Z;
  (* The number of nodes contained in this sub-tree, including the node. *)
  subTreeSize : Z
}.

(** [NodeStorage(T value) : value(value), childCount(0), subTreeSize(1)] *)
Definition NodeStorage_new (v : T) : NodeStorage := mkNodeStorage v 0 1.

Record Tree := mkTree { nodes : list NodeStorage }.

(** [Tree()] *)
Definition Tree_new : Tree := mkTree [].

Definition getNodeCount (t : Tree) : nat := length (nodes t).

(** [tree.nodes[i]] for reading. *)
Definition nodeAt (t : Tree) (i : nat) : result NodeStorage :=
  match nodes t !! i with
  | Some n => Ok n
  | None => Fail OutOfRange
  end.

(** [tree.nodes[i] = f(tree.nodes[i])]: an in-place update of one node. *)
Definition modifyNode (i : nat) (f : NodeStorage → NodeStorage) (t : Tree)
  : result Tree :=
  match nodes t !! i with
  | Some n => Ok (mkTree (<[i := f n]> (nodes t)))
  | None => Fail OutOfRange
  end.

Definition incrChildCount (n : NodeStorage) : NodeStorage :=
  mkNodeStorage (value n) (wrap32 (childCount n + 1)) (subTreeSize n).

Definition addSubTreeSize (d : Z) (n : NodeStorage) : NodeStorage :=
  mkNodeStorage (value n) (childCount n) (wrap32 (subTreeSize n + d)).

Definition setSubTreeSize (s : Z) (n : NodeStorage) : NodeStorage :=
  mkNodeStorage (value n) (childCount n) s.

(** [addNode]: append a node, return its index. *)
Definition addNode (v : T) (t : Tree) : Tree * nat :=
  (mkTree (nodes t ++ [NodeStorage_new v]), length (nodes t)).

(** *** The enumerator used to walk the tree

    [Enumerator] holds a reference to the tree and a cursor; [advance]
    reads the value and child count under the cursor and steps over it. *)

Definition advance (t : Tree) (nodeId : nat) : result (T * Z * nat) :=
  n ← nodeAt t nodeId;
  mret (value n, childCount n, S nodeId).

(** [recomputeSubTreeSizes]: a preorder walk that follows the child counts
    and rewrites the size of every node that has children.  The state is the
    tree and the cursor of the enumerator; the result carries both and the
    size computed.  [fuel] bounds the depth of the recursion;
    [recompute_fuel_enough] shows that one more than the number of nodes
    always suffices.  The parameters [nodeId] and [newSubTreeSize] are
    passed along and never read, as in the source. *)

Fixpoint sumChildSizes (rec : Tree → nat → result (Tree * nat * Z))
    (count : nat) (t : Tree) (e : nat) (subTreeSize : Z)
  : result (Tree * nat * Z) :=
  match count with
  | O => Ok (t, e, subTreeSize)
  | S count' =>
      '(t1, e1, s) ← rec t e;
      sumChildSizes rec count' t1 e1 (wrap32 (subTreeSize + s))
  end.

Fixpoint recomputeSubTreeSizes (fuel : nat) (t : Tree) (e : nat)
    (nodeId : nat) (newSubTreeSize : Z) : result (Tree * nat * Z) :=
  match fuel with
  | O => Fail OutOfFuel
  | S fuel' =>
      let parentNodeId := e in
      '(_, nodeChildCount, e1) ← advance t e;
      if (nodeChildCount =? 0)%Z then Ok (t, e1, 1%Z)
      else
        '(t2, e2, size) ←
          sumChildSizes
            (fun t' e' => recomputeSubTreeSizes fuel' t' e' nodeId newSubTreeSize)
            (Z.to_nat nodeChildCount) t e1 1%Z;
        t3 ← modifyNode parentNodeId (setSubTreeSize size) t2;
        mret (t3, e2, size)
  end.

(** [getSubTree]: the copy of [nodes[id .. id + subTreeSize[id])]. *)
Definition getSubTree (subRootNodeId : nat) (t : Tree) : result Tree :=
  _ ← assert (bool_decide (subRootNodeId < length (nodes t)));
  n ← nodeAt t subRootNodeId;
  let size := Z.to_nat (subTreeSize n) in
  if bool_decide (subRootNodeId + size ≤ length (nodes t)) then
    mret (mkTree (take size (drop subRootNodeId (nodes t))))
  else Fail OutOfRange.

(** The parameter of [replace] is a [const Tree<T> &]: the caller passes a
    reference to the tree that [replace] is called on, as in
    [g.replace(i, g)], or to another object, as in [g.replace(i, sub)] for a
    copy or a temporary [sub]. *)
Inductive TreeRef :=
| Itself
| Another (subTree : Tree).


(** [replace]: erase the sub-tree at [nodeId], insert the nodes of
    [subTree] in its place, recompute the sizes from the root.  The
    erasure comes first.  When [subTree] is the tree itself, [subTree.nodes]
    is then the vector that was just erased from, and [insert] is handed a
    range of the vector it inserts into, which is undefined. *)
Definition replace (nodeId : nat) (subTree : TreeRef) (t : Tree)
  : result Tree :=
  _ ← assert (bool_decide (nodeId < length (nodes t)));
  n ← nodeAt t nodeId;
  let size := Z.to_nat (subTreeSize n) in
  if bool_decide (nodeId + size ≤ length (nodes t)) then
    let erased := take nodeId (nodes t) ++ drop (nodeId + size) (nodes t) in
    match subTree with
    | Itself => Fail OverlappingRange
    | Another subTree =>
        let inserted :=
          take nodeId erased ++ nodes subTree ++ drop nodeId erased in
        '(t', _, _) ←
          recomputeSubTreeSizes (S (length inserted)) (mkTree inserted) 0
            nodeId (wrap32 (Z.of_nat (length (nodes subTree))));
        n0 ← nodeAt t' 0;
        _ ← assert (bool_decide (subTreeSize n0 = Z.of_nat (length (nodes t'))));
        mret t'
    end
  else Fail OutOfRange.

(** *** Builder

    The builder holds the tree under construction and the stack of the
    parents that are still open; the head of the list is [stack.back()]. *)

Record Builder := mkBuilder {
  tree : Tree;
  stack : list nat
}.

Definition Builder_new (t : Tree) : Builder := mkBuilder t [].

Definition push (v : T) (b : Builder) : result Builder :=
  t1 ← match stack b with
       | [] => Ok (tree b)
       | back :: _ => modifyNode back incrChildCount (tree b)
       end;
  let '(t2, id) := addNode v t1 in
  mret (mkBuilder t2 (id :: stack b)).

Definition add (v : T) (b : Builder) : result Builder :=
  let '(t1, _) := addNode v (tree b) in
  match stack b with
  | [] => mret (mkBuilder t1 (stack b))
  | back :: _ =>
      t2 ← modifyNode back incrChildCount t1;
      t3 ← modifyNode back (addSubTreeSize 1) t2;
      mret (mkBuilder t3 (stack b))
  end.

Definition pop (b : Builder) : result Builder :=
  match stack b with
  | [] => Fail AssertionFailed
  | back :: rest =>
      n ← nodeAt (tree b) back;
      let size := subTreeSize n in
      (* Propagate the sub-tree size up to the parent. *)
      match rest with
      | [] => mret (mkBuilder (tree b) rest)
      | parent :: _ =>
          t1 ← modifyNode parent (addSubTreeSize size) (tree b);
          mret (mkBuilder t1 rest)
      end
  end.

(** *** Node views and iteration

    A [Node] is an index into the tree.  Iterating a node visits its direct
    children: from [nodeId + 1], stepping by the size of the sub-tree under
    the iterator, until the iterator equals [nodeId + subTreeSize]. *)

Definition Node_size (t : Tree) (nodeId : nat) : result Z :=
  n ← nodeAt t nodeId; mret (childCount n).

Fixpoint iterate (fuel : nat) (t : Tree) (it last : nat) : result (list nat) :=
  if bool_decide (it = last) then Ok []
  else
    match fuel with
    | O => Fail OutOfFuel
    | S fuel' =>
        _ ← assert (bool_decide (it < length (nodes t)));
        n ← nodeAt t it;
        rest ← iterate fuel' t (it + Z.to_nat (subTreeSize n)) last;
        mret (it :: rest)
    end.

(** [for (auto child : node)] *)
Definition Node_children (t : Tree) (nodeId : nat) : result (list nat) :=
  n ← nodeAt t nodeId;
  iterate (length (nodes t)) t (nodeId + 1)
    (nodeId + Z.to_nat (subTreeSize n)).

(** [for (auto node : tree)] *)
Definition Tree_roots (t : Tree) : result (list nat) :=
  iterate (length (nodes t)) t 0 (length (nodes t)).

(** [tree.first()] *)
Definition Tree_first (t : Tree) : result nat :=
  _ ← assert (bool_decide (0 < length (nodes t)));
  mret 0.

(** [++it], [n] times: each step reads the size under the iterator. *)
Fixpoint stepIterator (t : Tree) (n : nat) (it : nat) : result nat :=
  match n with
  | O => Ok it
  | S n' =>
      node ← nodeAt t it;
      stepIterator t n' (it + Z.to_nat (subTreeSize node))
  end.

(** [node[i]]: the assertion on [i], then [i] steps from the first child,
    then the dereference of the iterator with its assertion. *)
Definition Node_at (t : Tree) (nodeId : nat) (i : nat) : result nat :=
  size ← Node_size t nodeId;
  _ ← assert (bool_decide (Z.of_nat i < size)%Z);
  it ← stepIterator t i (nodeId + 1);
  _ ← assert (bool_decide (it < length (nodes t)));
  mret it.

End TreeADT.

Arguments NodeStorage : clear implicits.
Arguments Tree : clear implicits.
Arguments TreeRef : clear implicits.
Arguments Builder : clear implicits.

(** A tree written where a reference is expected is another object than the
    tree of the call: a copy made by [getSubTree] or a temporary. *)
Coercion Another : Tree >-> TreeRef.

(** The depth-first walker of the iteration test: the value of the node,
    then the walk of every child. *)
Fixpoint Walker_fn {T} (fuel : nat) (t : Tree T) (nodeId : nat)
  : result (list T) :=
  match fuel with
  | O => Fail OutOfFuel
  | S fuel' =>
      n ← nodeAt t nodeId;
      kids ← Node_children t nodeId;
      rest ← foldl (fun acc k =>
                      a ← acc; r ← Walker_fn fuel' t k; mret (a ++ r))
                   (Ok []) kids;
      mret (value n :: rest)
  end.

Definition Walker_run {T} (t : Tree T) : result (list T) :=
  roots ← Tree_roots t;
  foldl (fun acc k =>
           a ← acc; r ← Walker_fn (S (length (nodes t))) t k; mret (a ++ r))
        (Ok []) roots.

(** The builder calls of the iteration test. *)
Definition testTreeIteration_tree : result (Builder Z) :=
  b ← push 2%Z (Builder_new Tree_new);
  b ← add 11%Z b;
  b ← push 42%Z b;
  b ← add 13%Z b;
  b ← add 0%Z b;
  b ← push 9%Z b;
  b ← add 7%Z b;
  b ← pop b;
  b ← pop b;
  b ← add 90%Z b;
  pop b.


(** ** The trees that the packed layout stands for

    A [rose] is a node with the list of its children.  [flatten] lays a rose
    out in preorder, each node with the number of its children and the
    number of nodes under it: the layout the spec demands of a tree.  A
    packed tree is well formed when it is empty or the layout of one rose
    whose node count fits the 32-bit size field. *)

Section Rose.
Context {T : Type}.

Inductive rose := Rose (v : T) (kids : list rose).

Fixpoint rsize (r : rose) : nat :=
  match r with
  | Rose _ kids => S (sum_list (map rsize kids))
  end.

Definition fsize (kids : list rose) : nat := sum_list (map rsize kids).

Fixpoint flatten (r : rose) : list (NodeStorage T) :=
  match r with
  | Rose v kids =>
      mkNodeStorage v (Z.of_nat (length kids)) (Z.of_nat (rsize r))
        :: concat (map flatten kids)
  end.

Definition flattenForest (kids : list rose) : list (NodeStorage T) :=
  concat (map flatten kids).

Definition represents (r : rose) (t : Tree T) : Prop :=
  nodes t = flatten r ∧ (Z.of_nat (rsize r) < 2 ^ 32)%Z.

Definition wellFormed (t : Tree T) : Prop :=
  nodes t = [] ∨ ∃ r, represents r t.

(** A rose with a hole: the path from the root down to one node, with the
    siblings to the left and to the right at every step. *)
Inductive ctx :=
| Hole
| Below (v : T) (before : list rose) (c : ctx) (after : list rose).

Fixpoint plug (c : ctx) (s : rose) : rose :=
  match c with
  | Hole => s
  | Below v before c' after => Rose v (before ++ plug c' s :: after)
  end.

(** The preorder index of the hole. *)
Fixpoint cpos (c : ctx) : nat :=
  match c with
  | Hole => 0
  | Below _ before c' _ => S (fsize before + cpos c')
  end.

(** The number of nodes of the context itself. *)
Fixpoint csize (c : ctx) : nat :=
  match c with
  | Hole => 0
  | Below _ before c' after => S (fsize before + csize c' + fsize after)
  end.

(** The nodes laid out before the hole when the hole holds [n] nodes, and
    the nodes laid out after it. *)
Fixpoint cprefix (c : ctx) (n : nat) : list (NodeStorage T) :=
  match c with
  | Hole => []
  | Below v before c' after =>
      mkNodeStorage v (Z.of_nat (length before + S (length after)))
                    (Z.of_nat (csize c + n))
        :: flattenForest before ++ cprefix c' n
  end.

Fixpoint csuffix (c : ctx) : list (NodeStorage T) :=
  match c with
  | Hole => []
  | Below _ _ c' after => csuffix c' ++ flattenForest after
  end.


(** [nodes[i].subTreeSize] as a number of nodes, 0 out of range. *)
Definition sizeAt (t : Tree T) (i : nat) : nat :=
  from_option (fun n => Z.to_nat (subTreeSize n)) 0 (nodes t !! i).

(** Two nodes agree on everything the size recomputation reads or keeps:
    the value, the child count and, for a leaf, the size. *)
Definition stale (a b : NodeStorage T) : Prop :=
  value a = value b ∧ childCount a = childCount b
  ∧ (childCount a = 0%Z → subTreeSize a = subTreeSize b).

End Rose.

Arguments rose : clear implicits.
Arguments ctx : clear implicits.

(** A step of the size recomputation keeps the number of nodes, moves the
    cursor on (past at least one node when [strict]), and, when it fails,
    does not fail for lack of fuel. *)
Definition progresses {T} (strict : bool) (t : Tree T) (e : nat)
    (r : result (Tree T * nat * Z)) : Prop :=
  match r with
  | Ok (t', e', _) =>
      length (nodes t') = length (nodes t)
      ∧ (if strict then e < e' else e ≤ e')
      ∧ e' ≤ length (nodes t')
  | Fail f => f ≠ OutOfFuel
  end.

(** ** grammar.h: the queries that the generator and the population make

    Modelled from the spec: grammar.h is not among the sources.  The
    records below are the definitions and the per-type definition sets of
    the spec (sections 3 and 4.2), with the accessors that the sources
    call by name. *)

Inductive DefinitionKind := Terminal | Function.

(** [grammar::Definition]; the name is a keyword here. *)
Record GrammarDefinition := mkDefinition {
  getName : string;
  getDefinitionId : nat;
  getNodeValue : Z;
  getWeight : Z;
  getKind : DefinitionKind;
  getType : Z;
  argumentTypes : list Z
}.

Definition isTerminal (d : GrammarDefinition) : bool :=
  match getKind d with Terminal => true | Function => false end.
Definition isFunction (d : GrammarDefinition) : bool := negb (isTerminal d).
Definition getNumArguments (d : GrammarDefinition) : Z :=
  Z.of_nat (length (argumentTypes d)).

Record TypeDefinitionSet := mkTypeDefinitionSet {
  typeConstrainedTerminalLimit : Z;
  typeConstrainedFunctionLimit : Z;
  nodeValueForTypeConstrainedNodeValue : Z → Z
}.

Definition hasTerminals (set : TypeDefinitionSet) : bool :=
  (0 <? typeConstrainedTerminalLimit set)%Z.
Definition hasFunctions (set : TypeDefinitionSet) : bool :=
  (typeConstrainedTerminalLimit set <? typeConstrainedFunctionLimit set)%Z.

Record Grammar := mkGrammar {
  (* [Type::invalidTypeId]: the sentinel for "any type" *)
  invalidTypeId : Z;
  getTerminalLimit : Z;
  getFunctionLimit : Z;
  getNodeLimit : Z;
  definitionSetForType : Z → TypeDefinitionSet;
  definitionIdForTreeGenomeValue : Z → nat;
  (* [grammar[id]] *)
  definitionAt : nat → GrammarDefinition
}.

(** [grammar[node]]: the definition of a node value. *)
Definition definitionFor (g : Grammar) (v : Z) : GrammarDefinition :=
  definitionAt g (definitionIdForTreeGenomeValue g v).

(** *** The construction of a grammar

    Modelled from the spec: the definitions are reordered (for each type in
    registration order its terminals, then for each type its functions),
    numbered densely, and given node values by the running sum of the
    weights; a node value resolves to the last definition whose node value
    is not above it; a per-type set maps the constrained values, terminals
    first, onto that type's two contiguous ranges of node values. *)

Record DefinitionSpec := mkDefinitionSpec {
  specName : string;
  specKind : DefinitionKind;
  specType : Z;
  specArguments : list Z;
  specWeight : Z
}.

Definition terminal (name : string) (type weight : Z) : DefinitionSpec :=
  mkDefinitionSpec name Terminal type [] weight.
Definition unaryFunction (name : string) (type arg weight : Z) : DefinitionSpec :=
  mkDefinitionSpec name Function type [arg] weight.
Definition binaryFunction (name : string) (type : Z) (args : Z * Z) (weight : Z)
  : DefinitionSpec :=
  mkDefinitionSpec name Function type [args.1; args.2] weight.
Definition ternaryFunction (name : string) (type : Z) (args : Z * Z * Z)
    (weight : Z) : DefinitionSpec :=
  mkDefinitionSpec name Function type [args.1.1; args.1.2; args.2] weight.

Definition kind_eqb (a b : DefinitionKind) : bool :=
  match a, b with
  | Terminal, Terminal | Function, Function => true
  | _, _ => false
  end.

Definition canonicalOrder (typeCount : nat) (defs : list DefinitionSpec)
  : list DefinitionSpec :=
  let ofKind k t :=
    List.filter
      (fun d => kind_eqb (specKind d) k && (specType d =? Z.of_nat t)%Z) defs in
  flat_map (ofKind Terminal) (seq 0 typeCount)
  ++ flat_map (ofKind Function) (seq 0 typeCount).

Fixpoint assignNodeValues (id : nat) (next : Z) (defs : list DefinitionSpec)
  : list GrammarDefinition :=
  match defs with
  | [] => []
  | d :: rest =>
      mkDefinition (specName d) id next (specWeight d) (specKind d)
                   (specType d) (specArguments d)
        :: assignNodeValues (S id) (next + specWeight d)%Z rest
  end.

Definition sumWeights (defs : list GrammarDefinition) : Z :=
  foldr (fun d acc => (getWeight d + acc)%Z) 0%Z defs.

Definition firstNodeValue (defs : list GrammarDefinition) : Z :=
  match defs with
  | [] => 0%Z
  | d :: _ => getNodeValue d
  end.

Definition emptyDefinition : GrammarDefinition :=
  mkDefinition "" 0 0 0 Terminal 0 [].

Definition definitionSetOfTable (table : list GrammarDefinition) (type : Z)
  : TypeDefinitionSet :=
  let ts := List.filter (fun d => isTerminal d && (getType d =? type)%Z) table in
  let fs := List.filter (fun d => isFunction d && (getType d =? type)%Z) table in
  mkTypeDefinitionSet (sumWeights ts) (sumWeights ts + sumWeights fs)
    (fun v => if (v <? sumWeights ts)%Z then (firstNodeValue ts + v)%Z
              else (firstNodeValue fs + (v - sumWeights ts))%Z).

Definition Grammar_new (typeCount : nat) (defs : list DefinitionSpec) : Grammar :=
  let invalid := (2 ^ 32 - 1)%Z in
  let table := assignNodeValues 0 0%Z (canonicalOrder typeCount defs) in
  let terminalLimit := sumWeights (List.filter isTerminal table) in
  let functionLimit := sumWeights (List.filter isFunction table) in
  mkGrammar invalid terminalLimit functionLimit
    (terminalLimit + functionLimit)
    (fun type =>
       if (type =? invalid)%Z then
         mkTypeDefinitionSet terminalLimit (terminalLimit + functionLimit)
                             (fun v => v)
       else definitionSetOfTable table type)
    (fun v =>
       length (List.filter (fun d => (getNodeValue d <=? v)%Z) table) - 1)
    (fun id => nth id table emptyDefinition).

(** The grammar of the grammar test: one type, two terminals and three
    functions. *)
Definition testGrammar : Grammar :=
  Grammar_new 1 [
    terminal "x" 0 10;
    terminal "y" 0 10;
    binaryFunction "+" 0 (0, 0)%Z 5;
    binaryFunction "*" 0 (0, 0)%Z 11;
    unaryFunction "sin" 0 0 3
  ].

(** The grammar of the typed grammar test: [float] is type 0 and [float3]
    type 1. *)
Definition testTypedGrammar : Grammar :=
  Grammar_new 2 [
    terminal "x" 0 10;
    terminal "randomColor" 1 5;
    terminal "y" 0 10;
    terminal "orange" 1 1;
    binaryFunction "+" 0 (0, 0)%Z 5;
    ternaryFunction "rgb" 1 (0, 0, 0)%Z 5;
    binaryFunction "darker" 1 (1, 0)%Z 2;
    binaryFunction "*" 0 (0, 0)%Z 11;
    binaryFunction "lighter" 1 (1, 0)%Z 2;
    unaryFunction "sin" 0 0 3;
    unaryFunction "grayscale" 1 1 8;
    unaryFunction "cos" 0 0 6
  ].

(** A grammar whose only type has terminals and no function. *)
Definition terminalsOnlyGrammar : Grammar :=
  Grammar_new 1 [ terminal "x" 0 10; terminal "y" 0 10 ].

(** The checks of the [GrammarOk] conditions over one definition set. *)
Definition definitionSetChecks (g : Grammar) (set : TypeDefinitionSet) : bool :=
  let lo := typeConstrainedTerminalLimit set in
  let hi := typeConstrainedFunctionLimit set in
  (0 <=? lo)%Z && (lo <=? hi)%Z && (hi <? 2 ^ 32)%Z
  && forallb
       (fun v => isTerminal
          (definitionFor g (nodeValueForTypeConstrainedNodeValue set v)))
       (seqZ 0 lo)
  && forallb
       (fun v =>
          let d := definitionFor g (nodeValueForTypeConstrainedNodeValue set v) in
          negb (isTerminal d) && (0 <? length (argumentTypes d)))
       (seqZ lo (hi - lo)).

(** The argument types of the functions of a definition set. *)
Definition argumentTypesOfSet (g : Grammar) (set : TypeDefinitionSet) : list Z :=
  flat_map
    (fun v => argumentTypes
       (definitionFor g (nodeValueForTypeConstrainedNodeValue set v)))
    (seqZ (typeConstrainedTerminalLimit set)
          (typeConstrainedFunctionLimit set - typeConstrainedTerminalLimit set)).

(** ** The random number generator

    [std::mt19937] is a stream of words and a cursor.  A uniform integer
    distribution over [[a, b]] takes one word and maps it into the range;
    as the stream ranges over all streams, the draw ranges over the whole
    interval.  A distribution over an empty interval is undefined. *)

Record RNG := mkRNG {
  words : nat → Z;
  cursor : nat
}.

Definition nextWord (rng : RNG) : Z * RNG :=
  (words rng (cursor rng), mkRNG (words rng) (S (cursor rng))).

Definition uniform_int_distribution (a b : Z) (rng : RNG) : result (Z * RNG) :=
  if (a <=? b)%Z then
    let '(w, rng') := nextWord rng in
    Ok ((a + w mod (b - a + 1))%Z, rng')
  else Fail InvalidRange.

(** ** treeGenerator.h *)

Inductive Strategy := Full | Grow.

Record TreeGenerator := mkTreeGenerator {
  grammar : Grammar;
  terminalLimit : Z;
  nodeLimit : Z
}.

Definition TreeGenerator_new (g : Grammar) : result TreeGenerator :=
  let terminalLimit := getTerminalLimit g in
  let nodeLimit := getNodeLimit g in
  _ ← assert (nodeLimit =? wrap32 (getTerminalLimit g + getFunctionLimit g))%Z;
  _ ← assert (negb (terminalLimit =? 0)%Z);
  mret (mkTreeGenerator g terminalLimit nodeLimit).

(** [random(min, max)] on [TreeGenomeValue], an [unsigned]. *)
Definition random (min max : Z) (rng : RNG) : result (Z * RNG) :=
  uniform_int_distribution min max rng.

Definition randomTerminalValue (gen : TreeGenerator) (rng : RNG) :=
  random 0 (wrap32 (terminalLimit gen - 1)) rng.

Definition randomFunctionValue (gen : TreeGenerator) (rng : RNG) :=
  random (terminalLimit gen) (wrap32 (nodeLimit gen - 1)) rng.

Definition randomNodeValue (gen : TreeGenerator) (rng : RNG) :=
  random 0 (wrap32 (nodeLimit gen - 1)) rng.

Definition randomTerminalValueForDefinitonSet (set : TypeDefinitionSet)
    (rng : RNG) : result (Z * RNG) :=
  '(v, rng) ← random 0 (wrap32 (typeConstrainedTerminalLimit set - 1)) rng;
  mret (nodeValueForTypeConstrainedNodeValue set v, rng).

Definition randomFunctionValueForDefinitonSet (set : TypeDefinitionSet)
    (rng : RNG) : result (Z * RNG) :=
  '(v, rng) ← random (typeConstrainedTerminalLimit set)
                     (wrap32 (typeConstrainedFunctionLimit set - 1)) rng;
  mret (nodeValueForTypeConstrainedNodeValue set v, rng).

Definition randomNodeValueForDefinitonSet (set : TypeDefinitionSet)
    (rng : RNG) : result (Z * RNG) :=
  '(v, rng) ← random 0 (wrap32 (typeConstrainedFunctionLimit set - 1)) rng;
  mret (nodeValueForTypeConstrainedNodeValue set v, rng).

(** The loop over the arguments of a function definition: one sub-tree per
    argument type, each generated by [rec]. *)
Fixpoint generateArguments
    (rec : Builder Z → Z → RNG → result (Builder Z * RNG))
    (types : list Z) (builder : Builder Z) (rng : RNG)
  : result (Builder Z * RNG) :=
  match types with
  | [] => Ok (builder, rng)
  | type :: rest =>
      '(builder, rng) ← rec builder type rng;
      generateArguments rec rest builder rng
  end.

(** [generate].  [fuel] bounds the depth of the recursion: every call
    either stops or passes [maxDepth - 1] down. *)
Fixpoint generate (fuel : nat) (gen : TreeGenerator) (builder : Builder Z)
    (maxDepth : Z) (strategy : Strategy) (type : Z) (rng : RNG)
  : result (Builder Z * RNG) :=
  match fuel with
  | O => Fail OutOfFuel
  | S fuel' =>
      let g := grammar gen in
      let hasType := negb (type =? invalidTypeId g)%Z in
      let hasTerminals :=
        if hasType then hasTerminals (definitionSetForType g type) else true in
      if (maxDepth <=? 1)%Z && hasTerminals then
        '(value, rng) ←
          (if hasType
           then randomTerminalValueForDefinitonSet (definitionSetForType g type) rng
           else randomTerminalValue gen rng);
        builder ← add value builder;
        mret (builder, rng)
      else
        (* FIXME: what if type has no functions? *)
        '(value, rng) ←
          match strategy with
          | Full =>
              if hasType
              then randomFunctionValueForDefinitonSet (definitionSetForType g type) rng
              else randomFunctionValue gen rng
          | Grow =>
              if hasType
              then randomNodeValueForDefinitonSet (definitionSetForType g type) rng
              else randomNodeValue gen rng
          end;
        let def := definitionAt g (definitionIdForTreeGenomeValue g value) in
        if isTerminal def then
          builder ← add value builder;
          mret (builder, rng)
        else
          _ ← assert (isFunction def && (0 <? getNumArguments def)%Z);
          builder ← push value builder;
          '(builder, rng) ←
            generateArguments
              (fun builder type rng =>
                 depth ← int_sub maxDepth 1;
                 generate fuel' gen builder depth strategy type rng)
              (argumentTypes def) builder rng;
          builder ← pop builder;
          mret (builder, rng)
  end.

(** Generate a tree that grows fully until it reaches the specified depth. *)
Definition generateFull (fuel : nat) (gen : TreeGenerator) (builder : Builder Z)
    (maxDepth : Z) (type : Z) (rng : RNG) : result (Builder Z * RNG) :=
  generate fuel gen builder maxDepth Full type rng.

(** Generate a tree that can grow until max depth, but doesn't have to. *)
Definition generateGrow (fuel : nat) (gen : TreeGenerator) (builder : Builder Z)
    (maxDepth : Z) (type : Z) (rng : RNG) : result (Builder Z * RNG) :=
  generate fuel gen builder maxDepth Grow type rng.

(** *** What the generator relies on, and what it emits *)

(** The definition set that [generate] draws from: the set of the type, or
    the global limits when no type is asked for. *)
Definition setOf (g : Grammar) (type : Z) : TypeDefinitionSet :=
  if (type =? invalidTypeId g)%Z
  then mkTypeDefinitionSet (getTerminalLimit g) (getNodeLimit g) (fun v => v)
  else definitionSetForType g type.

(** Modelled from the spec: what the construction of a grammar guarantees
    about every definition set.  The limits are [unsigned] numbers; the
    constrained values below the terminal limit resolve to terminals, the
    values from there up to the function limit resolve to functions, and a
    function has at least one argument. *)
Record GrammarOk (g : Grammar) : Prop := mkGrammarOk {
  nodeLimit_sum :
    getNodeLimit g = wrap32 (getTerminalLimit g + getFunctionLimit g);
  limits_ordered : ∀ type,
    (0 ≤ typeConstrainedTerminalLimit (setOf g type)
       ≤ typeConstrainedFunctionLimit (setOf g type))%Z
    ∧ (typeConstrainedFunctionLimit (setOf g type) < 2 ^ 32)%Z;
  terminals_resolve : ∀ type v,
    (0 ≤ v < typeConstrainedTerminalLimit (setOf g type))%Z →
    isTerminal
      (definitionFor g (nodeValueForTypeConstrainedNodeValue (setOf g type) v))
    = true;
  functions_resolve : ∀ type v,
    (typeConstrainedTerminalLimit (setOf g type) ≤ v
       < typeConstrainedFunctionLimit (setOf g type))%Z →
    let d :=
      definitionFor g (nodeValueForTypeConstrainedNodeValue (setOf g type) v) in
    isTerminal d = false ∧ argumentTypes d ≠ []
}.

(** The types that a sub-tree of the given type can ask for: the argument
    types of the functions of its definition set, transitively. *)
Inductive reachable (g : Grammar) : Z → Z → Prop :=
| reachable_refl type : reachable g type type
| reachable_step type v arg type' :
    (typeConstrainedTerminalLimit (setOf g type) ≤ v
       < typeConstrainedFunctionLimit (setOf g type))%Z →
    arg ∈ argumentTypes
      (definitionFor g (nodeValueForTypeConstrainedNodeValue (setOf g type) v)) →
    reachable g arg type' →
    reachable g type type'.

(** The layout that the builder produces for a rose: the fields are
    [unsigned], so the counts and the sizes are wrapped. *)
Definition wrapNode {T} (n : NodeStorage T) : NodeStorage T :=
  mkNodeStorage (value n) (wrap32 (childCount n)) (wrap32 (subTreeSize n)).

Definition packed {T} (r : rose T) : list (NodeStorage T) :=
  wrapNode <$> flatten r.

Definition packedForest {T} (kids : list (rose T)) : list (NodeStorage T) :=
  wrapNode <$> flattenForest kids.

(** The open parent after [count] more children with [size] more nodes. *)
Definition bumpBy {T} (count size : nat) (n : NodeStorage T) : NodeStorage T :=
  mkNodeStorage (value n) (wrap32 (childCount n + Z.of_nat count))
                (wrap32 (subTreeSize n + Z.of_nat size)).

(** [b'] is [b] with the nodes [new] appended as [count] more children of
    the open parent, if there is one. *)
Definition extends {T} (count size : nat) (new : list (NodeStorage T))
    (b b' : Builder T) : Prop :=
  stack b' = stack b
  ∧ nodes (tree b') =
      match stack b with
      | [] => nodes (tree b)
      | back :: _ => alter (bumpBy count size) back (nodes (tree b))
      end ++ new.

(** The open parent exists and its fields are in the [unsigned] range. *)
Definition topValid {T} (b : Builder T) : Prop :=
  match stack b with
  | [] => True
  | back :: _ =>
      ∃ n, nodes (tree b) !! back = Some n
         ∧ wrap32 (childCount n) = childCount n
         ∧ wrap32 (subTreeSize n) = subTreeSize n
  end.

(** The values of the leaves, the values of the nodes that have children,
    and the depths of the leaves, the root being at depth 1. *)
Fixpoint leafValues {T} (r : rose T) : list T :=
  match r with
  | Rose v [] => [v]
  | Rose _ kids => concat (map leafValues kids)
  end.

Fixpoint internalValues {T} (r : rose T) : list T :=
  match r with
  | Rose _ [] => []
  | Rose v kids => v :: concat (map internalValues kids)
  end.

Fixpoint leafDepths {T} (r : rose T) : list nat :=
  match r with
  | Rose _ [] => [1]
  | Rose _ kids => S <$> concat (map leafDepths kids)
  end.

Fixpoint depth {T} (r : rose T) : nat :=
  match r with
  | Rose _ kids => S (foldr Nat.max 0 (map depth kids))
  end.

(** The roses that [generate] can emit for a strategy and a depth: a
    terminal at depth 1 or below; under [Grow], a terminal at any depth; a
    function over one sub-tree per argument, each for the depth less one. *)
Inductive Generated (g : Grammar) (strategy : Strategy) : Z → rose Z → Prop :=
| Generated_bottom d v :
    (d ≤ 1)%Z → isTerminal (definitionFor g v) = true →
    Generated g strategy d (Rose v [])
| Generated_early d v :
    (1 < d)%Z → strategy = Grow → isTerminal (definitionFor g v) = true →
    Generated g strategy d (Rose v [])
| Generated_function d v kids :
    (1 < d)%Z → isFunction (definitionFor g v) = true →
    kids ≠ [] →
    length kids = length (argumentTypes (definitionFor g v)) →
    Forall (Generated g strategy (d - 1)) kids →
    Generated g strategy d (Rose v kids).

(** ** Floating point

    The depth ramp, the fitness scores and the variation rates are [float]s.
    Their arithmetic is not modelled: the type and the operations that the
    sources use are the fields of a class, and every result below holds for
    each instance.  [float_of_word] turns one word of the generator into the
    draw of [std::uniform_real_distribution<float>(0, 1)]. *)

Class FloatOps := mkFloatOps {
  float : Type;
  (* [float(n)] for an [int] or a [size_t] *)
  float_of_int : Z → float;
  float_add : float → float → float;
  float_div : float → float → float;
  (* [int(floor(x))] *)
  float_floor_to_int : float → Z;
  float_floor_to_int_range : ∀ x,
    (INT_MIN ≤ float_floor_to_int x ≤ INT_MAX)%Z;
  (* [x < y] and [x <= y] *)
  float_lt : float → float → bool;
  float_le : float → float → bool;
  float_of_word : Z → float
}.

(** ** initializer.h and rampedHalfAndHalfInitializer.h *)

Record InitializationOptions := mkInitializationOptions {
  maxTreeGenomeDepth : Z;
  populationSize : nat
}.

(** An initializer delegate: each method may emit nodes through the builder
    and advance the generator, and returns whether it handled the genome. *)
Record RampedHalfAndHalfInitializerDelegate := mkInitializerDelegate {
  delegate_generateFull :
    TreeGenerator → Builder Z → Z → RNG → result (bool * Builder Z * RNG);
  delegate_generateGrow :
    TreeGenerator → Builder Z → Z → RNG → result (bool * Builder Z * RNG)
}.

Record RampedHalfAndHalfInitializer := mkInitializer {
  gen : TreeGenerator;
  delegate : option RampedHalfAndHalfInitializerDelegate
}.

Definition RampedHalfAndHalfInitializer_new (g : Grammar)
    (delegate : option RampedHalfAndHalfInitializerDelegate)
  : result RampedHalfAndHalfInitializer :=
  gen ← TreeGenerator_new g;
  mret (mkInitializer gen delegate).

(** What [initialize] hands to the consumer: the genome, with the strategy
    and the depth it was generated for. *)
Record Emitted := mkEmitted {
  emittedStrategy : Strategy;
  emittedDepth : Z;
  emittedGenome : Tree Z
}.

(** The body of both loops: a fresh genome and its builder, the delegate
    first and the generator if the delegate is absent or declines. *)
Definition generateGenome (fuel : nat) (init : RampedHalfAndHalfInitializer)
    (strategy : Strategy) (currentDepth : Z) (rng : RNG)
  : result (Tree Z * RNG) :=
  let builder := Builder_new Tree_new in
  '(handled, builder, rng) ←
    match delegate init with
    | Some d =>
        match strategy with
        | Full => delegate_generateFull d (gen init) builder currentDepth rng
        | Grow => delegate_generateGrow d (gen init) builder currentDepth rng
        end
    | None => Ok (false, builder, rng)
    end;
  if (handled : bool) then mret (tree builder, rng)
  else
    '(builder, rng) ←
      generate fuel (gen init) builder currentDepth strategy
        (invalidTypeId (grammar (gen init))) rng;
    mret (tree builder, rng).

Section Engine.
Context {fo : FloatOps}.

(** One of the two loops of [initialize], for [count] more iterations.  [C]
    is the state of the consumer. *)
Fixpoint rampLoop {C} (count : nat) (strategy : Strategy) (fuel : nat)
    (init : RampedHalfAndHalfInitializer) (depth depthDelta : float)
    (consumer : Tree Z → C → C) (c : C) (log : list Emitted) (rng : RNG)
  : result (C * list Emitted * RNG) :=
  match count with
  | O => Ok (c, log, rng)
  | S count' =>
      let currentDepth := float_floor_to_int depth in
      '(genome, rng) ← generateGenome fuel init strategy currentDepth rng;
      let c := consumer genome c in
      rampLoop count' strategy fuel init (float_add depth depthDelta)
        depthDelta consumer c
        (log ++ [mkEmitted strategy currentDepth genome]) rng
  end.

(** [initialize]: ramped half and half initialization.  The result is the
    state of the consumer, the genomes handed to it in order, and the
    generator. *)
Definition initialize {C} (fuel : nat) (init : RampedHalfAndHalfInitializer)
    (options : InitializationOptions) (consumer : Tree Z → C → C) (c : C)
    (rng : RNG) : result (C * list Emitted * RNG) :=
  let size := populationSize options in
  let depth := float_of_int 1 in
  let depthDelta :=
    float_div (float_of_int (maxTreeGenomeDepth options))
              (float_div (float_of_int (Z.of_nat size)) (float_of_int 2)) in
  '(c, log, rng) ←
    rampLoop (size / 2) Full fuel init depth depthDelta consumer c [] rng;
  let depth := float_of_int 1 in
  rampLoop (size - size / 2) Grow fuel init depth depthDelta consumer c log rng.

End Engine.

(** ** treePrinter.h

    The printer writes to a stream; the model returns the text.
    [printTerminal] of a printer delegate is handed the stream: it returns
    what it wrote and whether it took the terminal over.  When it declines,
    the printer writes the name behind whatever the delegate wrote. *)

Definition TreeGenomePrinterDelegate : Type :=
  GrammarDefinition → Tree Z → nat → string * bool.

Fixpoint print (fuel : nat) (defs : Grammar)
    (delegate : option TreeGenomePrinterDelegate) (t : Tree Z) (nodeId : nat)
  : result string :=
  match fuel with
  | O => Fail OutOfFuel
  | S fuel' =>
      node ← nodeAt t nodeId;
      let definition := definitionFor defs (value node) in
      if isTerminal definition then
        _ ← assert (childCount node =? 0)%Z;
        match delegate with
        | Some printTerminal =>
            let written := printTerminal definition t nodeId in
            if written.2 then mret written.1
            else mret (written.1 +:+ getName definition)
        | None => mret (getName definition)
        end
      else
        _ ← assert (childCount node =? getNumArguments definition)%Z;
        kids ← Node_children t nodeId;
        rest ← foldl (fun acc child =>
                        text ← acc;
                        c ← print fuel' defs delegate t child;
                        mret (text +:+ " " +:+ c))
                     (Ok "") kids;
        mret ("(" +:+ getName definition +:+ rest +:+ ")")
  end.

Definition printTree (defs : Grammar)
    (delegate : option TreeGenomePrinterDelegate) (t : Tree Z) : result string :=
  roots ← Tree_roots t;
  foldl (fun acc node =>
           text ← acc;
           c ← print (S (length (nodes t))) defs delegate t node;
           mret (text +:+ c))
        (Ok "") roots.

(** ** geneticProgramming.h: the evolving population *)

Section PopulationModel.
Context {fo : FloatOps}.
(** The state of the host behind the delegate. *)
Context {Host : Type}.

Record EvolutionParameters := mkEvolutionParameters {
  mutationRate : float;
  crossoverRate : float
}.

Record EvolvingPopulationDelegate := mkEvolvingPopulationDelegate {
  printerDelegate : option TreeGenomePrinterDelegate;
  computeFitness : list (Tree Z) → list float → Host → list float * Host;
  generateRandomTreeOfType : Z → Host → RNG → result (Tree Z * Host * RNG);
  genomeGrammar : Grammar
}.

(** What the population shares with its surroundings: the generator of the
    parameters, the host, and the number of calls of [computeFitness] so
    far. *)
Record World := mkWorld {
  rng : RNG;
  host : Host;
  computeFitnessCalls : nat
}.

Record Population := mkPopulation {
  individuals : list (Tree Z);
  fitnesses : list float;
  currentBestIndividualId : nat;
  evaluatedGeneration : Z;
  generation : Z
}.

Record Stats := mkStats {
  averageFitness : float;
  bestFitness : float;
  bestIndividual : nat
}.

Context (params : EvolutionParameters) (traits : EvolvingPopulationDelegate).

(** [v[i]] on a vector. *)
Definition at_ {A} (v : list A) (i : nat) : result A :=
  match v !! i with
  | Some x => Ok x
  | None => Fail OutOfRange
  end.

Definition Population_new (size : nat) : result Population :=
  _ ← assert (negb (size =? 0));
  mret (mkPopulation [] (replicate size (float_of_int 0)) 0 (-1) 0).


(** [random(max)] on [size_t]. *)
Definition randomUpTo (max : Z) (rng : RNG) : result (nat * RNG) :=
  '(v, rng) ← uniform_int_distribution 0 max rng;
  mret (Z.to_nat v, rng).

(** Return a node id of a random node in a given genome. *)
Definition selectRandomNode (genome : Tree Z) (rng : RNG) : result (nat * RNG) :=
  randomUpTo (wrap64 (Z.of_nat (getNodeCount genome) - 1)) rng.

(** [grammar[genome[nodeId]].getType()] *)
Definition typeOfNode (genome : Tree Z) (nodeId : nat) : result Z :=
  _ ← assert (bool_decide (nodeId < length (nodes genome)));
  node ← nodeAt genome nodeId;
  mret (getType (definitionFor (genomeGrammar traits) (value node))).

Definition mutate (genome : Tree Z) (w : World) : result (Tree Z * World) :=
  '(nodeId, rng) ← selectRandomNode genome (rng w);
  (* Replace the node only with the node of the same type. *)
  type ← typeOfNode genome nodeId;
  '(subTree, host, rng) ← generateRandomTreeOfType traits type (host w) rng;
  (* [subTree] is the temporary that the delegate returned. *)
  genome ← replace nodeId (Another subTree) genome;
  mret (genome, mkWorld rng host (computeFitnessCalls w)).

(** The ids of the nodes of the genome whose definition has the type. *)
Definition nodesWithType (genome : Tree Z) (type : Z) : list nat :=
  List.filter
    (fun i =>
       match nodes genome !! i with
       | Some node =>
           (getType (definitionFor (genomeGrammar traits) (value node)) =? type)%Z
       | None => false
       end)
    (seq 0 (getNodeCount genome)).

Definition selectRandomNodeWithType (genome : Tree Z) (type : Z) (rng : RNG)
  : result (nat * bool * RNG) :=
  let nodes := nodesWithType genome type in
  match nodes with
  | [] => mret (0, false, rng)
  | _ =>
      '(index, rng) ← randomUpTo (wrap64 (Z.of_nat (length nodes) - 1)) rng;
      node ← at_ nodes index;
      mret (node, true, rng)
  end.

(** Return true if crossover was successful.  False is returned when the
    other genome doesn't have any nodes that have the same type. *)
Definition crossover (genome : Tree Z) (i : nat) (type : Z) (other : Tree Z)
    (rng : RNG) : result (bool * Tree Z * Tree Z * RNG) :=
  '(j, found, rng) ← selectRandomNodeWithType other type rng;
  if (found : bool) then
    x ← getSubTree i genome;
    y ← getSubTree j other;
    (* [x] and [y] are the copies made above. *)
    genome ← replace i (Another y) genome;
    other ← replace j (Another x) other;
    mret (true, genome, other, rng)
  else mret (false, genome, other, rng).

(** The precondition that [select] asserts. *)
Definition selectPrecondition (count size : Z) : bool :=
  negb (count =? 0)%Z && (count <=? size)%Z.

(** One 3-tournament: three draws, the first of the fittest wins. *)
Definition tournament (p : Population) (rng : RNG) : result (Tree Z * RNG) :=
  let max := wrap64 (Z.of_nat (length (individuals p)) - 1) in
  '(s0, rng) ← randomUpTo max rng;
  '(s1, rng) ← randomUpTo max rng;
  '(s2, rng) ← randomUpTo max rng;
  maxFitness ← at_ (fitnesses p) s0;
  let selectedIndividual := s0 in
  f1 ← at_ (fitnesses p) s1;
  let '(maxFitness, selectedIndividual) :=
    if float_lt maxFitness f1 then (f1, s1)
    else (maxFitness, selectedIndividual) in
  f2 ← at_ (fitnesses p) s2;
  let '(maxFitness, selectedIndividual) :=
    if float_lt maxFitness f2 then (f2, s2)
    else (maxFitness, selectedIndividual) in
  individual ← at_ (individuals p) selectedIndividual;
  mret (individual, rng).

Fixpoint selectLoop (count : nat) (p : Population)
    (newGeneration : list (Tree Z)) (rng : RNG)
  : result (list (Tree Z) * RNG) :=
  match count with
  | O => Ok (newGeneration, rng)
  | S count' =>
      '(individual, rng) ← tournament p rng;
      selectLoop count' p (newGeneration ++ [individual]) rng
  end.

(** [select]; [count] is a [size_t]. *)
Definition select (newGeneration : list (Tree Z)) (count : Z) (p : Population)
    (rng : RNG) : result (list (Tree Z) * RNG) :=
  _ ← assert (selectPrecondition count (Z.of_nat (length (individuals p))));
  selectLoop (Z.to_nat count) p newGeneration rng.

(** The scan for the best fitness, from [start] over the first [count]
    scores. *)
Fixpoint bestFrom (scores : list float) (i : nat) (bestFitness : float)
    (bestIndividual : nat) : float * nat :=
  match scores with
  | [] => (bestFitness, bestIndividual)
  | fitness :: rest =>
      if float_lt bestFitness fitness
      then bestFrom rest (S i) fitness i
      else bestFrom rest (S i) bestFitness bestIndividual
  end.

Definition getStats (p : Population) : result Stats :=
  first ← at_ (fitnesses p) 0;
  _ ← (if bool_decide (length (individuals p) ≤ length (fitnesses p))
       then Ok tt else Fail OutOfRange);
  let scores := take (length (individuals p)) (fitnesses p) in
  let total := foldl float_add (float_of_int 0) scores in
  let '(bestFitness, bestIndividual) := bestFrom scores 0 first 0 in
  mret (mkStats
          (float_div total (float_of_int (Z.of_nat (length (individuals p)))))
          bestFitness bestIndividual).

(** [dump]: what is written to [std::cout] is left out but for the trees. *)
Definition dump (printIndividuals : bool) (p : Population) : result string :=
  stats ← getStats p;
  best ← at_ (individuals p) (bestIndividual stats);
  text ← printTree (genomeGrammar traits) (printerDelegate traits) best;
  if printIndividuals then
    foldl (fun acc i =>
             text ← acc;
             c ← printTree (genomeGrammar traits) (printerDelegate traits) i;
             mret (text +:+ c))
          (Ok text) (individuals p)
  else mret text.

Definition evaluateGeneration (p : Population) (w : World)
  : result (nat * Population * World) :=
  if (evaluatedGeneration p =? generation p)%Z then
    mret (currentBestIndividualId p, p, w)
  else
    (* Evaluate the individuals. *)
    let '(fitnesses, host) :=
      computeFitness traits (individuals p) (fitnesses p) (host w) in
    let w := mkWorld (rng w) host (S (computeFitnessCalls w)) in
    _ ← assert (length fitnesses =? length (individuals p));
    first ← at_ fitnesses 0;
    let '(_, bestIndividual) :=
      bestFrom (take (length (individuals p)) fitnesses) 0 first 0 in
    mret (bestIndividual,
          mkPopulation (individuals p) fitnesses bestIndividual
                       (generation p) (generation p),
          w).

(** The pass over the new generation that mutates and crosses over.  The
    index moves on by one or two in every round, so rounds up to the length
    of the generation suffice. *)
Fixpoint variation (rounds : nat) (i : nat) (newGeneration : list (Tree Z))
    (w : World) : result (list (Tree Z) * World) :=
  if bool_decide (i < length newGeneration) then
    match rounds with
    | O => Fail OutOfFuel
    | S rounds' =>
        let '(word, rng0) := nextWord (rng w) in
        let w := mkWorld rng0 (host w) (computeFitnessCalls w) in
        let p := float_of_word word in
        if float_le p (mutationRate params) then
          genome ← at_ newGeneration i;
          '(genome, w) ← mutate genome w;
          variation rounds' (S i) (<[i := genome]> newGeneration) w
        else if float_le p (float_add (mutationRate params) (crossoverRate params))
        then
          '(next, rng1) ←
            (if bool_decide (i + 1 ≠ length newGeneration)
             then Ok (i + 1, rng w)
             else randomUpTo (wrap64 (Z.of_nat (length newGeneration) - 1))
                             (rng w));
          let next :=
            if bool_decide (next = i)
            then Z.to_nat (wrap64 (Z.of_nat i - 1)) else next in
          genome ← at_ newGeneration i;
          '(genomeIndex, rng2) ← selectRandomNode genome rng1;
          type ← typeOfNode genome genomeIndex;
          other ← at_ newGeneration next;
          (* TODO: Try 3 times. *)
          '(_, genome, other, rng3) ← crossover genome genomeIndex type other rng2;
          variation rounds' (S (S i))
            (<[next := other]> (<[i := genome]> newGeneration))
            (mkWorld rng3 (host w) (computeFitnessCalls w))
        else variation rounds' (S i) newGeneration w
    end
  else Ok (newGeneration, w).

Definition nextGeneration (doDump : bool) (p : Population) (w : World)
  : result (Population * World) :=
  '(bestIndividual, p, w) ← evaluateGeneration p w;
  _ ← (if doDump then dump false p else Ok "");
  (* Selection.  Add two elites for mutation / crossover. *)
  elite ← at_ (individuals p) bestIndividual;
  let newGeneration := [elite; elite] in
  _ ← assert (float_le (float_add (mutationRate params) (crossoverRate params))
                       (float_of_int 1));
  (* Performs tournament selection for the rest. *)
  '(newGeneration, rng1) ←
    select newGeneration (wrap64 (Z.of_nat (length (individuals p)) - 3)) p (rng w);
  (* Do mutation / crossover. *)
  '(newGeneration, w) ←
    variation (length newGeneration) 0 newGeneration
      (mkWorld rng1 (host w) (computeFitnessCalls w));
  (* Add the elite without mutation / crossover. *)
  elite ← at_ (individuals p) bestIndividual;
  let newGeneration := newGeneration ++ [elite] in
  generation ← int_add (generation p) 1;
  mret (mkPopulation newGeneration (fitnesses p) (currentBestIndividualId p)
          (evaluatedGeneration p) generation, w).

End PopulationModel.

Arguments EvolutionParameters {fo}.
Arguments EvolvingPopulationDelegate {fo} Host.
Arguments World : clear implicits.
Arguments Population {fo}.
Arguments Stats {fo}.

(** The calls of [evaluateGeneration] one after the other, with the ids
    they return. *)
Fixpoint evaluateRepeatedly {fo : FloatOps} {Host}
    (traits : EvolvingPopulationDelegate Host) (n : nat) (p : Population)
    (w : World Host) : result (list nat * Population * World Host) :=
  match n with
  | O => Ok ([], p, w)
  | S n' =>
      '(best, p, w) ← evaluateGeneration traits p w;
      '(rest, p, w) ← evaluateRepeatedly traits n' p w;
      mret (best :: rest, p, w)
  end.


(** *** What a generation step relies on *)

(** A genome that [mutate] and [crossover] can work on: the layout of one
    rose, within the 32-bit size field. *)
Definition goodGenome (t : Tree Z) : Prop := ∃ r, represents r t.

Definition totalNodes (genomes : list (Tree Z)) : nat :=
  sum_list (getNodeCount <$> genomes).

Section PopulationContracts.
Context {fo : FloatOps} {Host : Type}.
Context (traits : EvolvingPopulationDelegate Host).

(** [best] is the index of a score that no score exceeds. *)
Definition bestOf (scores : list float) (best : nat) : Prop :=
  ∃ fb, scores !! best = Some fb
      ∧ ∀ j fj, scores !! j = Some fj → float_lt fb fj = false.

(** What the population asks of its host: [computeFitness] keeps the length
    of the score array, and [generateRandomTreeOfType], for the type of a
    node value, returns a genome of at most [maxNodes] nodes. *)
Record DelegateOk (maxNodes : nat) : Prop := mkDelegateOk {
  computeFitness_length : ∀ individuals scores h,
    length (computeFitness traits individuals scores h).1 = length scores;
  generateRandomTreeOfType_ok : ∀ v h rng,
    ∃ t h' rng',
      generateRandomTreeOfType traits
        (getType (definitionFor (genomeGrammar traits) v)) h rng
      = Ok (t, h', rng')
      ∧ goodGenome t ∧ getNodeCount t ≤ maxNodes
}.

(** A population that has been initialized: one score per individual, every
    individual a genome of at most [maxNodes] nodes, the generation counter
    an [int] below its maximum, and the cached best individual, if the
    generation has been evaluated, a best one. *)
Record PopulationOk (maxNodes : nat) (p : Population) : Prop := mkPopulationOk {
  fitnesses_length : length (fitnesses p) = length (individuals p);
  individuals_good : Forall goodGenome (individuals p);
  individuals_bounded :
    Forall (fun t => getNodeCount t ≤ maxNodes) (individuals p);
  generation_range : (INT_MIN ≤ generation p < INT_MAX)%Z;
  cached_best :
    evaluatedGeneration p = generation p →
    bestOf (fitnesses p) (currentBestIndividualId p)
}.

End PopulationContracts.

(** A stream of words for the examples. *)
Definition testRNG : RNG := mkRNG (fun n => Z.of_nat (7 * n + 3)) 0.

(** *** Instances for the examples

    Rationals in the place of [float]; a host without state whose fitness
    prefers small trees and whose random trees come from [generateGrow] of
    depth 2, as in the solver tests. *)

Definition clampToInt (z : Z) : Z := Z.max INT_MIN (Z.min INT_MAX z).

#[local] Instance rationalFloats : FloatOps := {|
  float := QArith_base.Q;
  float_of_int := QArith_base.inject_Z;
  float_add := QArith_base.Qplus;
  float_div := QArith_base.Qdiv;
  float_floor_to_int x := clampToInt (Qround.Qfloor x);
  float_floor_to_int_range x :=
    conj (Z.le_max_l INT_MIN _)
         (Z.max_lub INT_MIN _ INT_MAX
            (Z.lt_le_incl INT_MIN INT_MAX
               (eq_refl : (INT_MIN ?= INT_MAX)%Z = Lt))
            (Z.le_min_l INT_MAX _));
  float_lt a b := negb (QArith_base.Qle_bool b a);
  float_le := QArith_base.Qle_bool;
  float_of_word w := QArith_base.Qmake (w mod 1000) 1000
|}.

Definition testParameters : EvolutionParameters :=
  mkEvolutionParameters (QArith_base.Qmake 1 10) (QArith_base.Qmake 895 1000).

(** The fitness of a genome in the examples: small trees are fitter. *)
Definition testFitness (t : Tree Z) : QArith_base.Q :=
  QArith_base.inject_Z (- Z.of_nat (getNodeCount t)).

Definition testDelegate : EvolvingPopulationDelegate unit :=
  mkEvolvingPopulationDelegate None
    (* [fitnesses[i] = fitness(individuals[i])] for every individual *)
    (fun individuals scores host =>
       (take (length scores)
             (map testFitness individuals ++ drop (length individuals) scores),
        host))
    (fun type host rng =>
       gen ← TreeGenerator_new testGrammar;
       '(builder, rng) ← generateGrow 2 gen (Builder_new Tree_new) 2 type rng;
       mret (tree builder, host, rng))
    testGrammar.

(** Genomes over [testGrammar]: [x], [(sin y)] and [(+ x y)]. *)
Definition genomeX : Tree Z := mkTree (flatten (Rose 0%Z [])).
Definition genomeSinY : Tree Z :=
  mkTree (flatten (Rose 36%Z [Rose 10%Z []])).
Definition genomePlusXY : Tree Z :=
  mkTree (flatten (Rose 20%Z [Rose 0%Z []; Rose 10%Z []])).

Definition testPopulation (individuals : list (Tree Z)) : Population :=
  mkPopulation individuals
    (replicate (length individuals) (float_of_int 0)) 0 (-1) 0.

Definition testWorld : World unit := mkWorld testRNG tt 0.

(** The nodes of the genome tests, and the tree [(+ (+ 1 1) 0)] that they
    build with [push Plus; push Plus; add One; add One; pop; add Zero; pop]. *)
Inductive TestNode := Plus | One | Zero.

Definition testGenome_builder : result (Builder TestNode) :=
  b ← push Plus (Builder_new Tree_new);
  b ← push Plus b;
  b ← add One b;
  b ← add One b;
  b ← pop b;
  b ← add Zero b;
  pop b.

Definition testGenome_rose : rose TestNode :=
  Rose Plus [Rose Plus [Rose One []; Rose One []]; Rose Zero []].

Definition testGenome_tree : Tree TestNode := mkTree (flatten testGenome_rose).

Definition testGenome_sub : Tree TestNode :=
  mkTree (flatten (Rose Plus [Rose One []; Rose One []])).


(** The fixtures of the initializer test: a grammar with a ternary [rgb],
    and a delegate that emits the [rgb] root itself. *)
Definition testInitGrammar : Grammar :=
  Grammar_new 1 [
    terminal "x" 0 10;
    terminal "y" 0 10;
    binaryFunction "+" 0 (0, 0)%Z 5;
    binaryFunction "*" 0 (0, 0)%Z 5;
    ternaryFunction "rgb" 0 (0, 0, 0)%Z 2
  ].

Definition testInitDelegate (fuel : nat) (rgb : Z)
  : RampedHalfAndHalfInitializerDelegate :=
  let emit strategy (generator : TreeGenerator) builder maxDepth rng :=
    builder ← push rgb builder;
    '(builder, rng) ←
      generate fuel generator builder maxDepth strategy
        (invalidTypeId (grammar generator)) rng;
    '(builder, rng) ←
      generate fuel generator builder maxDepth strategy
        (invalidTypeId (grammar generator)) rng;
    '(builder, rng) ←
      generate fuel generator builder maxDepth strategy
        (invalidTypeId (grammar generator)) rng;
    builder ← pop builder;
    mret (true, builder, rng) in
  mkInitializerDelegate (emit Full) (emit Grow).

(** The tree of the printer test: [+] over [sin x] and the product of [y]
    and [sin y]. *)
Definition testPrinter_tree : result (Builder Z) :=
  b ← push 20%Z (Builder_new Tree_new);
  b ← push 36%Z b; b ← add 0%Z b; b ← pop b;
  b ← push 25%Z b; b ← add 10%Z b;
  b ← push 36%Z b; b ← add 10%Z b; b ← pop b;
  b ← pop b;
  pop b.

(** The preorder indices of the roots of a list of trees laid out one
    after the other from [start]. *)
Fixpoint childPositions {T} (start : nat) (kids : list (rose T)) : list nat :=
  match kids with
  | [] => []
  | kid :: rest => start :: childPositions (start + rsize kid) rest
  end.

(** ** Trees that fit a grammar, and their texts

    A tree fits the grammar when every node whose definition is a terminal
    has no children and every other node has as many children as its
    definition has arguments.  The text of such a tree is the name of a
    terminal, and for a function the name and the texts of the children, each
    after a space, between parentheses. *)
Fixpoint shaped (g : Grammar) (r : rose Z) : bool :=
  match r with
  | Rose v kids =>
      (if isTerminal (definitionFor g v) then Nat.eqb (length kids) 0
       else (Z.of_nat (length kids) =? getNumArguments (definitionFor g v))%Z)
      && forallb (shaped g) kids
  end.

Fixpoint render (g : Grammar) (r : rose Z) : string :=
  match r with
  | Rose v kids =>
      if isTerminal (definitionFor g v) then getName (definitionFor g v)
      else "(" +:+ getName (definitionFor g v)
               +:+ foldr (fun kid rest => " " +:+ render g kid +:+ rest) ")" kids
  end.

(** What printing a tree comes to: its text if it fits the grammar, a failed
    assertion if not. *)
Definition printed (g : Grammar) (r : rose Z) : result string :=
  if shaped g r then Ok (render g r) else Fail AssertionFailed.

(** A grammar whose second type has a function over itself and no
    terminal. *)
Definition loopGrammar : Grammar :=
  Grammar_new 2 [ terminal "x" 0 10; unaryFunction "again" 1 1 5 ].

(** The value at the root of a tree. *)
Definition rootValue {T} (r : rose T) : T :=
  match r with Rose v _ => v end.


(** ** treeCompiler.h

    The compiler writes the program of a tree to a stream; the model returns
    the text.  A method of the delegate returns what it wrote and whether it
    took the node over. *)

Record TreeGenomeCompilerDelegate := mkCompilerDelegate {
  compiler_printTerminal : GrammarDefinition → Tree Z → nat → string * bool;
  compiler_printFunction : GrammarDefinition → Tree Z → nat → string * bool;
  treeGenomeCompilerShouldPrintFunctionAsOperator : GrammarDefinition → bool
}.

Fixpoint TreeGenomeCompiler_print (fuel : nat) (defs : Grammar)
    (delegate : option TreeGenomeCompilerDelegate) (t : Tree Z) (nodeId : nat)
  : result string :=
  match fuel with
  | O => Fail OutOfFuel
  | S fuel' =>
      node ← nodeAt t nodeId;
      let definition := definitionFor defs (value node) in
      if isTerminal definition then
        _ ← assert (childCount node =? 0)%Z;
        match delegate with
        | Some d =>
            let written := compiler_printTerminal d definition t nodeId in
            if written.2 then mret written.1
            else mret (written.1 +:+ getName definition)
        | None => mret (getName definition)
        end
      else
        _ ← assert (childCount node =? getNumArguments definition)%Z;
        let written :=
          match delegate with
          | Some d => compiler_printFunction d definition t nodeId
          | None => ("", false)
          end in
        if written.2 then mret written.1
        else if match delegate with
                | Some d =>
                    treeGenomeCompilerShouldPrintFunctionAsOperator d definition
                | None => false
                end
        then
          (* Print an operator: [op X] or [X op Y] *)
          if (childCount node =? 1)%Z then
            child ← Node_at t nodeId 0;
            x ← TreeGenomeCompiler_print fuel' defs delegate t child;
            mret (written.1 +:+ "(" +:+ getName definition +:+ " " +:+ x +:+ ")")
          else if (childCount node =? 2)%Z then
            child ← Node_at t nodeId 0;
            x ← TreeGenomeCompiler_print fuel' defs delegate t child;
            child ← Node_at t nodeId 1;
            y ← TreeGenomeCompiler_print fuel' defs delegate t child;
            mret (written.1 +:+ "(" +:+ x +:+ " " +:+ getName definition
                            +:+ " " +:+ y +:+ ")")
          else Fail AssertionFailed
        else
          (* Print a function call: [fn(arguments...)] *)
          kids ← Node_children t nodeId;
          out ← foldl (fun acc child =>
                         state ← acc;
                         c ← TreeGenomeCompiler_print fuel' defs delegate t child;
                         mret (state.1 +:+ (if state.2 : bool then "" else ", ")
                                       +:+ c, false))
                      (Ok (written.1 +:+ getName definition +:+ "(", true)) kids;
          mret (out.1 +:+ ")")
  end.

Definition TreeGenomeCompiler_printTree (defs : Grammar)
    (delegate : option TreeGenomeCompilerDelegate) (t : Tree Z) : result string :=
  roots ← Tree_roots t;
  foldl (fun acc node =>
           text ← acc;
           c ← TreeGenomeCompiler_print (S (length (nodes t))) defs delegate t node;
           mret (text +:+ c))
        (Ok "") roots.

(** The program text of a tree that fits the grammar, as a function call:
    the name, and for a function the texts of the arguments between
    parentheses, separated by a comma and a space. *)
Fixpoint renderCall (g : Grammar) (r : rose Z) : string :=
  match r with
  | Rose v kids =>
      if isTerminal (definitionFor g v) then getName (definitionFor g v)
      else getName (definitionFor g v)
             +:+ "(" +:+ String.concat ", " (map (renderCall g) kids) +:+ ")"
  end.

(** A delegate that prints nothing itself and has every function printed as
    an operator, and the text that the compiler then writes for a tree: a
    prefix operator over one argument, an infix operator between two; any
    other number of arguments is no operator. *)
Definition operatorDelegate : TreeGenomeCompilerDelegate :=
  mkCompilerDelegate (fun _ _ _ => ("", false)) (fun _ _ _ => ("", false))
                     (fun _ => true).

Fixpoint renderOperators (g : Grammar) (r : rose Z) : result string :=
  match r with
  | Rose v kids =>
      let d := definitionFor g v in
      if isTerminal d then
        match kids with
        | [] => Ok (getName d)
        | _ => Fail AssertionFailed
        end
      else if (Z.of_nat (length kids) =? getNumArguments d)%Z then
        match kids with
        | [a] =>
            x ← renderOperators g a;
            mret ("(" +:+ getName d +:+ " " +:+ x +:+ ")")
        | [a; b] =>
            x ← renderOperators g a;
            y ← renderOperators g b;
            mret ("(" +:+ x +:+ " " +:+ getName d +:+ " " +:+ y +:+ ")")
        | _ => Fail AssertionFailed
        end
      else Fail AssertionFailed
  end.

(** ** treeEvaluator.h

    The evaluator folds a tree with the methods of a subclass; a method gets
    the id of the definition and the node, and may fail an assertion of its
    own. *)

Record TreeGenomeEvaluator (A : Type) := mkEvaluator {
  evaluteTerminal : nat → Tree Z → nat → result A;
  evaluateUnaryFunction : nat → Tree Z → nat → A → result A;
  evaluateBinaryFunction : nat → Tree Z → nat → A → A → result A;
  evaluateFunction : nat → Tree Z → nat → list A → result A
}.
Arguments mkEvaluator {A}.
Arguments evaluteTerminal {A}.
Arguments evaluateUnaryFunction {A}.
Arguments evaluateBinaryFunction {A}.
Arguments evaluateFunction {A}.

(** The methods that a subclass need not override: a unary function is the
    identity, a function of more arguments gives [T()]. *)
Definition TreeGenomeEvaluator_defaults {A} (zero : A)
    (evaluteTerminal : nat → Tree Z → nat → result A) : TreeGenomeEvaluator A :=
  mkEvaluator evaluteTerminal
    (fun _ _ _ x => Ok x) (fun _ _ _ _ _ => Ok zero) (fun _ _ _ _ => Ok zero).

Fixpoint evaluate {A} (fuel : nat) (defs : Grammar) (ev : TreeGenomeEvaluator A)
    (t : Tree Z) (nodeId : nat) : result A :=
  match fuel with
  | O => Fail OutOfFuel
  | S fuel' =>
      node ← nodeAt t nodeId;
      let definition := definitionFor defs (value node) in
      let dID := getDefinitionId definition in
      if isTerminal definition then
        _ ← assert (childCount node =? 0)%Z;
        evaluteTerminal ev dID t nodeId
      else
        _ ← assert (childCount node =? getNumArguments definition)%Z;
        kids ← Node_children t nodeId;
        arguments ← foldl (fun acc child =>
                             arguments ← acc;
                             a ← evaluate fuel' defs ev t child;
                             mret (arguments ++ [a]))
                          (Ok []) kids;
        match arguments with
        | [x] => evaluateUnaryFunction ev dID t nodeId x
        | [x; y] => evaluateBinaryFunction ev dID t nodeId x y
        | _ => evaluateFunction ev dID t nodeId arguments
        end
  end.

(** [evaluator(tree)]: the evaluation of [tree.first()]. *)
Definition evaluateTree {A} (defs : Grammar) (ev : TreeGenomeEvaluator A)
    (t : Tree Z) : result A :=
  root ← Tree_first t;
  evaluate (S (length (nodes t))) defs ev t root.

(** An evaluator whose methods read no more of a node than its value, and
    the fold of a tree with it. *)
Record ValueEvaluator (A : Type) := mkValueEvaluator {
  onTerminal : nat → Z → result A;
  onUnary : nat → Z → A → result A;
  onBinary : nat → Z → A → A → result A;
  onFunction : nat → Z → list A → result A
}.
Arguments mkValueEvaluator {A}.
Arguments onTerminal {A}.
Arguments onUnary {A}.
Arguments onBinary {A}.
Arguments onFunction {A}.

Definition evaluatorOf {A} (view : ValueEvaluator A) : TreeGenomeEvaluator A :=
  mkEvaluator
    (fun dID t nodeId => node ← nodeAt t nodeId; onTerminal view dID (value node))
    (fun dID t nodeId x => node ← nodeAt t nodeId; onUnary view dID (value node) x)
    (fun dID t nodeId x y =>
       node ← nodeAt t nodeId; onBinary view dID (value node) x y)
    (fun dID t nodeId arguments =>
       node ← nodeAt t nodeId; onFunction view dID (value node) arguments).

Fixpoint evaluated {A} (g : Grammar) (view : ValueEvaluator A) (r : rose Z)
  : result A :=
  match r with
  | Rose v kids =>
      let d := definitionFor g v in
      if isTerminal d then
        match kids with
        | [] => onTerminal view (getDefinitionId d) v
        | _ => Fail AssertionFailed
        end
      else if (Z.of_nat (length kids) =? getNumArguments d)%Z then
        arguments ← foldl (fun acc kid =>
                             arguments ← acc;
                             a ← evaluated g view kid;
                             mret (arguments ++ [a]))
                          (Ok []) kids;
        match arguments with
        | [x] => onUnary view (getDefinitionId d) v x
        | [x; y] => onBinary view (getDefinitionId d) v x y
        | _ => onFunction view (getDefinitionId d) v arguments
        end
      else Fail AssertionFailed
  end.

(** ** Counting along the size walk

    The child counts of a node array, as the numbers of children that the
    walk of [recomputeSubTreeSizes] descends into, and their sum over the
    positions from [a] up to [b]. *)
Definition childCounts {T} (ns : list (NodeStorage T)) : list nat :=
  (fun n => Z.to_nat (childCount n)) <$> ns.

Definition between (l : list nat) (a b : nat) : nat :=
  sum_list (take (b - a) (drop a l)).

(** What a walk that starts at the cursor [e] and asks for [count] sub-trees
    comes to: it fails by reading out of range or for lack of fuel, or it
    keeps the child counts and stops at a cursor [e'] that is as far from [e]
    as the sub-trees asked for, with those that the nodes walked ask for. *)
Definition walked {T} (count : nat) (t : Tree T) (e : nat)
    (r : result (Tree T * nat * Z)) : Prop :=
  match r with
  | Ok (t', e', _) =>
      childCounts (nodes t') = childCounts (nodes t)
      ∧ e ≤ e' ≤ length (nodes t)
      ∧ e' - e = count + between (childCounts (nodes t)) e e'
  | Fail f => f = OutOfRange ∨ f = OutOfFuel
  end.

(** A printer delegate that reads no more of a terminal node than its
    value: [view] gives what it writes and whether it takes the terminal
    over.  The text of a tree printed with it: for a terminal, what the
    delegate wrote, followed by the name unless the delegate took the
    terminal over; for a function, its name and its arguments. *)
Definition delegateOfView (view : GrammarDefinition → Z → string * bool)
  : TreeGenomePrinterDelegate :=
  fun definition t nodeId =>
    match nodes t !! nodeId with
    | Some node => view definition (value node)
    | None => ("", false)
    end.

Fixpoint renderWith (g : Grammar) (view : GrammarDefinition → Z → string * bool)
    (r : rose Z) : string :=
  match r with
  | Rose v kids =>
      if isTerminal (definitionFor g v)
      then
        let written := view (definitionFor g v) v in
        if written.2 then written.1
        else written.1 +:+ getName (definitionFor g v)
      else "(" +:+ getName (definitionFor g v)
               +:+ foldr (fun kid rest => " " +:+ renderWith g view kid +:+ rest)
                         ")" kids
  end.

(** ** The calling protocol of the builder

    The tests and [generate] lay a tree out with one [add] per node without
    children and, for every other node, [push], the calls for the children
    from left to right, and [pop]. *)
Fixpoint emitRose {T} (r : rose T) (b : Builder T) : result (Builder T) :=
  match r with
  | Rose v [] => add v b
  | Rose v kids =>
      b ← push v b;
      b ← foldl (fun acc kid => b ← acc; emitRose kid b) (Ok b) kids;
      pop b
  end.

(** * Theorems *)

(** Linear arithmetic with the bounds of the machine integers spelled out. *)
Ltac zlia :=
  change (2 ^ 32)%Z with 4294967296%Z in *;
  change (2 ^ 64)%Z with 18446744073709551616%Z in *;
  change (2 ^ 31)%Z with 2147483648%Z in *;
  lia.

(** ** Roses, contexts and their layout *)

Section RoseFacts.
Context {T : Type}.
Implicit Types (r s : rose T) (c : ctx T) (kids : list (rose T)).

(** Induction over a rose with the hypothesis for every child. *)
Lemma rose_forall_ind (P : rose T → Prop) :
  (∀ v kids, Forall P kids → P (Rose v kids)) → ∀ r, P r.
Proof.
  intros step. fix IH 1. intros [v kids]. apply step.
  induction kids as [|k kids IHkids]; constructor; [apply IH | exact IHkids].
Qed.

Lemma rsize_pos r : 0 < rsize r.
Proof. destruct r; simpl; lia. Qed.

Lemma fsize_cons r kids : fsize (r :: kids) = rsize r + fsize kids.
Proof. reflexivity. Qed.

Lemma fsize_app kids kids' : fsize (kids ++ kids') = fsize kids + fsize kids'.
Proof.
  induction kids as [|k kids IH]; [reflexivity|].
  simpl. rewrite !fsize_cons, IH. lia.
Qed.

Lemma rsize_Rose v kids : rsize (Rose v kids) = S (fsize kids).
Proof. reflexivity. Qed.

Lemma flatten_Rose v kids :
  flatten (Rose v kids) =
  mkNodeStorage v (Z.of_nat (length kids)) (Z.of_nat (S (fsize kids)))
    :: flattenForest kids.
Proof. reflexivity. Qed.

Lemma flattenForest_cons r kids :
  flattenForest (r :: kids) = flatten r ++ flattenForest kids.
Proof. reflexivity. Qed.

Lemma flattenForest_app kids kids' :
  flattenForest (kids ++ kids') = flattenForest kids ++ flattenForest kids'.
Proof.
  induction kids as [|k kids IH]; [reflexivity|].
  simpl. rewrite !flattenForest_cons, IH. by rewrite (assoc_L (++)).
Qed.

Lemma length_flatten r : length (flatten r) = rsize r.
Proof.
  induction r as [v kids IH] using rose_forall_ind.
  rewrite flatten_Rose, rsize_Rose. simpl. f_equal.
  induction IH as [|k kids Hk _ IHkids]; [reflexivity|].
  rewrite flattenForest_cons, length_app, fsize_cons. lia.
Qed.

Lemma length_flattenForest kids : length (flattenForest kids) = fsize kids.
Proof.
  induction kids as [|k kids IH]; [reflexivity|].
  rewrite flattenForest_cons, length_app, fsize_cons, length_flatten. lia.
Qed.

Lemma rsize_plug c s : rsize (plug c s) = csize c + rsize s.
Proof.
  induction c as [|v before c IH after]; [reflexivity|].
  simpl plug. rewrite rsize_Rose, fsize_app, fsize_cons, IH. simpl. lia.
Qed.

Lemma length_cprefix c n : length (cprefix c n) = cpos c.
Proof.
  induction c as [|v before c IH after]; [reflexivity|].
  simpl. rewrite length_app, length_flattenForest, IH. reflexivity.
Qed.

Lemma length_csuffix c : length (csuffix c) = csize c - cpos c.
Proof.
  induction c as [|v before c IH after]; [reflexivity|].
  simpl. rewrite length_app, length_flattenForest, IH.
  assert (cpos c ≤ csize c); [|lia].
  clear. induction c; simpl; lia.
Qed.

Lemma cpos_le_csize c : cpos c ≤ csize c.
Proof. induction c; simpl; lia. Qed.

Lemma flatten_plug c s :
  flatten (plug c s) = cprefix c (rsize s) ++ flatten s ++ csuffix c.
Proof.
  induction c as [|v before c IH after].
  - simpl. by rewrite (right_id_L [] (++)).
  - simpl plug. rewrite flatten_Rose. simpl cprefix. simpl csuffix.
    rewrite flattenForest_app, flattenForest_cons, IH.
    rewrite length_app. simpl length.
    rewrite fsize_app, fsize_cons, rsize_plug.
    rewrite <- !(assoc_L (++)). simpl.
    f_equal; [f_equal; lia|]. by rewrite <- !(assoc_L (++)).
Qed.

(** Every preorder index of a rose is the hole of one context. *)
Lemma decompose r : ∀ i, i < rsize r → ∃ c s, r = plug c s ∧ cpos c = i.
Proof.
  induction r as [v kids IH] using rose_forall_ind. intros [|i] Hi.
  { by exists Hole, (Rose v kids). }
  rewrite rsize_Rose in Hi. apply Nat.succ_lt_mono in Hi.
  cut (∃ before k after c s, kids = before ++ k :: after
         ∧ k = plug c s ∧ fsize before + cpos c = i).
  { intros (before & k & after & c & s & -> & -> & <-).
    by exists (Below v before c after), s. }
  clear v. revert i Hi.
  induction IH as [|k kids Hk _ IHkids]; intros i Hi;
    [exfalso; exact (Nat.nlt_0_r _ Hi)|].
  rewrite fsize_cons in Hi. destruct (decide (i < rsize k)) as [Hlt|Hge].
  - destruct (Hk i Hlt) as (c & s & -> & <-).
    by exists [], (plug c s), kids, c, s.
  - destruct (IHkids (i - rsize k)) as (before & k' & after & c & s & -> & -> & Hp);
      [lia|].
    exists (k :: before), (plug c s), after, c, s.
    split_and!; [done..|]. rewrite fsize_cons. lia.
Qed.

End RoseFacts.

(** ** The size recomputation on a layout with stale sizes *)

Lemma recomputeSubTreeSizes_S {T} fuel (t : Tree T) e nodeId newSize :
  recomputeSubTreeSizes (S fuel) t e nodeId newSize =
  '(_, nodeChildCount, e1) ← advance t e;
  if (nodeChildCount =? 0)%Z then Ok (t, e1, 1%Z)
  else
    '(t2, e2, size) ←
      sumChildSizes
        (fun t' e' => recomputeSubTreeSizes fuel t' e' nodeId newSize)
        (Z.to_nat nodeChildCount) t e1 1%Z;
    t3 ← modifyNode e (setSubTreeSize size) t2;
    mret (t3, e2, size).
Proof. reflexivity. Qed.

#[local] Arguments recomputeSubTreeSizes : simpl never.

Section Recompute.
Context {T : Type}.
Implicit Types (r s : rose T) (c : ctx T) (kids : list (rose T)).
Implicit Types (t : Tree T) (n : NodeStorage T) (L : list (NodeStorage T)).

Lemma stale_refl n : stale n n.
Proof. by repeat split. Qed.

Lemma Forall2_stale_refl L : Forall2 stale L L.
Proof. induction L; constructor; auto using stale_refl. Qed.

Lemma wrap32_small z : (0 ≤ z < 2 ^ 32)%Z → wrap32 z = z.
Proof. intros. unfold wrap32. by apply Z.mod_small. Qed.

(** What the recomputation does on the layout of [r], placed after [pre]. *)
Definition recomputes (fuel : nat) r : Prop :=
  ∀ pre L post nodeId newSize,
    Forall2 stale L (flatten r) →
    rsize r ≤ fuel →
    (Z.of_nat (rsize r) < 2 ^ 32)%Z →
    recomputeSubTreeSizes fuel (mkTree (pre ++ L ++ post)) (length pre)
      nodeId newSize
    = Ok (mkTree (pre ++ flatten r ++ post), length pre + rsize r,
          Z.of_nat (rsize r)).

Lemma sumChildSizes_forest fuel nodeId newSize kids :
  Forall (recomputes fuel) kids →
  ∀ pre L post acc,
    Forall2 stale L (flattenForest kids) →
    fsize kids ≤ fuel →
    (0 ≤ acc)%Z → (acc + Z.of_nat (fsize kids) < 2 ^ 32)%Z →
    sumChildSizes
      (fun t' e' => recomputeSubTreeSizes fuel t' e' nodeId newSize)
      (length kids) (mkTree (pre ++ L ++ post)) (length pre) acc
    = Ok (mkTree (pre ++ flattenForest kids ++ post),
          length pre + fsize kids, (acc + Z.of_nat (fsize kids))%Z).
Proof.
  induction 1 as [|k kids Hk _ IH]; intros pre L post acc HL Hfuel Hacc Hbound.
  - apply Forall2_nil_inv_r in HL as ->. simpl.
    rewrite Nat.add_0_r, Z.add_0_r. reflexivity.
  - rewrite flattenForest_cons in HL.
    apply Forall2_app_inv_r in HL as (L1 & L2 & HL1 & HL2 & ->).
    rewrite fsize_cons in Hfuel, Hbound.
    pose proof (rsize_pos k).
    simpl sumChildSizes. rewrite <- (assoc_L (++)).
    rewrite (Hk pre L1 (L2 ++ post)); [|done|lia|]. 2:{ zlia. } simpl.
    rewrite wrap32_small by zlia.
    rewrite (assoc_L (++) pre), <- (length_flatten k), <- length_app.
    rewrite (IH (pre ++ flatten k) L2 post); [|done|zlia|zlia|rewrite ?length_flatten; zlia].
    rewrite length_app, !length_flatten, flattenForest_cons, fsize_cons.
    rewrite <- !(assoc_L (++)).
    by rewrite Nat.add_assoc, Nat2Z.inj_add, Z.add_assoc.
Qed.

Lemma recompute_rose r : ∀ fuel, recomputes fuel r.
Proof.
  induction r as [v kids IH] using rose_forall_ind.
  intros fuel pre L post nodeId newSize HL Hfuel Hbound.
  rewrite flatten_Rose in HL. rewrite flatten_Rose.
  apply Forall2_cons_inv_r in HL as ([av ac asz] & Lk & Ha & HLk & ->).
  destruct Ha as (Hv & Hc & Hleaf). simpl in Hv, Hc, Hleaf. subst av ac.
  rewrite rsize_Rose in *.
  destruct fuel as [|fuel]; [lia|].
  rewrite recomputeSubTreeSizes_S. unfold advance, nodeAt. simpl nodes.
  rewrite list_lookup_middle by done. simpl.
  destruct kids as [|k kids].
  - apply Forall2_nil_inv_r in HLk as ->. simpl.
    rewrite Hleaf by done. change (fsize []) with 0.
    by rewrite Nat.add_1_r.
  - replace ((Z.of_nat (length (k :: kids)) =? 0)%Z) with false
      by (symmetry; apply Z.eqb_neq; simpl; lia).
    rewrite Nat2Z.id.
    set (a := mkNodeStorage v _ asz).
    replace (pre ++ a :: Lk ++ post) with ((pre ++ [a]) ++ Lk ++ post)
      by (by rewrite <- (assoc_L (++))).
    replace (S (length pre)) with (length (pre ++ [a]))
      by (rewrite length_app; simpl; lia).
    rewrite (sumChildSizes_forest fuel nodeId newSize (k :: kids));
      [|by apply Forall_forall; intros r Hr;
           eapply Forall_forall in IH; [apply IH|]
       |done|lia|lia|zlia].
    unfold mbind, result_bind, modifyNode. simpl nodes.
    rewrite <- (assoc_L (++)). simpl app.
    rewrite list_lookup_middle by done.
    rewrite insert_app_r_alt by done. rewrite Nat.sub_diag.
    rewrite length_app. simpl length. unfold mret, result_ret.
    unfold setSubTreeSize, a. simpl.
    replace (1 + Z.of_nat (fsize (k :: kids)))%Z
      with (Z.of_nat (S (fsize (k :: kids)))) by lia.
    replace (length pre + 1 + fsize (k :: kids))
      with (length pre + S (fsize (k :: kids))) by lia.
    reflexivity.
Qed.

(** The recomputation from the root of a whole layout. *)
Lemma recompute_whole r L fuel nodeId newSize :
  Forall2 stale L (flatten r) →
  rsize r ≤ fuel → (Z.of_nat (rsize r) < 2 ^ 32)%Z →
  recomputeSubTreeSizes fuel (mkTree L) 0 nodeId newSize
  = Ok (mkTree (flatten r), rsize r, Z.of_nat (rsize r)).
Proof.
  intros HL Hfuel Hbound.
  pose proof (recompute_rose r fuel [] L [] nodeId newSize HL Hfuel Hbound)
    as H.
  rewrite !(right_id_L [] (++)) in H. exact H.
Qed.

End Recompute.

(** ** Extraction and replacement of a sub-tree, on the rose *)

Section SubTrees.
Context {T : Type}.
Implicit Types (r s : rose T) (c : ctx T) (kids : list (rose T)).
Implicit Types (t sub : Tree T) (n : NodeStorage T).

Lemma flatten_head s : ∃ n rest,
  flatten s = n :: rest ∧ subTreeSize n = Z.of_nat (rsize s)
  ∧ childCount n = Z.of_nat (match s with Rose _ kids => length kids end).
Proof. destruct s as [v kids]. by eexists _, _. Qed.

Lemma lookup_plug c s : ∃ n,
  flatten (plug c s) !! cpos c = Some n
  ∧ subTreeSize n = Z.of_nat (rsize s).
Proof.
  destruct (flatten_head s) as (n & rest & Hs & Hn & _). exists n.
  split; [|done].
  rewrite flatten_plug, Hs, <- (length_cprefix c (rsize s)). simpl.
  by rewrite list_lookup_middle.
Qed.

Lemma take_cprefix_app c k (L : list (NodeStorage T)) :
  take (cpos c) (cprefix c k ++ L) = cprefix c k.
Proof. rewrite <- (length_cprefix c k). by rewrite take_app_length. Qed.

Lemma drop_cprefix_app c k (L : list (NodeStorage T)) :
  drop (cpos c) (cprefix c k ++ L) = L.
Proof. rewrite <- (length_cprefix c k). by rewrite drop_app_length. Qed.

Lemma take_plug c s : take (cpos c) (flatten (plug c s)) = cprefix c (rsize s).
Proof.
  rewrite flatten_plug, <- (length_cprefix c (rsize s)).
  by rewrite take_app_length.
Qed.

Lemma drop_plug c s : drop (cpos c) (flatten (plug c s)) = flatten s ++ csuffix c.
Proof.
  rewrite flatten_plug, <- (length_cprefix c (rsize s)).
  by rewrite drop_app_length.
Qed.

Lemma drop_plug_after c s :
  drop (cpos c + rsize s) (flatten (plug c s)) = csuffix c.
Proof.
  rewrite <- drop_drop, drop_plug, <- (length_flatten s).
  by rewrite drop_app_length.
Qed.

Lemma stale_cprefix c (k m : nat) : Forall2 stale (cprefix c k) (cprefix c m).
Proof.
  induction c as [|v before c IH after]; [constructor|].
  simpl. constructor.
  - split_and!; [done..|]. simpl. lia.
  - apply Forall2_app; [apply Forall2_stale_refl | apply IH].
Qed.

Lemma sizeAt_plug c s t :
  nodes t = flatten (plug c s) → sizeAt t (cpos c) = rsize s.
Proof.
  intros Ht. unfold sizeAt. rewrite Ht.
  destruct (lookup_plug c s) as (n & -> & Hn). simpl. rewrite Hn. lia.
Qed.

Lemma getSubTree_plug c s t :
  nodes t = flatten (plug c s) →
  getSubTree (cpos c) t = Ok (mkTree (flatten s)).
Proof.
  intros Ht. unfold getSubTree, nodeAt. rewrite Ht.
  pose proof (cpos_le_csize c). pose proof (rsize_pos s).
  rewrite length_flatten, rsize_plug.
  rewrite bool_decide_eq_true_2 by lia. simpl.
  destruct (lookup_plug c s) as (n & -> & Hn). simpl.
  rewrite Hn, Nat2Z.id.
  rewrite bool_decide_eq_true_2 by lia.
  rewrite drop_plug, <- (length_flatten s), take_app_length. reflexivity.
Qed.

Lemma replace_plug c s s' t sub :
  nodes t = flatten (plug c s) →
  nodes sub = flatten s' →
  (Z.of_nat (rsize (plug c s')) < 2 ^ 32)%Z →
  replace (cpos c) sub t = Ok (mkTree (flatten (plug c s'))).
Proof.
  intros Ht Hsub Hbound. unfold replace, nodeAt. rewrite Ht, Hsub.
  pose proof (cpos_le_csize c). pose proof (rsize_pos s).
  rewrite length_flatten, rsize_plug.
  rewrite bool_decide_eq_true_2 by lia. simpl.
  destruct (lookup_plug c s) as (n & -> & Hn). simpl.
  rewrite Hn, Nat2Z.id.
  rewrite bool_decide_eq_true_2 by lia.
  rewrite take_plug, drop_plug_after.
  rewrite !take_cprefix_app, !drop_cprefix_app.
  set (inserted := cprefix c (rsize s) ++ flatten s' ++ csuffix c).
  assert (length inserted = rsize (plug c s')) as Hlen.
  { unfold inserted. rewrite <- (length_flatten (plug c s')), flatten_plug.
    rewrite !length_app, !length_cprefix. reflexivity. }
  rewrite (recompute_whole (plug c s'));
    [|by unfold inserted; rewrite flatten_plug;
         apply Forall2_app; [apply stale_cprefix|apply Forall2_stale_refl]
     |lia|done].
  simpl.
  destruct (flatten_head (plug c s')) as (n0 & rest & Hflat & Hn0 & _).
  pose proof (length_flatten (plug c s')) as Hl.
  rewrite Hflat in Hl |- *. simpl in Hl |- *.
  by rewrite bool_decide_eq_true_2 by (rewrite Hn0; lia).
Qed.

(** The call with the tree itself as the replacement: the erasure is in
    range, and the insertion is handed a range of the vector it changes. *)
Lemma replace_itself_plug c s t :
  nodes t = flatten (plug c s) →
  replace (cpos c) Itself t = Fail OverlappingRange.
Proof.
  intros Ht. unfold replace, nodeAt. rewrite Ht.
  pose proof (cpos_le_csize c). pose proof (rsize_pos s).
  rewrite length_flatten, rsize_plug.
  rewrite bool_decide_eq_true_2 by lia. simpl.
  destruct (lookup_plug c s) as (n & -> & Hn). simpl.
  rewrite Hn, Nat2Z.id.
  by rewrite bool_decide_eq_true_2 by lia.
Qed.

Lemma represents_index r t i :
  represents r t → i < length (nodes t) →
  ∃ c s, r = plug c s ∧ cpos c = i.
Proof.
  intros [Ht _] Hi. rewrite Ht, length_flatten in Hi. by apply decompose.
Qed.

End SubTrees.

(** C3.  The builder sequence of the iteration test yields eight nodes whose
    values in preorder are 2, 11, 42, 13, 0, 9, 7, 90; the root has three
    children and size 8, the node holding 42 has size 5 and the node holding
    9 has size 2; the depth-first walk returns the same value sequence. *)
Theorem builder_iteration_test :
  ∃ b, testTreeIteration_tree = Ok b
    ∧ stack b = []
    ∧ getNodeCount (tree b) = 8
    ∧ Node_size (tree b) 0 = Ok 3%Z
    ∧ value <$> nodes (tree b) = [2; 11; 42; 13; 0; 9; 7; 90]%Z
    ∧ Walker_run (tree b) = Ok [2; 11; 42; 13; 0; 9; 7; 90]%Z
    ∧ subTreeSize <$> nodes (tree b) !! 0 = Some 8%Z
    ∧ nodes (tree b) !! 2 = Some (mkNodeStorage 42%Z 3%Z 5%Z)
    ∧ nodes (tree b) !! 5 = Some (mkNodeStorage 9%Z 1%Z 2%Z).
Proof.
  eexists. split; [vm_compute; reflexivity|].
  vm_compute. repeat split; reflexivity.
Qed.

(** ** Claims about the packed tree *)

Lemma stale_fmap_value {T} (L L' : list (NodeStorage T)) :
  Forall2 stale L L' → value <$> L = value <$> L'.
Proof. induction 1 as [|a b L L' (Hv & _) _ IH]; [done|]. simpl. by f_equal. Qed.


Lemma testGenome_builder_tree :
  testGenome_builder = Ok (mkBuilder testGenome_tree []).
Proof. reflexivity. Qed.

Lemma testGenome_tree_wellFormed : wellFormed testGenome_tree.
Proof. right. exists testGenome_rose. by split. Qed.

Lemma testGenome_sub_wellFormed : wellFormed testGenome_sub.
Proof. right. eexists. by split. Qed.

(** C1.  For a well-formed tree and a valid node index, extracting the
    sub-tree at the index and replacing the sub-tree at the same index by it
    gives back the original tree: the same values, child counts and sizes. *)
Theorem getSubTree_replace_roundtrip {T} (t : Tree T) (i : nat) :
  wellFormed t → i < getNodeCount t →
  ∃ s, getSubTree i t = Ok s ∧ replace i s t = Ok t.
Proof.
  intros [Hnil|(r & Hr)] Hi; unfold getNodeCount in Hi.
  { rewrite Hnil in Hi. simpl in Hi. lia. }
  destruct (represents_index r t i Hr Hi) as (c & s & -> & <-).
  destruct Hr as [Ht Hbound].
  exists (mkTree (flatten s)). split; [by apply getSubTree_plug|].
  rewrite (replace_plug c s s) by done.
  destruct t as [ns]. simpl in Ht. by rewrite Ht.
Qed.

Lemma getSubTree_replace_roundtrip_witness :
  wellFormed testGenome_tree ∧ 1 < getNodeCount testGenome_tree
  ∧ ∃ s, getSubTree 1 testGenome_tree = Ok s
       ∧ replace 1 s testGenome_tree = Ok testGenome_tree.
Proof.
  split; [exact testGenome_tree_wellFormed|].
  split; [vm_compute; lia|].
  apply getSubTree_replace_roundtrip;
    [exact testGenome_tree_wellFormed | vm_compute; lia].
Defined.




(** ** The builder appends the layout of a rose *)

Section BuilderFacts.
Context {T : Type}.
Implicit Types (r : rose T) (kids : list (rose T)).
Implicit Types (b : Builder T) (n : NodeStorage T) (ns : list (NodeStorage T)).

Lemma wrap32_idemp z : wrap32 (wrap32 z) = wrap32 z.
Proof. unfold wrap32. by rewrite Z.mod_mod. Qed.

Lemma wrap32_add_l a z : wrap32 (wrap32 a + z) = wrap32 (a + z).
Proof. unfold wrap32. by rewrite Zplus_mod_idemp_l. Qed.

Lemma wrap32_add_r a z : wrap32 (a + wrap32 z) = wrap32 (a + z).
Proof. unfold wrap32. by rewrite Zplus_mod_idemp_r. Qed.

Lemma modifyNode_alter i f (t : Tree T) n :
  nodes t !! i = Some n →
  modifyNode i f t = Ok (mkTree (alter f i (nodes t))).
Proof.
  intros Hn. unfold modifyNode. rewrite Hn. do 2 f_equal.
  apply list_eq. intros j. destruct (decide (i = j)) as [<-|Hne].
  - rewrite list_lookup_insert_eq by (by eapply lookup_lt_Some).
    by rewrite list_lookup_alter_eq, Hn.
  - by rewrite list_lookup_insert_ne, list_lookup_alter_ne.
Qed.

Lemma alter_app_l_lookup (f : NodeStorage T → NodeStorage T) i ns ns' n :
  ns !! i = Some n → alter f i (ns ++ ns') = alter f i ns ++ ns'.
Proof. intros Hn. apply alter_app_l. by eapply lookup_lt_Some. Qed.

Lemma bumpBy_bumpBy c1 k1 c2 k2 n :
  bumpBy c2 k2 (bumpBy c1 k1 n) = bumpBy (c1 + c2) (k1 + k2) n.
Proof.
  unfold bumpBy. simpl. rewrite !wrap32_add_l, !Nat2Z.inj_add.
  by rewrite !Z.add_assoc.
Qed.

Lemma topValid_extends count size new b b' :
  topValid b → extends count size new b b' → topValid b'.
Proof.
  unfold topValid, extends. intros Hb [Hstack Hnodes]. rewrite Hstack, Hnodes.
  destruct (stack b) as [|back rest]; [done|].
  destruct Hb as (n & Hn & _).
  exists (bumpBy count size n). split.
  - rewrite lookup_app_l by (rewrite length_alter; by eapply lookup_lt_Some).
    by rewrite list_lookup_alter_eq, Hn.
  - simpl. by rewrite !wrap32_idemp.
Qed.

Lemma extends_trans c1 k1 new1 c2 k2 new2 b b1 b2 :
  topValid b →
  extends c1 k1 new1 b b1 → extends c2 k2 new2 b1 b2 →
  extends (c1 + c2) (k1 + k2) (new1 ++ new2) b b2.
Proof.
  unfold topValid, extends. intros Hb [Hs1 Hn1] [Hs2 Hn2].
  rewrite Hs1 in Hs2, Hn2. split; [done|]. rewrite Hn2, Hn1.
  destruct (stack b) as [|back rest]; [by rewrite (assoc_L (++))|].
  destruct Hb as (n & Hn & _).
  rewrite alter_app_l by (rewrite length_alter; by eapply lookup_lt_Some).
  rewrite list_alter_alter_eq, (assoc_L (++)). do 2 f_equal.
  apply list_alter_ext; [|done]. intros n' _. simpl. apply bumpBy_bumpBy.
Qed.

(** With the fields of the open parent in range, nothing appended is no
    change. *)
Lemma extends_nothing b : topValid b → extends 0 0 [] b b.
Proof.
  unfold topValid, extends. intros Hb. split; [done|].
  rewrite (right_id_L [] (++)).
  destruct (stack b) as [|back rest]; [done|].
  destruct Hb as (n & Hn & Hc & Hs).
  symmetry. apply list_eq. intros j. destruct (decide (back = j)) as [<-|Hne].
  - rewrite list_lookup_alter_eq, Hn. simpl. f_equal.
    destruct n as [v c s]. unfold bumpBy. simpl in *.
    by rewrite !Z.add_0_r, Hc, Hs.
  - by rewrite list_lookup_alter_ne.
Qed.

Lemma add_extends v b :
  topValid b →
  ∃ b', add v b = Ok b' ∧ extends 1 1 [NodeStorage_new v] b b'.
Proof.
  unfold topValid, extends, add, addNode. intros Hb.
  destruct b as [[ns] [|back rest]]; simpl in *.
  { by eexists. }
  destruct Hb as (n & Hn & _).
  erewrite modifyNode_alter by (simpl; by apply lookup_app_l_Some).
  simpl. erewrite modifyNode_alter
    by (simpl; rewrite (alter_app_l_lookup _ _ _ _ n) by done;
        apply lookup_app_l_Some; by rewrite list_lookup_alter_eq, Hn).
  simpl. eexists. split; [reflexivity|]. simpl. split; [done|].
  rewrite list_alter_alter_eq, (alter_app_l_lookup _ _ _ _ n) by done.
  done.
Qed.

Lemma bumpBy_new count size (v : T) :
  bumpBy count size (NodeStorage_new v)
  = mkNodeStorage v (wrap32 (Z.of_nat count)) (wrap32 (Z.of_nat (S size))).
Proof.
  unfold bumpBy, NodeStorage_new. simpl. f_equal. f_equal. lia.
Qed.

(** A function node: [push], the children, [pop]. *)
Lemma push_pop_extends v count size new b :
  topValid b →
  ∃ b1, push v b = Ok b1 ∧ topValid b1
    ∧ ∀ b2, extends count size new b1 b2 →
        ∃ b3, pop b2 = Ok b3
          ∧ extends 1 (S size)
              (mkNodeStorage v (wrap32 (Z.of_nat count))
                             (wrap32 (Z.of_nat (S size))) :: new) b b3.
Proof.
  unfold topValid, extends, push, pop, addNode. intros Hb.
  destruct b as [[ns] [|back rest]]; simpl in *.
  - eexists. split; [reflexivity|]. simpl.
    split.
    { exists (NodeStorage_new v). by rewrite list_lookup_middle. }
    intros [[ns2] st2] [Hst Hns]. simpl in *. subst st2 ns2.
    unfold nodeAt. simpl.
    rewrite alter_app_r_alt by done. rewrite Nat.sub_diag. simpl.
    rewrite <- (assoc_L (++)). simpl. rewrite list_lookup_middle by done.
    simpl. eexists. split; [reflexivity|]. simpl. split; [done|].
    by rewrite bumpBy_new.
  - destruct Hb as (n & Hn & _).
    erewrite modifyNode_alter by done. simpl.
    eexists. split; [reflexivity|]. simpl.
    split.
    { exists (NodeStorage_new v).
      rewrite list_lookup_middle by (by rewrite length_alter). done. }
    intros [[ns2] st2] [Hst Hns]. simpl in *. subst st2 ns2.
    unfold nodeAt. simpl.
    rewrite alter_app_r_alt by (by rewrite length_alter).
    rewrite length_alter, Nat.sub_diag. simpl.
    rewrite <- (assoc_L (++)). simpl.
    rewrite list_lookup_middle by (by rewrite length_alter). simpl.
    erewrite modifyNode_alter
      by (simpl; apply lookup_app_l_Some; by rewrite list_lookup_alter_eq, Hn).
    simpl. eexists. split; [reflexivity|]. simpl. split; [done|].
    rewrite alter_app_l by (rewrite length_alter; by eapply lookup_lt_Some).
    rewrite list_alter_alter_eq. f_equal.
    + apply list_alter_ext; [|done]. intros [nv nc nsz] _.
      unfold bumpBy, addSubTreeSize, incrChildCount. simpl.
      f_equal. rewrite wrap32_add_r. f_equal. lia.
    + by rewrite bumpBy_new.
Qed.

Lemma packed_Rose (v : T) kids :
  packed (Rose v kids) =
  mkNodeStorage v (wrap32 (Z.of_nat (length kids)))
                (wrap32 (Z.of_nat (S (fsize kids))))
    :: packedForest kids.
Proof. reflexivity. Qed.

Lemma packedForest_cons r kids :
  packedForest (r :: kids) = packed r ++ packedForest kids.
Proof. unfold packedForest, packed. by rewrite flattenForest_cons, fmap_app. Qed.

Lemma packed_leaf (v : T) : packed (Rose v []) = [NodeStorage_new v].
Proof. reflexivity. Qed.

(** Below the 32-bit bound the builder's layout is the exact one. *)
Lemma packed_flatten r :
  (Z.of_nat (rsize r) < 2 ^ 32)%Z → packed r = flatten r.
Proof.
  induction r as [v kids IH] using rose_forall_ind. intros Hbound.
  rewrite packed_Rose, flatten_Rose. rewrite rsize_Rose in Hbound.
  assert (length kids ≤ fsize kids) as Hlen.
  { clear. induction kids as [|k kids IHk]; [done|].
    rewrite fsize_cons. pose proof (rsize_pos k). simpl. lia. }
  rewrite !wrap32_small by zlia. f_equal.
  revert Hbound. clear Hlen.
  induction IH as [|k kids Hk _ IHkids]; intros Hbound; [done|].
  rewrite packedForest_cons, flattenForest_cons.
  rewrite fsize_cons in Hbound. rewrite Hk, IHkids by zlia. done.
Qed.

End BuilderFacts.

(** ** The generator *)

Lemma generate_S fuel gen builder maxDepth strategy type rng :
  generate (S fuel) gen builder maxDepth strategy type rng =
  let g := grammar gen in
  let hasType := negb (type =? invalidTypeId g)%Z in
  let hasTerminals :=
    if hasType then hasTerminals (definitionSetForType g type) else true in
  if (maxDepth <=? 1)%Z && hasTerminals then
    '(value, rng) ←
      (if hasType
       then randomTerminalValueForDefinitonSet (definitionSetForType g type) rng
       else randomTerminalValue gen rng);
    builder ← add value builder;
    mret (builder, rng)
  else
    '(value, rng) ←
      match strategy with
      | Full =>
          if hasType
          then randomFunctionValueForDefinitonSet (definitionSetForType g type) rng
          else randomFunctionValue gen rng
      | Grow =>
          if hasType
          then randomNodeValueForDefinitonSet (definitionSetForType g type) rng
          else randomNodeValue gen rng
      end;
    let def := definitionAt g (definitionIdForTreeGenomeValue g value) in
    if isTerminal def then
      builder ← add value builder;
      mret (builder, rng)
    else
      _ ← assert (isFunction def && (0 <? getNumArguments def)%Z);
      builder ← push value builder;
      '(builder, rng) ←
        generateArguments
          (fun builder type rng =>
             depth ← int_sub maxDepth 1;
             generate fuel gen builder depth strategy type rng)
          (argumentTypes def) builder rng;
      builder ← pop builder;
      mret (builder, rng).
Proof. reflexivity. Qed.

#[local] Arguments generate : simpl never.
#[local] Arguments generateArguments : simpl never.

Lemma uniform_int_distribution_range a b rng :
  (a ≤ b)%Z →
  ∃ v rng', (a ≤ v ≤ b)%Z
    ∧ uniform_int_distribution a b rng = Ok (v, rng').
Proof.
  intros Hab. unfold uniform_int_distribution.
  rewrite (proj2 (Z.leb_le a b)) by done. simpl.
  eexists _, _. split; [|reflexivity].
  pose proof (Z.mod_pos_bound (words rng (cursor rng)) (b - a + 1)). lia.
Qed.

Lemma generateArguments_cons rec type types (b : Builder Z) rng :
  generateArguments rec (type :: types) b rng =
  '(b, rng) ← rec b type rng; generateArguments rec types b rng.
Proof. reflexivity. Qed.

Lemma int_sub_ok a b :
  (INT_MIN ≤ a - b ≤ INT_MAX)%Z → int_sub a b = Ok (a - b)%Z.
Proof. intros. unfold int_sub. by rewrite bool_decide_eq_true_2. Qed.

Section GeneratorFacts.
Context (g : Grammar) (gen : TreeGenerator).
Hypothesis Hg : GrammarOk g.
Hypothesis Hgen : TreeGenerator_new g = Ok gen.

Lemma TreeGenerator_new_fields :
  grammar gen = g ∧ terminalLimit gen = getTerminalLimit g
  ∧ nodeLimit gen = getNodeLimit g ∧ getTerminalLimit g ≠ 0%Z.
Proof using Hgen.
  revert Hgen. unfold TreeGenerator_new.
  destruct (getNodeLimit g =? _)%Z; [|done]. simpl.
  destruct (getTerminalLimit g =? 0)%Z eqn:Hz; [done|]. simpl.
  intros [= <-]. simpl. by apply Z.eqb_neq in Hz.
Qed.

#[local] Abbreviation tl type := (typeConstrainedTerminalLimit (setOf g type)).
#[local] Abbreviation fl type := (typeConstrainedFunctionLimit (setOf g type)).
#[local] Abbreviation nodeValueOf type v :=
  (nodeValueForTypeConstrainedNodeValue (setOf g type) v).

(** The terminals that the code sees are the terminals of [setOf]. *)
Lemma hasTerminals_setOf type :
  hasTerminals (setOf g type) = true →
  (if negb (type =? invalidTypeId g)%Z
   then hasTerminals (definitionSetForType g type) else true) = true.
Proof. unfold setOf. by destruct (type =? invalidTypeId g)%Z. Qed.

Lemma draw_terminal type rng :
  hasTerminals (setOf g type) = true →
  ∃ v rng', (0 ≤ v < tl type)%Z ∧
    (if negb (type =? invalidTypeId g)%Z
     then randomTerminalValueForDefinitonSet (definitionSetForType g type) rng
     else randomTerminalValue gen rng)
    = Ok (nodeValueOf type v, rng').
Proof using Hg Hgen.
  intros Hhas. apply Z.ltb_lt in Hhas.
  destruct (limits_ordered g Hg type) as [Hord Hmax].
  destruct TreeGenerator_new_fields as (_ & Htl & _ & _).
  destruct (uniform_int_distribution_range 0 (tl type - 1) rng) as (v & rng' & Hv & Hdraw);
    [lia|].
  exists v, rng'. split; [lia|]. revert Hdraw Hv Hord Hmax Hhas. unfold setOf.
  destruct (type =? invalidTypeId g)%Z; simpl; intros Hdraw Hv Hord Hmax Hhas.
  - unfold randomTerminalValue, random. rewrite Htl, wrap32_small by zlia.
    exact Hdraw.
  - unfold randomTerminalValueForDefinitonSet, random.
    rewrite wrap32_small by zlia. by rewrite Hdraw.
Qed.

Lemma draw_function type rng :
  hasFunctions (setOf g type) = true →
  ∃ v rng', (tl type ≤ v < fl type)%Z ∧
    (if negb (type =? invalidTypeId g)%Z
     then randomFunctionValueForDefinitonSet (definitionSetForType g type) rng
     else randomFunctionValue gen rng)
    = Ok (nodeValueOf type v, rng').
Proof using Hg Hgen.
  intros Hhas. apply Z.ltb_lt in Hhas.
  destruct (limits_ordered g Hg type) as [Hord Hmax].
  destruct TreeGenerator_new_fields as (_ & Htl & Hnl & _).
  destruct (uniform_int_distribution_range (tl type) (fl type - 1) rng)
    as (v & rng' & Hv & Hdraw); [lia|].
  exists v, rng'. split; [lia|]. revert Hdraw Hv Hord Hmax Hhas. unfold setOf.
  destruct (type =? invalidTypeId g)%Z; simpl; intros Hdraw Hv Hord Hmax Hhas.
  - unfold randomFunctionValue, random. rewrite Htl, Hnl, wrap32_small by zlia.
    exact Hdraw.
  - unfold randomFunctionValueForDefinitonSet, random.
    rewrite wrap32_small by zlia. by rewrite Hdraw.
Qed.

Lemma draw_node type rng :
  hasTerminals (setOf g type) = true →
  ∃ v rng', (0 ≤ v < fl type)%Z ∧
    (if negb (type =? invalidTypeId g)%Z
     then randomNodeValueForDefinitonSet (definitionSetForType g type) rng
     else randomNodeValue gen rng)
    = Ok (nodeValueOf type v, rng').
Proof using Hg Hgen.
  intros Hhas. apply Z.ltb_lt in Hhas.
  destruct (limits_ordered g Hg type) as [Hord Hmax].
  destruct TreeGenerator_new_fields as (_ & Htl & Hnl & _).
  destruct (uniform_int_distribution_range 0 (fl type - 1) rng)
    as (v & rng' & Hv & Hdraw); [lia|].
  exists v, rng'. split; [lia|]. revert Hdraw Hv Hord Hmax Hhas. unfold setOf.
  destruct (type =? invalidTypeId g)%Z; simpl; intros Hdraw Hv Hord Hmax Hhas.
  - unfold randomNodeValue, random. rewrite Hnl, wrap32_small by zlia.
    exact Hdraw.
  - unfold randomNodeValueForDefinitonSet, random.
    rewrite wrap32_small by zlia. by rewrite Hdraw.
Qed.

(** What the strategy needs of a type: terminals in every definition set
    that a sub-tree can ask for, and functions too under [Full]. *)
Definition typeOk (strategy : Strategy) (type : Z) : Prop :=
  ∀ type', reachable g type type' →
    hasTerminals (setOf g type') = true
    ∧ (strategy = Full → hasFunctions (setOf g type') = true).

Lemma typeOk_argument strategy type v arg :
  typeOk strategy type →
  (tl type ≤ v < fl type)%Z →
  arg ∈ argumentTypes (definitionFor g (nodeValueOf type v)) →
  typeOk strategy arg.
Proof.
  intros Hok Hv Harg type' Hreach. apply Hok.
  by eapply reachable_step.
Qed.

(** One generated sub-tree: the builder is extended by the layout of a rose
    of the right shape. *)
Definition generates (strategy : Strategy) (fuel : nat) (d : Z) : Prop :=
  ∀ (b : Builder Z) type rng,
    topValid b → typeOk strategy type →
    ∃ r b' rng',
      generate fuel gen b d strategy type rng = Ok (b', rng')
      ∧ extends 1 (rsize r) (packed r) b b'
      ∧ Generated g strategy d r.

Lemma generateArguments_ok strategy fuel maxDepth :
  (INT_MIN ≤ maxDepth - 1 ≤ INT_MAX)%Z →
  generates strategy fuel (maxDepth - 1) →
  ∀ types (b : Builder Z) rng,
    topValid b → Forall (typeOk strategy) types →
    ∃ kids b' rng',
      generateArguments
        (fun builder type rng =>
           depth ← int_sub maxDepth 1;
           generate fuel gen builder depth strategy type rng)
        types b rng = Ok (b', rng')
      ∧ extends (length kids) (fsize kids) (packedForest kids) b b'
      ∧ length kids = length types
      ∧ Forall (Generated g strategy (maxDepth - 1)) kids.
Proof.
  intros Hrange IH types. induction types as [|type types IHtypes];
    intros b rng Hb Htypes.
  - exists [], b, rng. split; [done|]. split; [by apply extends_nothing|].
    by split.
  - apply Forall_cons in Htypes as [Htype Htypes].
    destruct (IH b type rng Hb Htype) as (r & b1 & rng1 & Hgen1 & Hext1 & Hr).
    destruct (IHtypes b1 rng1) as (kids & b2 & rng2 & Hgen2 & Hext2 & Hlen & Hkids);
      [by eapply topValid_extends|done|].
    exists (r :: kids), b2, rng2. rewrite generateArguments_cons.
    rewrite int_sub_ok in Hgen2 |- * by done.
    simpl in Hgen2 |- *. rewrite Hgen1. simpl. split; [exact Hgen2|].
    split.
    { rewrite packedForest_cons, fsize_cons.
      by apply (extends_trans 1 _ _ _ _ _ b b1 b2). }
    split; [simpl; by rewrite Hlen|]. by constructor.
Qed.

Lemma generate_ok strategy fuel : ∀ d,
  (d ≤ INT_MAX)%Z → 1 ≤ fuel → (d ≤ Z.of_nat fuel)%Z →
  generates strategy fuel d.
Proof using Hg Hgen.
  destruct TreeGenerator_new_fields as (Hgrammar & _).
  induction fuel as [|fuel IH]; intros d Hmax Hfuel Hd b type rng Hb Hok; [lia|].
  rewrite generate_S, Hgrammar. cbv zeta.
  destruct (Hok type (reachable_refl g type)) as [Hterm Hfun].
  rewrite (hasTerminals_setOf type Hterm), andb_true_r.
  destruct (d <=? 1)%Z eqn:Hbottom.
  - (* the last layer: a terminal *)
    apply Z.leb_le in Hbottom.
    destruct (draw_terminal type rng Hterm) as (v & rng' & Hv & ->). simpl.
    destruct (add_extends (nodeValueOf type v) b Hb) as (b' & -> & Hext).
    simpl. exists (Rose (nodeValueOf type v) []), b', rng'.
    split; [done|]. split; [done|].
    apply Generated_bottom; [done|]. by apply (terminals_resolve g Hg).
  - apply Z.leb_gt in Hbottom.
    assert (∃ v rng', (0 ≤ v < fl type)%Z
              ∧ (strategy = Full → (tl type ≤ v)%Z)
              ∧ match strategy with
                | Full =>
                    if negb (type =? invalidTypeId g)%Z
                    then randomFunctionValueForDefinitonSet
                           (definitionSetForType g type) rng
                    else randomFunctionValue gen rng
                | Grow =>
                    if negb (type =? invalidTypeId g)%Z
                    then randomNodeValueForDefinitonSet
                           (definitionSetForType g type) rng
                    else randomNodeValue gen rng
                end = Ok (nodeValueOf type v, rng'))
      as (v & rng' & Hv & Hfull & ->).
    { destruct strategy.
      - destruct (draw_function type rng (Hfun eq_refl))
          as (v & rng' & Hv & Hdraw).
        destruct (limits_ordered g Hg type) as [Hord _].
        exists v, rng'. split; [lia|]. split; [lia|done].
      - destruct (draw_node type rng Hterm) as (v & rng' & Hv & Hdraw).
        exists v, rng'. split; [done|]. split; [done|done]. }
    simpl. fold (definitionFor g (nodeValueOf type v)).
    destruct (decide (v < tl type)%Z) as [Hlt|Hge].
    + (* [Grow] has drawn a terminal *)
      rewrite (terminals_resolve g Hg type v) by lia.
      destruct (add_extends (nodeValueOf type v) b Hb) as (b' & -> & Hext).
      simpl. exists (Rose (nodeValueOf type v) []), b', rng'.
      split; [done|]. split; [done|].
      apply Generated_early; [done| |by apply (terminals_resolve g Hg); lia].
      destruct strategy; [|done]. specialize (Hfull eq_refl). lia.
    + (* a function: one sub-tree per argument *)
      destruct (functions_resolve g Hg type v) as [Hnot Hargs]; [lia|].
      rewrite Hnot.
      assert (isFunction (definitionFor g (nodeValueOf type v))
              && (0 <? getNumArguments (definitionFor g (nodeValueOf type v)))%Z
              = true) as ->.
      { unfold isFunction, getNumArguments. rewrite Hnot. simpl.
        apply Z.ltb_lt.
        destruct (argumentTypes (definitionFor g (nodeValueOf type v)));
          [done|simpl; lia]. }
      simpl.
      destruct (push_pop_extends (nodeValueOf type v) 0 0 [] b Hb)
        as (b1 & Hpush1 & Hb1 & _). rewrite Hpush1. simpl.
      destruct (generateArguments_ok strategy fuel d) with
        (types := argumentTypes (definitionFor g (nodeValueOf type v)))
        (b := b1) (rng := rng')
        as (kids & b2 & rng2 & -> & Hext2 & Hlen & Hkids).
      { unfold INT_MIN, INT_MAX in *. zlia. }
      { apply IH; [lia|lia|lia]. }
      { done. }
      { apply Forall_forall. intros a Ha.
        by apply (typeOk_argument strategy type v a Hok); [lia|]. }
      simpl.
      destruct (push_pop_extends (nodeValueOf type v) (length kids)
                  (fsize kids) (packedForest kids) b Hb)
        as (b1' & Hpush & _ & Hpop).
      assert (b1' = b1) as -> by congruence.
      destruct (Hpop b2 Hext2) as (b3 & -> & Hext3). simpl.
      exists (Rose (nodeValueOf type v) kids), b3, rng2.
      split; [done|]. split; [by rewrite packed_Rose, rsize_Rose|].
      apply Generated_function; [lia| | | |done].
      * unfold isFunction. by rewrite Hnot.
      * intros ->. simpl in Hlen. symmetry in Hlen.
        by apply nil_length_inv in Hlen.
      * done.
Qed.

End GeneratorFacts.

(** ** The grammars of the tests *)

Lemma forallb_seqZ (P : Z → bool) a n v :
  forallb P (seqZ a n) = true → (a ≤ v < a + n)%Z → P v = true.
Proof.
  intros Hall Hv. rewrite forallb_forall in Hall. apply Hall.
  apply list_elem_of_In, elem_of_seqZ. lia.
Qed.

Lemma definitionSetChecks_sound g set :
  definitionSetChecks g set = true →
  ((0 ≤ typeConstrainedTerminalLimit set ≤ typeConstrainedFunctionLimit set)%Z
   ∧ (typeConstrainedFunctionLimit set < 2 ^ 32)%Z)
  ∧ (∀ v, (0 ≤ v < typeConstrainedTerminalLimit set)%Z →
       isTerminal
         (definitionFor g (nodeValueForTypeConstrainedNodeValue set v)) = true)
  ∧ (∀ v, (typeConstrainedTerminalLimit set ≤ v
             < typeConstrainedFunctionLimit set)%Z →
       let d := definitionFor g (nodeValueForTypeConstrainedNodeValue set v) in
       isTerminal d = false ∧ argumentTypes d ≠ []).
Proof.
  unfold definitionSetChecks. rewrite !andb_true_iff.
  intros [[[[Hlo Hord] Hmax] Hterm] Hfun].
  apply Z.leb_le in Hlo, Hord. apply Z.ltb_lt in Hmax.
  split; [lia|]. split.
  - intros v Hv. apply (forallb_seqZ _ _ _ v) in Hterm; [done|lia].
  - intros v Hv. apply (forallb_seqZ _ _ _ v) in Hfun; [|lia].
    apply andb_true_iff in Hfun as [Hnot Hargs].
    apply negb_true_iff in Hnot. apply Nat.ltb_lt in Hargs.
    split; [done|]. intros Hnil. rewrite Hnil in Hargs. simpl in Hargs. lia.
Qed.

Lemma argumentTypesOfSet_complete g type v arg :
  (typeConstrainedTerminalLimit (setOf g type) ≤ v
     < typeConstrainedFunctionLimit (setOf g type))%Z →
  arg ∈ argumentTypes
    (definitionFor g (nodeValueForTypeConstrainedNodeValue (setOf g type) v)) →
  arg ∈ argumentTypesOfSet g (setOf g type).
Proof.
  intros Hv Harg. unfold argumentTypesOfSet.
  apply list_elem_of_In, in_flat_map. exists v.
  split; apply list_elem_of_In; [apply elem_of_seqZ; lia|done].
Qed.

(** A type that no definition of the table has owns an empty set. *)
Lemma definitionSetOfTable_unused table type :
  Forall (fun d => getType d ≠ type) table →
  definitionSetOfTable table type
  = mkTypeDefinitionSet 0 0
      (fun v => if (v <? 0)%Z then (0 + v)%Z else (0 + (v - 0))%Z).
Proof.
  intros Hall. unfold definitionSetOfTable.
  assert (∀ P, List.filter (fun d => P d && (getType d =? type)%Z) table = [])
    as Hnone.
  { intros P. induction Hall as [|d table Hd _ IH]; [done|].
    simpl. apply Z.eqb_neq in Hd. by rewrite Hd, andb_false_r. }
  by rewrite !Hnone.
Qed.

Lemma Grammar_new_setOf typeCount defs type :
  type ≠ (2 ^ 32 - 1)%Z →
  setOf (Grammar_new typeCount defs) type
  = definitionSetOfTable
      (assignNodeValues 0 0%Z (canonicalOrder typeCount defs)) type.
Proof.
  intros Hne. apply Z.eqb_neq in Hne. unfold setOf. simpl. by rewrite !Hne.
Qed.

(** The three cases of a type in a grammar with the single type 0. *)
Lemma single_type_cases (type : Z) :
  type = 0%Z ∨ type = (2 ^ 32 - 1)%Z ∨ (type ≠ 0%Z ∧ type ≠ (2 ^ 32 - 1)%Z).
Proof. lia. Qed.

Lemma testGrammar_unused type :
  type ≠ 0%Z → type ≠ (2 ^ 32 - 1)%Z →
  setOf testGrammar type
  = mkTypeDefinitionSet 0 0
      (fun v => if (v <? 0)%Z then (0 + v)%Z else (0 + (v - 0))%Z).
Proof.
  intros H0 Hinv. unfold testGrammar. rewrite Grammar_new_setOf by done.
  apply definitionSetOfTable_unused. vm_compute assignNodeValues.
  repeat constructor; simpl; congruence.
Qed.

Lemma testGrammar_checks type :
  definitionSetChecks testGrammar (setOf testGrammar type) = true.
Proof.
  destruct (single_type_cases type) as [->|[->|[H0 Hinv]]].
  - by vm_compute.
  - by vm_compute.
  - rewrite testGrammar_unused by done. by vm_compute.
Qed.

Lemma testGrammar_ok : GrammarOk testGrammar.
Proof.
  split.
  - by vm_compute.
  - intros type. apply (definitionSetChecks_sound _ _ (testGrammar_checks type)).
  - intros type. apply (definitionSetChecks_sound _ _ (testGrammar_checks type)).
  - intros type. apply (definitionSetChecks_sound _ _ (testGrammar_checks type)).
Qed.

Lemma testGrammar_reachable type type' :
  reachable testGrammar type type' → type = 0%Z → type' = 0%Z.
Proof.
  induction 1 as [|type v arg type' Hv Harg _ IH]; [done|].
  intros ->. apply IH.
  pose proof (argumentTypesOfSet_complete testGrammar 0 v arg Hv Harg) as Hin.
  vm_compute argumentTypesOfSet in Hin.
  repeat (apply elem_of_cons in Hin as [Hin|Hin]; [done|]).
  by apply elem_of_nil in Hin.
Qed.

Lemma terminalsOnlyGrammar_reachable type type' :
  reachable terminalsOnlyGrammar type type' → type = 0%Z → type' = 0%Z.
Proof.
  induction 1 as [|type v arg type' Hv Harg _ IH]; [done|].
  intros ->. exfalso.
  change (typeConstrainedTerminalLimit (setOf terminalsOnlyGrammar 0))
    with 20%Z in Hv.
  change (typeConstrainedFunctionLimit (setOf terminalsOnlyGrammar 0))
    with 20%Z in Hv.
  lia.
Qed.

(** ** Claims about the generator *)

(** The shape of a rose generated under [Full]. *)
Lemma Generated_Full_shape g (r : rose Z) : ∀ d,
  Generated g Full d r → (1 ≤ d)%Z →
  Forall (fun v => isFunction (definitionFor g v) = true) (internalValues r)
  ∧ Forall (fun v => isTerminal (definitionFor g v) = true) (leafValues r)
  ∧ Forall (fun k => Z.of_nat k = d) (leafDepths r).
Proof.
  induction r as [v kids IH] using rose_forall_ind. intros d Hgen Hd.
  inversion Hgen as [d' v' Hle Hterm|d' v' Hlt Hgrow|d' v' kids' Hlt Hfun Hne Hlen Hkids];
    subst.
  - simpl. split_and!; repeat constructor; [done|lia].
  - done.
  - destruct kids as [|k kids]; [done|].
    assert (Forall (fun r =>
        Forall (fun v => isFunction (definitionFor g v) = true) (internalValues r)
        ∧ Forall (fun v => isTerminal (definitionFor g v) = true) (leafValues r)
        ∧ Forall (fun k => Z.of_nat k = (d - 1)%Z) (leafDepths r)) (k :: kids))
      as Hall.
    { apply Forall_forall. intros r Hr.
      eapply Forall_forall in IH; [|exact Hr].
      eapply Forall_forall in Hkids; [|exact Hr].
      apply IH; [done|lia]. }
    change (internalValues (Rose v (k :: kids)))
      with (v :: concat (map internalValues (k :: kids))).
    change (leafValues (Rose v (k :: kids)))
      with (concat (map leafValues (k :: kids))).
    change (leafDepths (Rose v (k :: kids)))
      with (S <$> concat (map leafDepths (k :: kids))).
    split_and!.
    + constructor; [done|]. apply Forall_concat, Forall_fmap.
      eapply Forall_impl; [exact Hall|]. by intros r (? & _).
    + apply Forall_concat, Forall_fmap.
      eapply Forall_impl; [exact Hall|]. by intros r (_ & ? & _).
    + apply Forall_fmap, Forall_concat, Forall_fmap.
      eapply Forall_impl; [exact Hall|]. intros r (_ & _ & Hdepth). simpl.
      eapply Forall_impl; [exact Hdepth|]. simpl. intros; lia.
Qed.

(** C4.  For a depth of at least 1 and a type all of whose reachable
    definition sets have a terminal and a function, [generateFull] on a fresh
    builder emits the layout of a tree in which every node with children is
    a function, every leaf is a terminal, and every leaf is at depth exactly
    [maxDepth], the root being at depth 1. *)
Theorem generateFull_full_tree g gen fuel maxDepth type rng :
  GrammarOk g → TreeGenerator_new g = Ok gen →
  (1 ≤ maxDepth ≤ INT_MAX)%Z → (maxDepth ≤ Z.of_nat fuel)%Z →
  (∀ type', reachable g type type' →
     hasTerminals (setOf g type') = true
     ∧ hasFunctions (setOf g type') = true) →
  ∃ r rng',
    generateFull fuel gen (Builder_new Tree_new) maxDepth type rng
    = Ok (mkBuilder (mkTree (packed r)) [], rng')
    ∧ Forall (fun v => isFunction (definitionFor g v) = true) (internalValues r)
    ∧ Forall (fun v => isTerminal (definitionFor g v) = true) (leafValues r)
    ∧ Forall (fun k => Z.of_nat k = maxDepth) (leafDepths r).
Proof.
  intros Hg Hgen Hdepth Hfuel Htype.
  destruct (generate_ok g gen Hg Hgen Full fuel maxDepth)
    with (b := Builder_new (@Tree_new Z)) (type := type) (rng := rng)
    as (r & [[ns] st] & rng' & Hrun & [Hstack Hnodes] & Hshape);
    [lia|lia|lia|done| |].
  { intros type' Hreach. destruct (Htype type' Hreach). by split. }
  simpl in Hstack, Hnodes. subst st ns.
  exists r, rng'. split; [exact Hrun|].
  apply (Generated_Full_shape g r maxDepth Hshape). lia.
Qed.

Lemma generateFull_full_tree_witness :
  ∃ gen, TreeGenerator_new testGrammar = Ok gen ∧
  ∃ r rng',
    generateFull 3 gen (Builder_new Tree_new) 3 0 testRNG
    = Ok (mkBuilder (mkTree (packed r)) [], rng')
    ∧ Forall (fun v => isFunction (definitionFor testGrammar v) = true)
             (internalValues r)
    ∧ Forall (fun v => isTerminal (definitionFor testGrammar v) = true)
             (leafValues r)
    ∧ Forall (fun k => Z.of_nat k = 3%Z) (leafDepths r).
Proof.
  eexists. split; [reflexivity|].
  apply (generateFull_full_tree testGrammar).
  - exact testGrammar_ok.
  - reflexivity.
  - by vm_compute.
  - by vm_compute.
  - intros type' Hreach.
    rewrite (testGrammar_reachable 0 type' Hreach eq_refl). by vm_compute.
Defined.

(** C5, at the input where it fails.  In [terminalsOnlyGrammar] every
    definition set that type 0 reaches has a terminal, and [generateFull]
    for type 0 and depth 2 hands an empty range to the uniform distribution
    instead of emitting a tree. *)
Theorem generateFull_without_functions fuel rng :
  ∃ gen, TreeGenerator_new terminalsOnlyGrammar = Ok gen
    ∧ (∀ type', reachable terminalsOnlyGrammar 0 type' →
         hasTerminals (setOf terminalsOnlyGrammar type') = true)
    ∧ generateFull (S fuel) gen (Builder_new Tree_new) 2 0 rng
      = Fail InvalidRange.
Proof.
  eexists. split; [reflexivity|]. split.
  - intros type' Hreach.
    by rewrite (terminalsOnlyGrammar_reachable 0 type' Hreach eq_refl).
  - reflexivity.
Qed.

(** ** The ramped half-and-half initializer *)

Section InitializerFacts.
Context {fo : FloatOps}.
Context (g : Grammar) (init : RampedHalfAndHalfInitializer) (fuel : nat).
Hypothesis Hg : GrammarOk g.
Hypothesis Hinit : TreeGenerator_new g = Ok (gen init).
Hypothesis Htypes : ∀ type', reachable g (invalidTypeId g) type' →
  hasTerminals (setOf g type') = true ∧ hasFunctions (setOf g type') = true.
Hypothesis Hdelegate : ∀ d, delegate init = Some d →
  ∀ depth rng,
    (∃ handled b' rng',
       delegate_generateFull d (gen init) (Builder_new Tree_new) depth rng
       = Ok (handled, b', rng') ∧ (handled = false → topValid b'))
    ∧ (∃ handled b' rng',
       delegate_generateGrow d (gen init) (Builder_new Tree_new) depth rng
       = Ok (handled, b', rng') ∧ (handled = false → topValid b')).
Hypothesis Hfuel : 1 ≤ fuel ∧ ∀ x, (float_floor_to_int x ≤ Z.of_nat fuel)%Z.



End InitializerFacts.

(** *** The initializer over a grammar without functions *)

Section InitializerWithoutFunctions.
Context {fo : FloatOps}.

(** The generator of [terminalsOnlyGrammar] holds 20 codes, all of
    terminals. *)
Context (gen0 : TreeGenerator).
Hypothesis Hgen0 : TreeGenerator_new terminalsOnlyGrammar = Ok gen0.








End InitializerWithoutFunctions.




(** ** The population *)

Section PopulationFacts.
Context {fo : FloatOps} {Host : Type}.
Context (params : EvolutionParameters) (traits : EvolvingPopulationDelegate Host).
Implicit Types (p : Population) (w : World Host).

Lemma evaluateGeneration_inv p w best p1 w1 :
  evaluateGeneration traits p w = Ok (best, p1, w1) →
  individuals p1 = individuals p
  ∧ generation p1 = generation p
  ∧ evaluatedGeneration p1 = generation p1
  ∧ currentBestIndividualId p1 = best
  ∧ rng w1 = rng w
  ∧ computeFitnessCalls w ≤ computeFitnessCalls w1 ≤ S (computeFitnessCalls w).
Proof.
  unfold evaluateGeneration.
  destruct (evaluatedGeneration p =? generation p)%Z eqn:Hcached.
  - intros [= <- <- <-]. apply Z.eqb_eq in Hcached. split_and!; (done || lia).
  - destruct (computeFitness traits _ _ _) as [fitnesses' host'].
    destruct (length fitnesses' =? length (individuals p)); [|done]. simpl.
    destruct (at_ fitnesses' 0) as [first|]; [|done]. simpl.
    destruct (bestFrom _ _ _ _) as [bf bi].
    intros [= <- <- <-]. simpl. split_and!; (done || lia).
Qed.

End PopulationFacts.

(** C9.  Once a call of [evaluateGeneration] has returned, every further
    call in the same generation returns the same id and leaves the
    population, its fitness scores and the host as they are; over all the
    calls [computeFitness] has run at most once. *)
Theorem evaluateGeneration_memoized {fo : FloatOps} {Host}
    (traits : EvolvingPopulationDelegate Host) p w best p1 w1 :
  evaluateGeneration traits p w = Ok (best, p1, w1) →
  ∀ n, evaluateRepeatedly traits n p1 w1 = Ok (replicate n best, p1, w1)
     ∧ evaluateRepeatedly traits (S n) p w = Ok (replicate (S n) best, p1, w1)
     ∧ computeFitnessCalls w1 ≤ S (computeFitnessCalls w)
     ∧ generation p1 = generation p.
Proof.
  intros Hfirst.
  destruct (evaluateGeneration_inv traits p w best p1 w1 Hfirst)
    as (_ & Hgen & Hcached & Hbest & _ & Hcalls).
  assert (evaluateGeneration traits p1 w1 = Ok (best, p1, w1)) as Hagain.
  { unfold evaluateGeneration.
    rewrite (proj2 (Z.eqb_eq _ _) Hcached). by rewrite Hbest. }
  assert (∀ n, evaluateRepeatedly traits n p1 w1 = Ok (replicate n best, p1, w1))
    as Hrest.
  { induction n as [|n IH]; [done|]. simpl. by rewrite Hagain; simpl; rewrite IH. }
  intros n. split; [apply Hrest|]. split; [|split; [lia|done]].
  simpl. rewrite Hfirst. simpl. by rewrite Hrest.
Qed.

Lemma evaluateGeneration_memoized_witness :
  let p := testPopulation [genomeSinY; genomeX; genomePlusXY] in
  ∃ p1 w1,
    evaluateGeneration testDelegate p testWorld = Ok (1, p1, w1)
    ∧ evaluateRepeatedly testDelegate 3 p1 w1 = Ok ([1; 1; 1], p1, w1)
    ∧ computeFitnessCalls w1 ≤ 1.
Proof.
  intros p. eexists _, _.
  assert (evaluateGeneration testDelegate p testWorld
          = Ok (1, mkPopulation (individuals p)
                     (map testFitness (individuals p)) 1 0 0,
                mkWorld testRNG tt 1)) as Hfirst by reflexivity.
  split; [exact Hfirst|].
  destruct (evaluateGeneration_memoized testDelegate _ _ _ _ _ Hfirst 3)
    as (Hrest & _ & Hcalls & _).
  split; [exact Hrest|exact Hcalls].
Defined.

(** C10.  [nextGeneration] asks [select] for [individuals.size() - 3]
    genomes, computed on [size_t].  For a population of 1 to 2^64 - 1
    individuals the assertion of [select] holds exactly when there are at
    least 4 of them; with 3 the count is 0, with 1 or 2 it wraps around, and
    in these cases [select] stops at its assertion and [nextGeneration] does
    not return. *)
Theorem nextGeneration_needs_four_individuals {fo : FloatOps} {Host}
    (params : EvolutionParameters) (traits : EvolvingPopulationDelegate Host)
    (p : Population) (w : World Host) (doDump : bool) :
  let N := Z.of_nat (length (individuals p)) in
  (1 ≤ N < 2 ^ 64)%Z →
  (selectPrecondition (wrap64 (N - 3)) N = true ↔ (4 ≤ N)%Z)
  ∧ (N = 3%Z → wrap64 (N - 3) = 0%Z)
  ∧ (N < 3 → wrap64 (N - 3) = 2 ^ 64 + N - 3)%Z
  ∧ ((N < 4)%Z →
       (∀ newGeneration rng,
          select newGeneration (wrap64 (N - 3)) p rng = Fail AssertionFailed)
       ∧ ¬ isOk (nextGeneration params traits doDump p w)).
Proof.
  intros N HN.
  assert ((N < 3 → wrap64 (N - 3) = 2 ^ 64 + N - 3)%Z) as Hwrap.
  { intros Hlt. unfold wrap64.
    replace (N - 3)%Z with (2 ^ 64 + N - 3 + (-1) * 2 ^ 64)%Z by lia.
    rewrite Z.mod_add by done. apply Z.mod_small. zlia. }
  assert ((3 ≤ N)%Z → wrap64 (N - 3) = (N - 3)%Z) as Hsmall.
  { intros Hge. unfold wrap64. apply Z.mod_small. zlia. }
  assert (selectPrecondition (wrap64 (N - 3)) N = true ↔ (4 ≤ N)%Z) as Hiff.
  { unfold selectPrecondition.
    rewrite andb_true_iff, negb_true_iff, Z.eqb_neq, Z.leb_le.
    destruct (decide (N < 3)%Z) as [Hlt|Hge].
    - rewrite Hwrap by done. zlia.
    - rewrite Hsmall by lia. lia. }
  split; [exact Hiff|]. split; [intros ->; done|]. split; [exact Hwrap|].
  intros Hlt.
  assert (selectPrecondition (wrap64 (N - 3)) N = false) as Hfalse.
  { apply not_true_is_false. intros E. apply Hiff in E. lia. }
  assert (∀ newGeneration rng,
            select newGeneration (wrap64 (N - 3)) p rng = Fail AssertionFailed)
    as Hselect.
  { intros newGeneration rng0. unfold select. fold N. by rewrite Hfalse. }
  split; [exact Hselect|].
  intros Hok. unfold nextGeneration in Hok.
  destruct (evaluateGeneration traits p w) as [[[best p1] w1]|] eqn:Heval;
    [|exact Hok].
  destruct (evaluateGeneration_inv traits p w best p1 w1 Heval)
    as (Hind & _).
  simpl in Hok. destruct (if doDump then _ else _); [|exact Hok].
  simpl in Hok. destruct (at_ (individuals p1) best); [|exact Hok].
  simpl in Hok. destruct (assert _); [|exact Hok].
  simpl in Hok. unfold select in Hok. rewrite Hind in Hok. fold N in Hok.
  rewrite Hfalse in Hok. exact Hok.
Qed.

Lemma nextGeneration_needs_four_individuals_witness :
  let p := testPopulation [genomeX; genomeSinY; genomePlusXY] in
  (1 ≤ Z.of_nat (length (individuals p)) < 2 ^ 64)%Z
  ∧ selectPrecondition (wrap64 (3 - 3)) 3 = false
  ∧ nextGeneration testParameters testDelegate true p testWorld
    = Fail AssertionFailed.
Proof.
  intros p.
  destruct (nextGeneration_needs_four_individuals testParameters testDelegate
              p testWorld true) as (Hiff & _ & _ & Hfail);
    [by vm_compute|].
  split; [by vm_compute|]. split; [reflexivity|].
  destruct (Hfail eq_refl) as [_ Hnot].
  by destruct (nextGeneration testParameters testDelegate true p testWorld)
    eqn:E; [destruct Hnot|vm_compute in E; inversion E].
Defined.

(** ** Crossover *)

Lemma randomUpTo_range max rng :
  (0 ≤ max)%Z →
  ∃ v rng', randomUpTo max rng = Ok (v, rng') ∧ (Z.of_nat v ≤ max)%Z.
Proof.
  intros Hmax. unfold randomUpTo.
  destruct (uniform_int_distribution_range 0 max rng Hmax)
    as (v & rng' & Hv & ->).
  simpl. exists (Z.to_nat v), rng'. split; [done|lia].
Qed.

Lemma wrap64_small z : (0 ≤ z < 2 ^ 64)%Z → wrap64 z = z.
Proof. intros. unfold wrap64. by apply Z.mod_small. Qed.

Section CrossoverFacts.
Context {fo : FloatOps} {Host : Type}.
Context (traits : EvolvingPopulationDelegate Host).

#[local] Abbreviation typeOfValue v :=
  (getType (definitionFor (genomeGrammar traits) v)).

Lemma elem_of_nodesWithType (genome : Tree Z) type j :
  j ∈ nodesWithType traits genome type ↔
  ∃ n, nodes genome !! j = Some n ∧ typeOfValue (value n) = type.
Proof.
  unfold nodesWithType. rewrite list_elem_of_In, filter_In, in_seq.
  split.
  - intros [_ Hj]. destruct (nodes genome !! j) as [n|]; [|done].
    exists n. split; [done|]. by apply Z.eqb_eq.
  - intros (n & Hn & Htype). rewrite Hn. split.
    + apply lookup_lt_Some in Hn. unfold getNodeCount. lia.
    + by apply Z.eqb_eq.
Qed.

Lemma length_nodesWithType (genome : Tree Z) type :
  length (nodesWithType traits genome type) ≤ getNodeCount genome.
Proof.
  unfold nodesWithType.
  etrans; [apply List.filter_length_le|]. by rewrite length_seq.
Qed.

Lemma selectRandomNodeWithType_found (genome : Tree Z) type rng :
  nodesWithType traits genome type ≠ [] →
  (Z.of_nat (getNodeCount genome) < 2 ^ 64)%Z →
  ∃ j rng', selectRandomNodeWithType traits genome type rng = Ok (j, true, rng')
    ∧ j ∈ nodesWithType traits genome type.
Proof.
  intros Hne Hcount. unfold selectRandomNodeWithType.
  pose proof (length_nodesWithType genome type) as Hlen.
  destruct (nodesWithType traits genome type) as [|j0 js] eqn:E; [done|].
  rewrite <- E in *. clear E.
  assert (0 < length (nodesWithType traits genome type)) as Hpos.
  { destruct (nodesWithType traits genome type); [done|simpl; lia]. }
  rewrite wrap64_small by zlia.
  destruct (randomUpTo_range
              (Z.of_nat (length (nodesWithType traits genome type)) - 1) rng)
    as (index & rng' & -> & Hindex); [lia|].
  simpl. unfold at_.
  destruct (lookup_lt_is_Some_2 (nodesWithType traits genome type) index)
    as [j Hj]; [lia|].
  rewrite Hj. simpl. exists j, rng'. split; [done|].
  by eapply list_elem_of_lookup_2.
Qed.

End CrossoverFacts.

(** C8.  Let [type] be the type of the node of [A] at the valid index [i].
    If no node of [B] has this type, [crossover] returns false and leaves
    both genomes as they are.  If some node of [B] has it, [crossover]
    returns true for one such node [j]: [A] becomes [A] with the sub-tree at
    [i] replaced by the sub-tree of [B] at [j], and [B] becomes [B] with the
    sub-tree at [j] replaced by the original sub-tree of [A] at [i]. *)
Theorem crossover_outcome {fo : FloatOps} {Host}
    (traits : EvolvingPopulationDelegate Host) (A B : Tree Z) (i : nat)
    (node : NodeStorage Z) (rng : RNG) :
  wellFormed A → wellFormed B →
  nodes A !! i = Some node →
  (Z.of_nat (getNodeCount A + getNodeCount B) < 2 ^ 32)%Z →
  let typeOf v := getType (definitionFor (genomeGrammar traits) v) in
  let type := typeOf (value node) in
  ((∀ j n, nodes B !! j = Some n → typeOf (value n) ≠ type) →
     crossover traits A i type B rng = Ok (false, A, B, rng))
  ∧ ((∃ j n, nodes B !! j = Some n ∧ typeOf (value n) = type) →
     ∃ j n rng' c sa d sb,
       nodes B !! j = Some n ∧ typeOf (value n) = type
       ∧ nodes A = flatten (plug c sa) ∧ cpos c = i
       ∧ nodes B = flatten (plug d sb) ∧ cpos d = j
       ∧ crossover traits A i type B rng
         = Ok (true, mkTree (flatten (plug c sb)),
               mkTree (flatten (plug d sa)), rng')).
Proof.
  intros HA HB Hnode Hbound typeOf type. unfold getNodeCount in Hbound. split.
  - intros Hnone. unfold crossover, selectRandomNodeWithType.
    destruct (nodesWithType traits B type) as [|j js] eqn:E; [done|].
    assert (j ∈ nodesWithType traits B type) as Hj by (rewrite E; left).
    apply elem_of_nodesWithType in Hj as (n & Hn & Htype).
    by destruct (Hnone j n Hn).
  - intros (j0 & n0 & Hn0 & Htype0).
    assert (nodesWithType traits B type ≠ []) as Hne.
    { intros Hnil.
      assert (j0 ∈ nodesWithType traits B type) as Hin
        by (apply elem_of_nodesWithType; eauto).
      rewrite Hnil in Hin. by apply elem_of_nil in Hin. }
    destruct (selectRandomNodeWithType_found traits B type rng Hne)
      as (j & rng' & Hselect & Hj); [unfold getNodeCount; zlia|].
    apply elem_of_nodesWithType in Hj as (n & Hn & Htype).
    destruct HA as [HA|(ra & HrA)]; [by rewrite HA in Hnode|].
    destruct HB as [HB|(rb & HrB)]; [by rewrite HB in Hn|].
    destruct (represents_index ra A i HrA) as (c & sa & -> & <-);
      [by eapply lookup_lt_Some|].
    destruct (represents_index rb B j HrB) as (d & sb & -> & <-);
      [by eapply lookup_lt_Some|].
    destruct HrA as [HnA _], HrB as [HnB _].
    exists (cpos d), n, rng', c, sa, d, sb. split_and!; try done.
    unfold crossover. rewrite Hselect. simpl.
    rewrite (getSubTree_plug c sa A HnA), (getSubTree_plug d sb B HnB). simpl.
    rewrite HnA, HnB, !length_flatten, !rsize_plug in Hbound.
    pose proof (cpos_le_csize c). pose proof (cpos_le_csize d).
    rewrite (replace_plug c sa sb A) by (rewrite ?rsize_plug; (done || zlia)).
    simpl.
    rewrite (replace_plug d sb sa B) by (rewrite ?rsize_plug; (done || zlia)).
    done.
Qed.

Lemma crossover_outcome_witness :
  wellFormed genomePlusXY ∧ wellFormed genomeSinY
  ∧ ∃ j rng',
      crossover testDelegate genomePlusXY 1 0 genomeSinY testRNG
      = Ok (true, mkTree (flatten (Rose 20%Z [Rose 10%Z []; Rose 10%Z []])),
            mkTree (flatten (Rose 36%Z [Rose 0%Z []])), rng')
      ∧ j = 1.
Proof.
  assert (wellFormed genomePlusXY) as HA by (right; eexists; by split).
  assert (wellFormed genomeSinY) as HB by (right; eexists; by split).
  split; [exact HA|]. split; [exact HB|].
  destruct (crossover_outcome testDelegate genomePlusXY genomeSinY 1
              (mkNodeStorage 0%Z 0%Z 1%Z) testRNG HA HB eq_refl eq_refl)
    as [_ Hfound].
  destruct Hfound as (j & n & rng' & c & sa & d & sb & _ & _ & _ & _ & _ & _ & Hrun).
  { by exists 0, (mkNodeStorage 36%Z 1%Z 2%Z). }
  exists 1, rng'. split; [|done].
  assert (crossover testDelegate genomePlusXY 1 0 genomeSinY testRNG
          = Ok (true, mkTree (flatten (Rose 20%Z [Rose 10%Z []; Rose 10%Z []])),
                mkTree (flatten (Rose 36%Z [Rose 0%Z []])),
                mkRNG (words testRNG) 1)) as Hc by reflexivity.
  change (crossover testDelegate genomePlusXY 1 0 genomeSinY testRNG
          = Ok (true, mkTree (flatten (plug c sb)),
                mkTree (flatten (plug d sa)), rng')) in Hrun.
  assert (rng' = mkRNG (words testRNG) 1) as -> by congruence.
  exact Hc.
Defined.

(** ** A generation step *)

Section GenerationFacts.
Context {fo : FloatOps} {Host : Type}.
Context (params : EvolutionParameters) (traits : EvolvingPopulationDelegate Host).
Implicit Types (p : Population) (w : World Host).

Hypothesis float_lt_irrefl : ∀ x, float_lt x x = false.
Hypothesis float_lt_trans : ∀ x y z,
  float_lt x y = true → float_lt y z = true → float_lt x z = true.

(** The scan keeps the index of a score that no score seen so far exceeds. *)
Lemma bestFrom_best (all : list float) : ∀ rest seen bf bi,
  all = seen ++ rest →
  all !! bi = Some bf →
  (∀ j fj, seen !! j = Some fj → float_lt bf fj = false) →
  ∃ bf' bi', bestFrom rest (length seen) bf bi = (bf', bi')
    ∧ all !! bi' = Some bf'
    ∧ ∀ j fj, all !! j = Some fj → float_lt bf' fj = false.
Proof using float_lt_irrefl float_lt_trans.
  induction rest as [|fitness rest IH]; intros seen bf bi Hall Hbi Hseen.
  - rewrite (right_id_L [] (++)) in Hall. subst all. simpl. by eauto.
  - simpl.
    assert (all = (seen ++ [fitness]) ++ rest) as Hall'
      by (by rewrite <- (assoc_L (++))).
    assert (S (length seen) = length (seen ++ [fitness])) as ->
      by (rewrite length_app; simpl; lia).
    destruct (float_lt bf fitness) eqn:Hlt.
    + apply IH; [done| |].
      * rewrite Hall. by rewrite list_lookup_middle.
      * intros j fj Hj. apply lookup_app_Some in Hj as [Hj|[_ Hj]].
        -- destruct (float_lt fitness fj) eqn:Hlt'; [|done].
           rewrite <- (Hseen j fj Hj). symmetry. by eapply float_lt_trans.
        -- apply list_lookup_singleton_Some in Hj as [_ <-].
           apply float_lt_irrefl.
    + apply IH; [done|done|].
      intros j fj Hj. apply lookup_app_Some in Hj as [Hj|[_ Hj]].
      * by apply (Hseen j).
      * by apply list_lookup_singleton_Some in Hj as [_ <-].
Qed.

Lemma bestFrom_bestOf (scores : list float) first :
  scores !! 0 = Some first →
  ∃ bf bi, bestFrom scores 0 first 0 = (bf, bi) ∧ bestOf scores bi
    ∧ scores !! bi = Some bf.
Proof using float_lt_irrefl float_lt_trans.
  intros Hfirst.
  destruct (bestFrom_best scores scores [] first 0)
    as (bf & bi & Hrun & Hbi & Hbest); [done|done|done|].
  exists bf, bi. split; [done|]. split; [|done]. by exists bf.
Qed.

Lemma evaluateGeneration_ok maxNodes bound p w :
  DelegateOk traits maxNodes → PopulationOk bound p →
  individuals p ≠ [] →
  ∃ best p1 w1,
    evaluateGeneration traits p w = Ok (best, p1, w1)
    ∧ individuals p1 = individuals p
    ∧ generation p1 = generation p
    ∧ length (fitnesses p1) = length (individuals p)
    ∧ bestOf (fitnesses p1) best
    ∧ fitnesses p1
      = (if (evaluatedGeneration p =? generation p)%Z then fitnesses p
         else (computeFitness traits (individuals p) (fitnesses p) (host w)).1)
    ∧ rng w1 = rng w.
Proof using float_lt_irrefl float_lt_trans.
  intros Hd Hp Hne. unfold evaluateGeneration.
  destruct (evaluatedGeneration p =? generation p)%Z eqn:Hcached.
  - apply Z.eqb_eq in Hcached. eexists _, _, _. split; [reflexivity|].
    split_and!; [done|done|apply (fitnesses_length _ _ Hp)| |done|done].
    by apply (cached_best _ _ Hp).
  - pose proof (computeFitness_length traits maxNodes Hd (individuals p)
                  (fitnesses p) (host w)) as Hlen.
    destruct (computeFitness traits _ _ _) as [scores host']. simpl in Hlen.
    rewrite (fitnesses_length _ _ Hp) in Hlen.
    rewrite Hlen, Nat.eqb_refl. simpl.
    destruct scores as [|first scores].
    { destruct (individuals p); [done|simpl in Hlen; lia]. }
    change (at_ (first :: scores) 0) with (Ok first).
    cbn [mbind result_bind assert].
    rewrite <- Hlen, firstn_all.
    destruct (bestFrom_bestOf (first :: scores) first eq_refl)
      as (bf & bi & -> & Hbest & _).
    eexists _, _, _. split; [reflexivity|]. simpl. by split_and!.
Qed.

Lemma bestOf_lt (scores : list float) best :
  bestOf scores best → best < length scores.
Proof. intros (fb & Hfb & _). by eapply lookup_lt_Some. Qed.

Lemma at_ok {A} (v : list A) i : i < length v → ∃ x, at_ v i = Ok x ∧ v !! i = Some x.
Proof.
  intros Hi. unfold at_. destruct (lookup_lt_is_Some_2 v i Hi) as [x Hx].
  rewrite Hx. by eauto.
Qed.

Lemma dump_ok p :
  length (fitnesses p) = length (individuals p) → individuals p ≠ [] →
  Forall (fun t => isOk (printTree (genomeGrammar traits)
                                   (printerDelegate traits) t))
         (individuals p) →
  isOk (dump traits false p).
Proof using float_lt_irrefl float_lt_trans.
  intros Hlen Hne Hprint. unfold dump, getStats.
  destruct (fitnesses p) as [|first scores] eqn:Hscores.
  { destruct (individuals p); [done|simpl in Hlen; lia]. }
  rewrite bool_decide_eq_true_2 by lia.
  rewrite <- Hlen, firstn_all.
  destruct (bestFrom_bestOf (first :: scores) first eq_refl)
    as (bf & bi & Hrun & Hbest & _).
  change (at_ (first :: scores) 0) with (Ok first).
  cbn [mbind result_bind]. rewrite Hrun. cbn [mbind result_bind mret result_ret].
  cbn [bestIndividual].
  destruct (at_ok (individuals p) bi) as (best & -> & Hbi).
  { rewrite <- Hlen. by apply bestOf_lt. }
  cbn [mbind result_bind].
  eapply Forall_forall in Hprint; [|by eapply list_elem_of_lookup_2].
  destruct (printTree _ _ best); [done|done].
Qed.

End GenerationFacts.

Section SelectionFacts.
Context {fo : FloatOps}.
Implicit Types (p : Population).

Lemma tournament_ok p rng :
  individuals p ≠ [] →
  length (fitnesses p) = length (individuals p) →
  (Z.of_nat (length (individuals p)) < 2 ^ 64)%Z →
  ∃ t rng', tournament p rng = Ok (t, rng') ∧ t ∈ individuals p.
Proof.
  intros Hne Hlen Hsize. unfold tournament.
  assert (0 < length (individuals p)) as Hpos
    by (destruct (individuals p); [done|simpl; lia]).
  rewrite wrap64_small by zlia.
  destruct (randomUpTo_range (Z.of_nat (length (individuals p)) - 1) rng)
    as (s0 & rng0 & -> & Hs0); [lia|].
  cbn [mbind result_bind].
  destruct (randomUpTo_range (Z.of_nat (length (individuals p)) - 1) rng0)
    as (s1 & rng1 & -> & Hs1); [lia|].
  cbn [mbind result_bind].
  destruct (randomUpTo_range (Z.of_nat (length (individuals p)) - 1) rng1)
    as (s2 & rng2 & -> & Hs2); [lia|].
  cbn [mbind result_bind].
  destruct (at_ok (fitnesses p) s0) as (f0 & -> & _); [lia|].
  cbn [mbind result_bind].
  destruct (at_ok (fitnesses p) s1) as (f1 & -> & _); [lia|].
  cbn [mbind result_bind].
  destruct (at_ok (fitnesses p) s2) as (f2 & -> & _); [lia|].
  assert (∀ s, Z.of_nat s ≤ Z.of_nat (length (individuals p)) - 1 →
            ∃ t, at_ (individuals p) s = Ok t ∧ t ∈ individuals p)%Z as Hat.
  { intros s Hs. destruct (at_ok (individuals p) s) as (t & Ht & Hin); [lia|].
    exists t. split; [done|]. by eapply list_elem_of_lookup_2. }
  destruct (Hat s0 Hs0) as (t0 & Ht0 & Hin0).
  destruct (Hat s1 Hs1) as (t1 & Ht1 & Hin1).
  destruct (Hat s2 Hs2) as (t2 & Ht2 & Hin2).
  destruct (float_lt f0 f1); cbn [mbind result_bind];
    [destruct (float_lt f1 f2)|destruct (float_lt f0 f2)];
    cbn [mbind result_bind];
    rewrite ?Ht0, ?Ht1, ?Ht2; cbn [mbind result_bind mret result_ret];
    by eauto.
Qed.

Lemma selectLoop_ok p count : ∀ newGeneration rng,
  individuals p ≠ [] →
  length (fitnesses p) = length (individuals p) →
  (Z.of_nat (length (individuals p)) < 2 ^ 64)%Z →
  ∃ picked rng',
    selectLoop count p newGeneration rng = Ok (newGeneration ++ picked, rng')
    ∧ length picked = count
    ∧ Forall (fun t => t ∈ individuals p) picked.
Proof.
  induction count as [|count IH]; intros newGeneration rng Hne Hlen Hsize.
  - exists [], rng. by rewrite (right_id_L [] (++)).
  - simpl.
    destruct (tournament_ok p rng Hne Hlen Hsize) as (t & rng1 & -> & Ht).
    cbn [mbind result_bind].
    destruct (IH (newGeneration ++ [t]) rng1 Hne Hlen Hsize)
      as (picked & rng' & -> & Hcount & Hall).
    exists (t :: picked), rng'. rewrite <- (assoc_L (++)).
    split_and!; [done|simpl; by rewrite Hcount|by constructor].
Qed.

Lemma select_ok p newGeneration rng :
  4 ≤ length (individuals p) →
  length (fitnesses p) = length (individuals p) →
  (Z.of_nat (length (individuals p)) < 2 ^ 64)%Z →
  ∃ picked rng',
    select newGeneration (wrap64 (Z.of_nat (length (individuals p)) - 3)) p rng
    = Ok (newGeneration ++ picked, rng')
    ∧ length picked = length (individuals p) - 3
    ∧ Forall (fun t => t ∈ individuals p) picked.
Proof.
  intros HN Hlen Hsize. unfold select, selectPrecondition.
  rewrite wrap64_small by zlia.
  rewrite (proj2 (Z.eqb_neq _ 0)) by lia.
  rewrite (proj2 (Z.leb_le _ _)) by lia.
  cbn [negb andb assert mbind result_bind].
  destruct (selectLoop_ok p (Z.to_nat (Z.of_nat (length (individuals p)) - 3))
              newGeneration rng) as (picked & rng' & -> & Hcount & Hall);
    [intros Hnil; rewrite Hnil in HN; simpl in HN; lia|done|done|].
  exists picked, rng'. split_and!; [done|lia|done].
Qed.

End SelectionFacts.

Section VariationFacts.
Context {fo : FloatOps} {Host : Type}.
Context (params : EvolutionParameters) (traits : EvolvingPopulationDelegate Host).
Context (maxNodes : nat).
Hypothesis Hdelegate : DelegateOk traits maxNodes.
Implicit Types (w : World Host) (t : Tree Z).

Lemma goodGenome_count t :
  goodGenome t → 0 < getNodeCount t ∧ (Z.of_nat (getNodeCount t) < 2 ^ 32)%Z.
Proof.
  intros (r & Hr & Hbound). unfold getNodeCount.
  rewrite Hr, length_flatten. pose proof (rsize_pos r). by split.
Qed.

Lemma goodGenome_flatten (r : rose Z) :
  (Z.of_nat (rsize r) < 2 ^ 32)%Z → goodGenome (mkTree (flatten r)).
Proof. intros Hbound. by exists r. Qed.

Lemma selectRandomNode_ok t rng :
  goodGenome t →
  ∃ nodeId rng', selectRandomNode t rng = Ok (nodeId, rng')
    ∧ nodeId < getNodeCount t.
Proof.
  intros Ht. destruct (goodGenome_count t Ht) as [Hpos Hbound].
  unfold selectRandomNode. rewrite wrap64_small by zlia.
  destruct (randomUpTo_range (Z.of_nat (getNodeCount t) - 1) rng)
    as (nodeId & rng' & -> & HnodeId); [lia|].
  exists nodeId, rng'. split; [done|lia].
Qed.

Lemma typeOfNode_ok t nodeId :
  nodeId < getNodeCount t →
  ∃ node, nodes t !! nodeId = Some node
    ∧ typeOfNode traits t nodeId
      = Ok (getType (definitionFor (genomeGrammar traits) (value node))).
Proof.
  intros Hlt. unfold typeOfNode, nodeAt, getNodeCount in *.
  rewrite bool_decide_eq_true_2 by done. cbn [assert mbind result_bind].
  destruct (lookup_lt_is_Some_2 (nodes t) nodeId Hlt) as [node Hnode].
  rewrite Hnode. by exists node.
Qed.

Lemma mutate_ok t w :
  goodGenome t →
  (Z.of_nat (getNodeCount t + maxNodes) < 2 ^ 32)%Z →
  ∃ t' w', mutate traits t w = Ok (t', w')
    ∧ goodGenome t'
    ∧ getNodeCount t' ≤ getNodeCount t + maxNodes.
Proof using Hdelegate.
  intros Ht Hbound. unfold mutate.
  destruct (selectRandomNode_ok t (rng w) Ht) as (nodeId & rng1 & -> & HnodeId).
  cbn [mbind result_bind].
  destruct (typeOfNode_ok t nodeId HnodeId) as (node & Hnode & ->).
  cbn [mbind result_bind].
  destruct (generateRandomTreeOfType_ok traits maxNodes Hdelegate
              (value node) (host w) rng1)
    as (sub & host' & rng2 & -> & (s' & Hs' & _) & Hsub).
  cbn [mbind result_bind].
  destruct Ht as (r & Hr).
  destruct (represents_index r t nodeId Hr HnodeId) as (c & s & -> & <-).
  destruct Hr as [Hnodes _].
  unfold getNodeCount in *.
  rewrite Hnodes, length_flatten, rsize_plug in Hbound |- *.
  rewrite Hs', length_flatten in Hsub.
  pose proof (cpos_le_csize c).
  rewrite (replace_plug c s s' t sub Hnodes Hs')
    by (rewrite rsize_plug; zlia).
  cbn [mbind result_bind mret result_ret].
  eexists _, _. split; [reflexivity|]. split.
  - apply goodGenome_flatten. rewrite rsize_plug. zlia.
  - simpl. rewrite length_flatten, rsize_plug. lia.
Qed.

Lemma crossover_good A B i type rng :
  goodGenome A → goodGenome B → i < getNodeCount A →
  (Z.of_nat (getNodeCount A + getNodeCount B) < 2 ^ 32)%Z →
  ∃ found A' B' rng',
    crossover traits A i type B rng = Ok (found, A', B', rng')
    ∧ goodGenome A' ∧ goodGenome B'
    ∧ getNodeCount A' + getNodeCount B' = getNodeCount A + getNodeCount B.
Proof.
  intros HA HB Hi Hbound. unfold crossover.
  destruct (nodesWithType traits B type) as [|j0 js] eqn:E.
  - unfold selectRandomNodeWithType. rewrite E.
    cbn [mbind result_bind mret result_ret]. by eexists _, _, _, _.
  - destruct (selectRandomNodeWithType_found traits B type rng)
      as (j & rng' & -> & Hj); [by rewrite E|zlia|].
    cbn [mbind result_bind].
    apply elem_of_nodesWithType in Hj as (n & Hn & _).
    apply lookup_lt_Some in Hn.
    destruct HA as (ra & HrA), HB as (rb & HrB).
    destruct (represents_index ra A i HrA Hi) as (c & sa & -> & <-).
    destruct (represents_index rb B j HrB Hn) as (d & sb & -> & <-).
    destruct HrA as [HnA _], HrB as [HnB _].
    rewrite (getSubTree_plug c sa A HnA), (getSubTree_plug d sb B HnB).
    cbn [mbind result_bind].
    unfold getNodeCount in *.
    rewrite HnA, HnB, !length_flatten, !rsize_plug in Hbound |- *.
    pose proof (cpos_le_csize c). pose proof (cpos_le_csize d).
    rewrite (replace_plug c sa sb A) by (rewrite ?rsize_plug; (done || zlia)).
    cbn [mbind result_bind].
    rewrite (replace_plug d sb sa B) by (rewrite ?rsize_plug; (done || zlia)).
    cbn [mbind result_bind mret result_ret].
    eexists _, _, _, _. split; [reflexivity|]. split_and!.
    + apply goodGenome_flatten. rewrite rsize_plug. zlia.
    + apply goodGenome_flatten. rewrite rsize_plug. zlia.
    + simpl. rewrite !length_flatten, !rsize_plug. lia.
Qed.

Lemma totalNodes_insert (l : list (Tree Z)) i x y :
  l !! i = Some x →
  totalNodes (<[i := y]> l) + getNodeCount x = totalNodes l + getNodeCount y.
Proof.
  unfold totalNodes. revert i. induction l as [|a l IH]; intros [|i] Hi;
    simplify_eq/=; [lia|].
  specialize (IH i Hi). lia.
Qed.

Lemma totalNodes_lookup (l : list (Tree Z)) i x :
  l !! i = Some x → getNodeCount x ≤ totalNodes l.
Proof.
  unfold totalNodes. revert i. induction l as [|a l IH]; intros [|i] Hi;
    simplify_eq/=; [lia|].
  specialize (IH i Hi). lia.
Qed.

Lemma totalNodes_lookup_two (l : list (Tree Z)) i j x y :
  i ≠ j → l !! i = Some x → l !! j = Some y →
  getNodeCount x + getNodeCount y ≤ totalNodes l.
Proof.
  intros Hne Hi Hj.
  pose proof (totalNodes_insert l i x (mkTree []) Hi) as Hins.
  assert (<[i := mkTree []]> l !! j = Some y) as Hj'
    by (by rewrite list_lookup_insert_ne).
  apply totalNodes_lookup in Hj'. unfold getNodeCount in *. simpl in *. lia.
Qed.

End VariationFacts.

Section VariationLoop.
Context {fo : FloatOps} {Host : Type}.
Context (params : EvolutionParameters) (traits : EvolvingPopulationDelegate Host).
Context (maxNodes : nat).
Hypothesis Hdelegate : DelegateOk traits maxNodes.
Implicit Types (w : World Host) (t : Tree Z).

Lemma variation_unfold rounds i (newGeneration : list (Tree Z)) w :
  variation params traits rounds i newGeneration w =
  if bool_decide (i < length newGeneration) then
    match rounds with
    | O => Fail OutOfFuel
    | S rounds' =>
        let '(word, rng0) := nextWord (rng w) in
        let w := mkWorld rng0 (host w) (computeFitnessCalls w) in
        let p := float_of_word word in
        if float_le p (mutationRate params) then
          genome ← at_ newGeneration i;
          '(genome, w) ← mutate traits genome w;
          variation params traits rounds' (S i) (<[i := genome]> newGeneration) w
        else if float_le p (float_add (mutationRate params) (crossoverRate params))
        then
          '(next, rng1) ←
            (if bool_decide (i + 1 ≠ length newGeneration)
             then Ok (i + 1, rng w)
             else randomUpTo (wrap64 (Z.of_nat (length newGeneration) - 1))
                             (rng w));
          let next :=
            if bool_decide (next = i)
            then Z.to_nat (wrap64 (Z.of_nat i - 1)) else next in
          genome ← at_ newGeneration i;
          '(genomeIndex, rng2) ← selectRandomNode genome rng1;
          type ← typeOfNode traits genome genomeIndex;
          other ← at_ newGeneration next;
          '(_, genome, other, rng3) ←
            crossover traits genome genomeIndex type other rng2;
          variation params traits rounds' (S (S i))
            (<[next := other]> (<[i := genome]> newGeneration))
            (mkWorld rng3 (host w) (computeFitnessCalls w))
        else variation params traits rounds' (S i) newGeneration w
    end
  else Ok (newGeneration, w).
Proof. by destruct rounds. Qed.

(** The partner of a crossover is another genome of the generation. *)
Lemma partner_ok i (size : nat) rng :
  i < size → 3 ≤ size → (Z.of_nat size < 2 ^ 64)%Z →
  ∃ next rng1,
    (if bool_decide (i + 1 ≠ size) then Ok (i + 1, rng)
     else randomUpTo (wrap64 (Z.of_nat size - 1)) rng) = Ok (next, rng1)
    ∧ (if bool_decide (next = i)
       then Z.to_nat (wrap64 (Z.of_nat i - 1)) else next) < size
    ∧ (if bool_decide (next = i)
       then Z.to_nat (wrap64 (Z.of_nat i - 1)) else next) ≠ i.
Proof.
  intros Hi Hsize Hmax. case_bool_decide as Hlast.
  - exists (i + 1), rng. split; [done|].
    rewrite bool_decide_eq_false_2 by lia. lia.
  - rewrite wrap64_small by zlia.
    destruct (randomUpTo_range (Z.of_nat size - 1) rng)
      as (next & rng1 & -> & Hnext); [lia|].
    exists next, rng1. split; [done|]. case_bool_decide as Hsame.
    + rewrite wrap64_small by zlia. lia.
    + lia.
Qed.

Lemma variation_ok : ∀ rounds i (newGeneration : list (Tree Z)) w,
  Forall goodGenome newGeneration →
  3 ≤ length newGeneration →
  (Z.of_nat (length newGeneration) < 2 ^ 64)%Z →
  length newGeneration ≤ rounds + i →
  (Z.of_nat (totalNodes newGeneration
             + (length newGeneration - i) * maxNodes) < 2 ^ 32)%Z →
  ∃ newGeneration' w',
    variation params traits rounds i newGeneration w = Ok (newGeneration', w')
    ∧ length newGeneration' = length newGeneration.
Proof using Hdelegate.
  induction rounds as [|rounds IH];
    intros i newGeneration w Hgood Hsize Hmax Hrounds Hbound;
    rewrite variation_unfold; case_bool_decide as Hi; try (by eauto); [lia|].
  destruct (nextWord (rng w)) as [word rng0].
  cbv zeta.
  set (w0 := mkWorld rng0 (host w) (computeFitnessCalls w)).
  set (L := length newGeneration) in *.
  (* the budget of nodes left for the rounds to come *)
  assert (∃ r0 r1 r2,
            (L - i) * maxNodes = r0 ∧ (L - S i) * maxNodes = r1
            ∧ (L - S (S i)) * maxNodes = r2
            ∧ r0 = maxNodes + r1 ∧ r2 ≤ r1)
    as (r0 & r1 & r2 & E0 & E1 & E2 & Hstep & Hstep2).
  { eexists _, _, _. split_and!; [done..| |].
    - replace (L - i) with (S (L - S i)) by lia. simpl. lia.
    - apply Nat.mul_le_mono_r. lia. }
  rewrite E0 in Hbound.
  destruct (at_ok newGeneration i Hi) as (genome & Hat & Hgenome).
  assert (goodGenome genome) as Hg.
  { eapply Forall_forall in Hgood; [exact Hgood|].
    by eapply list_elem_of_lookup_2. }
  pose proof (totalNodes_lookup newGeneration i genome Hgenome) as Hcount.
  destruct (float_le (float_of_word word) (mutationRate params)).
  - (* mutation *)
    rewrite Hat. cbn [mbind result_bind].
    destruct (mutate_ok traits maxNodes Hdelegate genome w0 Hg)
      as (genome' & w1 & -> & Hg' & Hcount'); [clear IH E0 E1 E2; zlia|].
    cbn [mbind result_bind].
    pose proof (totalNodes_insert newGeneration i genome genome' Hgenome).
    destruct (IH (S i) (<[i := genome']> newGeneration) w1)
      as (newGeneration' & w' & -> & Hlen).
    + by apply Forall_insert.
    + by rewrite length_insert.
    + by rewrite length_insert.
    + rewrite length_insert. fold L. lia.
    + rewrite length_insert. fold L. rewrite E1. clear IH E0 E1 E2. zlia.
    + exists newGeneration', w'. split; [done|]. by rewrite Hlen, length_insert.
  - destruct (float_le (float_of_word word)
                (float_add (mutationRate params) (crossoverRate params))).
    + (* crossover *)
      destruct (partner_ok i L (rng w0) Hi Hsize Hmax)
        as (next & rng1 & -> & Hnext & Hne).
      cbn [mbind result_bind].
      set (next' := if bool_decide (next = i)
                    then Z.to_nat (wrap64 (Z.of_nat i - 1)) else next) in *.
      rewrite Hat. cbn [mbind result_bind].
      destruct (selectRandomNode_ok genome rng1 Hg)
        as (genomeIndex & rng2 & -> & Hindex).
      cbn [mbind result_bind].
      destruct (typeOfNode_ok traits genome genomeIndex Hindex)
        as (node & _ & ->).
      cbn [mbind result_bind].
      destruct (at_ok newGeneration next' Hnext) as (other & -> & Hother).
      cbn [mbind result_bind].
      assert (goodGenome other) as Ho.
      { eapply Forall_forall in Hgood; [exact Hgood|].
        by eapply list_elem_of_lookup_2. }
      pose proof (totalNodes_lookup_two newGeneration i next' genome other
                    (not_eq_sym Hne) Hgenome Hother) as Htwo.
      destruct (crossover_good traits genome other genomeIndex
                  (getType (definitionFor (genomeGrammar traits) (value node)))
                  rng2 Hg Ho Hindex)
        as (found & genome' & other' & rng3 & -> & Hg' & Ho' & Hsum);
        [clear IH E0 E1 E2; zlia|].
      cbn [mbind result_bind].
      pose proof (totalNodes_insert newGeneration i genome genome' Hgenome).
      assert (<[i := genome']> newGeneration !! next' = Some other) as Hother'
        by (by rewrite list_lookup_insert_ne).
      pose proof (totalNodes_insert (<[i := genome']> newGeneration) next'
                    other other' Hother').
      destruct (IH (S (S i))
                  (<[next' := other']> (<[i := genome']> newGeneration))
                  (mkWorld rng3 (host w0) (computeFitnessCalls w0)))
        as (newGeneration' & w' & -> & Hlen).
      * apply Forall_insert; [|done]. by apply Forall_insert.
      * by rewrite !length_insert.
      * by rewrite !length_insert.
      * rewrite !length_insert. fold L. lia.
      * rewrite !length_insert. fold L. rewrite E2. clear IH E0 E1 E2. zlia.
      * exists newGeneration', w'. split; [done|].
        by rewrite Hlen, !length_insert.
    + (* reproduction *)
      destruct (IH (S i) newGeneration w0) as (newGeneration' & w' & -> & Hlen);
        [done|done|done|lia|fold L; rewrite E1; clear IH E0 E1 E2; zlia|].
      by exists newGeneration', w'.
Qed.

End VariationLoop.

Lemma totalNodes_bounded (l : list (Tree Z)) bound :
  Forall (fun t => getNodeCount t ≤ bound) l →
  totalNodes l ≤ length l * bound.
Proof.
  unfold totalNodes. induction 1 as [|t l Ht _ IH]; [done|].
  rewrite fmap_cons. simpl sum_list. simpl length.
  rewrite Nat.mul_succ_l. lia.
Qed.

Lemma int_add_ok a b :
  (INT_MIN ≤ a + b ≤ INT_MAX)%Z → int_add a b = Ok (a + b)%Z.
Proof. intros. unfold int_add. by rewrite bool_decide_eq_true_2. Qed.

(** C7.  For an initialized population of at least 4 individuals, a host
    that keeps its contract and node counts within the 32-bit size field,
    [nextGeneration] returns: the population again holds as many individuals,
    the generation counter is one higher, and the last individual of the new
    generation is, unchanged, an individual of the previous generation whose
    fitness none exceeded. *)
Theorem nextGeneration_keeps_elite {fo : FloatOps} {Host}
    (params : EvolutionParameters) (traits : EvolvingPopulationDelegate Host)
    (maxNodes bound : nat) (p : Population) (w : World Host) (doDump : bool) :
  (∀ x, float_lt x x = false) →
  (∀ x y z, float_lt x y = true → float_lt y z = true → float_lt x z = true) →
  DelegateOk traits maxNodes →
  PopulationOk bound p →
  4 ≤ length (individuals p) →
  (Z.of_nat (length (individuals p) * (bound + maxNodes)) < 2 ^ 32)%Z →
  float_le (float_add (mutationRate params) (crossoverRate params))
           (float_of_int 1) = true →
  (doDump = true →
   Forall (fun t => isOk (printTree (genomeGrammar traits)
                                    (printerDelegate traits) t))
          (individuals p)) →
  ∃ p' w' best elite,
    nextGeneration params traits doDump p w = Ok (p', w')
    ∧ length (individuals p') = length (individuals p)
    ∧ generation p' = (generation p + 1)%Z
    ∧ individuals p !! best = Some elite
    ∧ last (individuals p') = Some elite
    ∧ fitnesses p'
      = (if (evaluatedGeneration p =? generation p)%Z then fitnesses p
         else (computeFitness traits (individuals p) (fitnesses p) (host w)).1)
    ∧ length (fitnesses p') = length (individuals p)
    ∧ bestOf (fitnesses p') best.
Proof.
  intros Hirrefl Htrans Hd Hp HN Hnodes Hrates Hprint.
  set (N := length (individuals p)) in *.
  assert (individuals p ≠ []) as Hne.
  { intros Hnil. unfold N in HN. rewrite Hnil in HN. simpl in HN. lia. }
  (* the node budget *)
  assert (1 ≤ bound) as Hbound1.
  { pose proof (individuals_good _ _ Hp) as Hgood.
    pose proof (individuals_bounded _ _ Hp) as Hle.
    destruct (individuals p) as [|t ts]; [done|].
    apply Forall_cons in Hgood as [Hgood _]. apply Forall_cons in Hle as [Hle _].
    apply goodGenome_count in Hgood. lia. }
  assert (∃ budget, N * (bound + maxNodes) = budget
            ∧ N ≤ budget
            ∧ (N - 1) * bound + (N - 1) * maxNodes ≤ budget)
    as (budget & Ebudget & HNle & Hbudget).
  { eexists. split; [done|]. split.
    - rewrite <- (Nat.mul_1_r N) at 1. apply Nat.mul_le_mono_l. lia.
    - rewrite <- Nat.mul_add_distr_l. apply Nat.mul_le_mono_r. lia. }
  rewrite Ebudget in Hnodes. clear Ebudget.
  unfold nextGeneration.
  destruct (evaluateGeneration_ok traits Hirrefl Htrans maxNodes bound p w Hd Hp Hne)
    as (best & p1 & w1 & -> & Hind & Hgen & Hlen & Hbest & Hscores & Hrng).
  cbn [mbind result_bind].
  assert (∃ text, (if doDump then dump traits false p1 else Ok "") = Ok text)
    as (text & ->).
  { destruct doDump; [|by eauto].
    pose proof (dump_ok traits Hirrefl Htrans p1) as Hdump.
    rewrite Hind in Hdump. specialize (Hdump Hlen Hne (Hprint eq_refl)).
    destruct (dump traits false p1); [by eauto|done]. }
  cbn [mbind result_bind].
  rewrite Hind.
  destruct (at_ok (individuals p) best) as (elite & -> & Helite).
  { rewrite <- Hlen. by apply bestOf_lt. }
  cbn [mbind result_bind]. rewrite Hrates. cbn [assert mbind result_bind].
  fold N.
  destruct (select_ok p1 [elite; elite] (rng w1)) as (picked & rng1 & Hsel & Hcount & Hpicked).
  { rewrite Hind. exact HN. }
  { by rewrite Hind. }
  { rewrite Hind. fold N. zlia. }
  rewrite Hind in Hsel, Hcount, Hpicked. fold N in Hsel, Hcount.
  rewrite Hsel. cbn [mbind result_bind].
  set (newGeneration := [elite; elite] ++ picked).
  assert (length newGeneration = N - 1) as HL.
  { unfold newGeneration. rewrite length_app, Hcount. simpl. lia. }
  assert (Forall (fun t => t ∈ individuals p) newGeneration) as Hfrom.
  { unfold newGeneration. apply Forall_app. split; [|done].
    assert (elite ∈ individuals p) by (by eapply list_elem_of_lookup_2).
    by repeat constructor. }
  assert (Forall goodGenome newGeneration) as Hgood.
  { eapply Forall_impl; [exact Hfrom|]. intros t Ht.
    pose proof (individuals_good _ _ Hp) as Hall.
    by eapply Forall_forall in Hall. }
  assert (totalNodes newGeneration ≤ (N - 1) * bound) as Htotal.
  { rewrite <- HL. apply totalNodes_bounded.
    eapply Forall_impl; [exact Hfrom|]. intros t Ht.
    pose proof (individuals_bounded _ _ Hp) as Hall.
    by eapply Forall_forall in Hall. }
  destruct (variation_ok params traits maxNodes Hd (length newGeneration) 0
              newGeneration (mkWorld rng1 (host w1) (computeFitnessCalls w1)))
    as (newGeneration' & w' & -> & HL').
  { done. }
  { lia. }
  { zlia. }
  { lia. }
  { rewrite Nat.sub_0_r, HL. zlia. }
  cbn [mbind result_bind].
  pose proof (generation_range _ _ Hp) as Hrange.
  rewrite Hgen, int_add_ok by (unfold INT_MIN, INT_MAX in *; zlia).
  cbn [mbind result_bind mret result_ret].
  eexists _, _, best, elite. split; [reflexivity|]. simpl.
  split_and!; try done.
  - rewrite length_app, HL', HL. simpl. lia.
  - by rewrite last_snoc.
Qed.

(** *** The example host keeps the contract *)

Lemma rational_lt_irrefl (x : @float rationalFloats) : float_lt x x = false.
Proof.
  simpl. apply negb_false_iff, QArith_base.Qle_bool_iff, QArith_base.Qle_refl.
Qed.

Lemma rational_lt_trans (x y z : @float rationalFloats) :
  float_lt x y = true → float_lt y z = true → float_lt x z = true.
Proof.
  simpl. rewrite !negb_true_iff. intros Hxy Hyz.
  apply not_true_is_false. intros Hzx. apply QArith_base.Qle_bool_iff in Hzx.
  apply not_true_iff_false in Hxy. apply Hxy, QArith_base.Qle_bool_iff.
  apply QArith_base.Qnot_lt_le. intros Hlt.
  apply not_true_iff_false in Hyz. apply Hyz, QArith_base.Qle_bool_iff.
  eapply QArith_base.Qle_trans; [exact Hzx|].
  by apply QArith_base.Qlt_le_weak.
Qed.

Lemma testGrammar_definitions v :
  getType (definitionFor testGrammar v) = 0%Z
  ∧ length (argumentTypes (definitionFor testGrammar v)) ≤ 2.
Proof.
  unfold definitionFor.
  generalize (definitionIdForTreeGenomeValue testGrammar v). intros id.
  do 6 (destruct id as [|id]; [split; [reflexivity|simpl; lia]|]).
  split; [reflexivity|simpl; lia].
Qed.

Lemma testGrammar_typeOk strategy : typeOk testGrammar strategy 0.
Proof.
  intros type' Hreach.
  rewrite (testGrammar_reachable 0 type' Hreach eq_refl). by vm_compute.
Qed.

(** Under [Grow] with depth 2 the tree is a terminal or one function over
    terminals. *)
Lemma testGrammar_grow_size (r : rose Z) :
  Generated testGrammar Grow 2 r → rsize r ≤ 3.
Proof.
  inversion 1 as [| |d v kids Hd Hfun Hne Hlen Hkids]; subst;
    [simpl; lia|simpl; lia|].
  destruct (testGrammar_definitions v) as [_ Hargs].
  rewrite rsize_Rose. rewrite <- Hlen in Hargs.
  assert (fsize kids = length kids) as ->; [|lia].
  clear -Hkids. induction Hkids as [|k kids Hk _ IH]; [done|].
  rewrite fsize_cons, IH.
  inversion Hk as [d1 v1 Hle Hterm|d1 v1 Hlt Hgrow Hterm
                  |d1 v1 kids1 Hlt Hfun1 Hne1 Hlen1 Hkids1]; subst.
  - reflexivity.
  - lia.
  - lia.
Qed.

Lemma testDelegate_ok : DelegateOk testDelegate 3.
Proof.
  split.
  - intros individuals scores h. simpl.
    rewrite length_take, length_app, length_map, length_drop. lia.
  - intros v h rng.
    change (genomeGrammar testDelegate) with testGrammar.
    destruct (testGrammar_definitions v) as [-> _].
    change (generateRandomTreeOfType testDelegate 0 h rng)
      with ('(builder, rng) ←
              generateGrow 2 (mkTreeGenerator testGrammar 20 39)
                (Builder_new Tree_new) 2 0 rng;
            mret (tree builder, h, rng)).
    unfold generateGrow.
    destruct (generate_ok testGrammar (mkTreeGenerator testGrammar 20 39)
                testGrammar_ok eq_refl Grow 2 2)
      with (b := Builder_new (@Tree_new Z)) (type := 0%Z) (rng := rng)
      as (r & [[ns] st] & rng' & -> & [_ Hnodes] & Hshape);
      [by vm_compute|lia|lia|done|apply testGrammar_typeOk|].
    simpl in Hnodes. subst ns.
    pose proof (testGrammar_grow_size r Hshape) as Hsize.
    cbn [mbind result_bind mret result_ret]. eexists _, _, _.
    split; [reflexivity|]. simpl.
    rewrite packed_flatten by zlia. split.
    + exists r. split; [done|zlia].
    + unfold getNodeCount. simpl. by rewrite length_flatten.
Qed.

Lemma nextGeneration_keeps_elite_witness :
  let p := testPopulation [genomeSinY; genomeX; genomePlusXY; genomeX] in
  ∃ p' w' best elite,
    nextGeneration testParameters testDelegate true p testWorld = Ok (p', w')
    ∧ length (individuals p') = 4
    ∧ generation p' = 1%Z
    ∧ individuals p !! best = Some elite
    ∧ last (individuals p') = Some elite
    ∧ bestOf (fitnesses p') best.
Proof.
  intros p.
  destruct (nextGeneration_keeps_elite testParameters testDelegate 3 3 p
              testWorld true)
    as (p' & w' & best & elite & Hrun & Hlen & Hgen & Hbest & Hlast & _ & _ & Hmax).
  - exact rational_lt_irrefl.
  - exact rational_lt_trans.
  - exact testDelegate_ok.
  - split.
    + reflexivity.
    + repeat constructor; eexists; by split.
    + repeat constructor.
    + by vm_compute.
    + intros Hcached. by vm_compute in Hcached.
  - simpl. lia.
  - by vm_compute.
  - reflexivity.
  - intros _. repeat constructor.
  - exists p', w', best, elite.
    split; [exact Hrun|]. split; [exact Hlen|]. split; [exact Hgen|].
    split; [exact Hbest|]. split; [exact Hlast|exact Hmax].
Defined.

(** ** The recomputation never runs out of fuel in [replace] *)

Section RecomputeFuel.
Context {T : Type}.
Implicit Types (t : Tree T).

Lemma sumChildSizes_progress (rec : Tree T → nat → result (Tree T * nat * Z))
    bound :
  (∀ t e, length (nodes t) < bound + e → e ≤ length (nodes t) →
          progresses true t e (rec t e)) →
  ∀ count t e acc,
    length (nodes t) < bound + e → e ≤ length (nodes t) →
    progresses false t e (sumChildSizes rec count t e acc).
Proof.
  intros Hrec. induction count as [|count IH]; intros t e acc Hlt Hle.
  - simpl. split; [done|]. split; lia.
  - simpl. specialize (Hrec t e Hlt Hle).
    destruct (rec t e) as [[[t1 e1] s]|f]; [|done].
    destruct Hrec as (Hlen & He & Hle1). cbn [mbind result_bind].
    specialize (IH t1 e1 (wrap32 (acc + s))). rewrite Hlen in IH.
    specialize (IH ltac:(lia) ltac:(lia)).
    destruct (sumChildSizes rec count t1 e1 _) as [[[t2 e2] s2]|f]; [|done].
    destruct IH as (Hlen2 & He2 & Hle2).
    split; [congruence|]. split; lia.
Qed.

Lemma recompute_fuel_enough fuel : ∀ t e nodeId newSize,
  length (nodes t) < fuel + e → e ≤ length (nodes t) →
  progresses true t e (recomputeSubTreeSizes fuel t e nodeId newSize).
Proof.
  induction fuel as [|fuel IH]; intros t e nodeId newSize Hlt Hle.
  - lia.
  - rewrite recomputeSubTreeSizes_S. unfold advance, nodeAt.
    destruct (nodes t !! e) as [n|] eqn:Hn; [|done].
    pose proof (lookup_lt_Some _ _ _ Hn) as Hin.
    cbn [mbind result_bind mret result_ret].
    destruct (childCount n =? 0)%Z; [simpl; split; [done|split; lia]|].
    pose proof (sumChildSizes_progress
                  (fun t' e' => recomputeSubTreeSizes fuel t' e' nodeId newSize)
                  fuel
                  (fun t' e' Hlt' Hle' => IH t' e' nodeId newSize Hlt' Hle')
                  (Z.to_nat (childCount n)) t (S e) 1%Z
                  ltac:(lia) ltac:(lia)) as Hsum.
    destruct (sumChildSizes _ _ t (S e) 1%Z) as [[[t2 e2] size]|f]; [|done].
    destruct Hsum as (Hlen & He & Hle2). cbn [mbind result_bind].
    unfold modifyNode. destruct (nodes t2 !! e) as [n2|]; [|done].
    simpl. rewrite length_insert. split; [done|]. split; lia.
Qed.

(** [replace] gives the recomputation one unit of fuel per node and one
    more, which is never used up. *)
Lemma replace_fuel_enough nodeId (subTree t : Tree T) :
  replace nodeId subTree t ≠ Fail OutOfFuel.
Proof.
  unfold replace, assert.
  case_bool_decide; [|done]. cbn [mbind result_bind].
  destruct (nodeAt t nodeId) as [n|f] eqn:Hn; cbn [mbind result_bind];
    [|unfold nodeAt in Hn; destruct (nodes t !! nodeId); by simplify_eq].
  case_bool_decide; [|done].
  set (inserted := take nodeId _ ++ _ ++ drop nodeId _).
  pose proof (recompute_fuel_enough (S (length inserted)) (mkTree inserted) 0
                nodeId (wrap32 (Z.of_nat (length (nodes subTree))))
                ltac:(simpl; lia) ltac:(simpl; lia)) as Hrec.
  destruct (recomputeSubTreeSizes _ _ 0 _ _) as [[[t' e'] size]|f];
    [|intros [=]; by subst].
  cbn [mbind result_bind]. unfold nodeAt.
  destruct (nodes t' !! 0); cbn [mbind result_bind]; [|done].
  by case_bool_decide.
Qed.

End RecomputeFuel.

(** ** The examples of the tests *)



(** The grammar test: the codes, the limits and the resolution of codes. *)
Lemma testGrammar_codes :
  getTerminalLimit testGrammar = 20%Z
  ∧ getFunctionLimit testGrammar = 19%Z
  ∧ getNodeLimit testGrammar = 39%Z
  ∧ (fun id => (getName (definitionAt testGrammar id),
                getNodeValue (definitionAt testGrammar id),
                getNumArguments (definitionAt testGrammar id))) <$> seq 0 5
    = [("x", 0, 0); ("y", 10, 0); ("+", 20, 2); ("*", 25, 2); ("sin", 36, 1)]%Z
  ∧ definitionIdForTreeGenomeValue testGrammar <$> [0; 10; 20; 25; 36; 38]%Z
    = [0; 1; 2; 3; 4; 4].
Proof. by vm_compute. Qed.

(** The typed grammar test: the order of the definitions and the limits of
    the definition sets. *)
Lemma testTypedGrammar_partition :
  (fun id => getName (definitionAt testTypedGrammar id)) <$> seq 0 12
  = ["x"; "y"; "randomColor"; "orange"; "+"; "*"; "sin"; "cos";
     "rgb"; "darker"; "lighter"; "grayscale"]
  ∧ (let set := setOf testTypedGrammar (invalidTypeId testTypedGrammar) in
     typeConstrainedTerminalLimit set = 26%Z
     ∧ typeConstrainedFunctionLimit set = 68%Z)
  ∧ (let set := definitionSetForType testTypedGrammar 0 in
     typeConstrainedTerminalLimit set = 20%Z
     ∧ typeConstrainedFunctionLimit set = 45%Z
     ∧ nodeValueForTypeConstrainedNodeValue set <$> [0; 10; 20]%Z
       = [0; 10; 26]%Z)
  ∧ (let set := definitionSetForType testTypedGrammar 1 in
     typeConstrainedTerminalLimit set = 6%Z
     ∧ typeConstrainedFunctionLimit set = 23%Z
     ∧ nodeValueForTypeConstrainedNodeValue set <$> [0; 6]%Z = [20; 51]%Z).
Proof. by vm_compute. Qed.

(** The printer test. *)
Lemma testPrinter_text :
  (b ← testPrinter_tree; printTree testGrammar None (tree b))
  = Ok ("(+ (sin x) (" +:+ "* y (sin y)))").
Proof. by vm_compute. Qed.

(** The genome test: the replacements, in the nodes of [TestNode]. *)
Lemma testGenome_replacements :
  let show (t : Tree TestNode) := value <$> nodes t in
  (sub ← getSubTree 1 testGenome_tree;
   g1 ← replace 4 (Another sub) testGenome_tree;
   g2 ← replace 0 (Another sub) g1;
   g3 ← replace 2 (mkTree [NodeStorage_new Zero]) g2;
   g4 ← replace 1 (mkTree [NodeStorage_new Zero]) g3;
   g5 ← replace 2 (Another sub) g4;
   zero2 ← getSubTree 1 g5;
   g6 ← replace 2 (Another zero2) g5;
   mret (show sub, show g1, show g2, show g3, show g4, show g5, show g6))
  = Ok ([Plus; One; One],
        [Plus; Plus; One; One; Plus; One; One],
        [Plus; One; One],
        [Plus; One; Zero],
        [Plus; Zero; Zero],
        [Plus; Zero; Plus; One; One],
        [Plus; Zero; Zero]).
Proof. by vm_compute. Qed.

(** The initializer test: population 2, depth 1, a delegate that forces the
    [rgb] root; both genomes have the root [rgb] over three leaves. *)
Lemma testRampedHalfAndHalfInitializer :
  let describe (e : Emitted) :=
    (emittedStrategy e,
     map childCount (nodes (emittedGenome e)),
     option_map value (head (nodes (emittedGenome e)))) in
  match RampedHalfAndHalfInitializer_new testInitGrammar
          (Some (testInitDelegate 2 30)) with
  | Ok init =>
      match initialize 2 init (mkInitializationOptions 1 2)
              (fun _ (count : nat) => S count) 0 testRNG with
      | Ok (_, log, _) => Some (map describe log)
      | Fail _ => None
      end
  | Fail _ => None
  end
  = Some [(Full, [3; 0; 0; 0]%Z, Some 30%Z); (Grow, [3; 0; 0; 0]%Z, Some 30%Z)].
Proof. by vm_compute. Qed.

(** * Further properties of the sources *)

(** ** tree.h *)

Section BuilderProtocol.
Context {T : Type}.
Implicit Types (r : rose T) (kids : list (rose T)) (b : Builder T).

Lemma emitRose_Rose v kids b :
  emitRose (Rose v kids) b =
  match kids with
  | [] => add v b
  | _ =>
      b ← push v b;
      b ← foldl (fun acc kid => b ← acc; emitRose kid b) (Ok b) kids;
      pop b
  end.
Proof. by destruct kids. Qed.

Lemma emitForest_extends kids :
  Forall (fun r => ∀ b, topValid b →
            ∃ b', emitRose r b = Ok b' ∧ extends 1 (rsize r) (packed r) b b')
         kids →
  ∀ b, topValid b →
    ∃ b', foldl (fun acc kid => b ← acc; emitRose kid b) (Ok b) kids = Ok b'
      ∧ extends (length kids) (fsize kids) (packedForest kids) b b'.
Proof.
  induction 1 as [|r kids Hr _ IH]; intros b Hb.
  - exists b. split; [done|]. by apply extends_nothing.
  - destruct (Hr b Hb) as (b1 & Hemit & Hext1).
    destruct (IH b1 (topValid_extends _ _ _ _ _ Hb Hext1)) as (b2 & Hrest & Hext2).
    exists b2. split.
    + simpl. rewrite Hemit. exact Hrest.
    + rewrite fsize_cons, packedForest_cons.
      change (length (r :: kids)) with (1 + length kids).
      by eapply extends_trans.
Qed.

Lemma emitRose_extends r : ∀ b, topValid b →
  ∃ b', emitRose r b = Ok b' ∧ extends 1 (rsize r) (packed r) b b'.
Proof.
  induction r as [v kids IH] using rose_forall_ind. intros b Hb.
  rewrite emitRose_Rose. destruct kids as [|kid kids].
  - rewrite packed_leaf. by apply add_extends.
  - set (all := kid :: kids) in *.
    destruct (push_pop_extends v (length all) (fsize all) (packedForest all)
                b Hb) as (b1 & Hpush & Hb1 & Hpop).
    destruct (emitForest_extends all IH b1 Hb1) as (b2 & Hkids & Hext).
    destruct (Hpop b2 Hext) as (b3 & Hpop3 & Hext3).
    exists b3. rewrite Hpush. cbn [mbind result_bind].
    rewrite Hkids. cbn [mbind result_bind]. split; [done|].
    by rewrite rsize_Rose, packed_Rose.
Qed.

End BuilderProtocol.

(** X1.  The builder calls that follow the shape of a tree (an [add] for a
    node without children; [push], the children, [pop] for any other node)
    turn the empty tree into the preorder layout of that tree, every node
    with the number of its children and the size of its sub-tree, and leave
    no parent open. *)
Theorem emitRose_builds_layout {T} (r : rose T) :
  (Z.of_nat (rsize r) < 2 ^ 32)%Z →
  emitRose r (Builder_new Tree_new) = Ok (mkBuilder (mkTree (flatten r)) [])
  ∧ wellFormed (mkTree (flatten r)).
Proof.
  intros Hbound.
  destruct (emitRose_extends r (Builder_new Tree_new) I) as (b' & Hemit & Hext).
  destruct Hext as [Hstack Hnodes]. simpl in Hstack, Hnodes.
  rewrite packed_flatten in Hnodes by done.
  split; [|right; by exists r].
  rewrite Hemit. destruct b' as [[ns] st]. simpl in *. by subst.
Qed.

Lemma emitRose_builds_layout_witness :
  emitRose testGenome_rose (Builder_new Tree_new)
  = Ok (mkBuilder testGenome_tree [])
  ∧ wellFormed testGenome_tree.
Proof. apply (emitRose_builds_layout testGenome_rose). by vm_compute. Defined.

(** X2.  In a well-formed tree the sub-tree at a valid index is the slice of
    the node array that starts at the index and is as long as the stored
    size says; it is not empty, lies within the array and is itself well
    formed. *)
Theorem getSubTree_slice {T} (t : Tree T) (i : nat) :
  wellFormed t → i < getNodeCount t →
  ∃ s, getSubTree i t = Ok s
     ∧ nodes s = take (sizeAt t i) (drop i (nodes t))
     ∧ getNodeCount s = sizeAt t i
     ∧ 0 < sizeAt t i ∧ i + sizeAt t i ≤ getNodeCount t
     ∧ wellFormed s.
Proof.
  intros [Hnil|(r & Hr)] Hi; unfold getNodeCount in *.
  { rewrite Hnil in Hi. simpl in Hi. lia. }
  destruct (represents_index r t i Hr Hi) as (c & s & -> & <-).
  destruct Hr as [Ht Hbound]. rewrite rsize_plug in Hbound.
  exists (mkTree (flatten s)).
  rewrite (sizeAt_plug c s t Ht), (getSubTree_plug c s t Ht), Ht.
  pose proof (rsize_pos s). pose proof (cpos_le_csize c).
  split_and!; try done.
  - rewrite drop_plug, <- (length_flatten s). by rewrite take_app_length.
  - simpl. by rewrite length_flatten.
  - rewrite length_flatten, rsize_plug. lia.
  - right. exists s. split; [done|lia].
Qed.

Lemma getSubTree_slice_witness :
  ∃ s, getSubTree 1 testGenome_tree = Ok s
     ∧ nodes s = take (sizeAt testGenome_tree 1) (drop 1 (nodes testGenome_tree))
     ∧ getNodeCount s = sizeAt testGenome_tree 1
     ∧ 0 < sizeAt testGenome_tree 1
     ∧ 1 + sizeAt testGenome_tree 1 ≤ getNodeCount testGenome_tree
     ∧ wellFormed s.
Proof.
  apply (getSubTree_slice testGenome_tree 1);
    [exact testGenome_tree_wellFormed | vm_compute; lia].
Defined.

(** X3.  Replacing the root replaces the whole tree: on a well-formed,
    non-empty tree the result of [replace(0, sub)], for a replacement [sub]
    that is another object than the tree, is [sub].  With the tree itself
    as the replacement, [t.replace(0, t)], the call yields no tree: the
    whole vector is erased and is then the range to insert. *)
Theorem replace_root {T} (t sub : Tree T) :
  wellFormed t → nodes t ≠ [] → wellFormed sub → nodes sub ≠ [] →
  replace 0 (Another sub) t = Ok sub
  ∧ replace 0 Itself t = Fail OverlappingRange.
Proof.
  intros [Hnil|(r & Ht & _)] Hne [Hsnil|(s' & Hs' & Hbound)] Hsne; try done.
  split.
  - pose proof (replace_plug Hole r s' t sub Ht Hs' Hbound) as Hrep.
    simpl in Hrep. rewrite Hrep.
    destruct sub as [ns]. simpl in *. by subst.
  - exact (replace_itself_plug Hole r t Ht).
Qed.

Lemma replace_root_witness :
  replace 0 (Another testGenome_sub) testGenome_tree = Ok testGenome_sub
  ∧ replace 0 Itself testGenome_tree = Fail OverlappingRange.
Proof.
  apply replace_root;
    [exact testGenome_tree_wellFormed | done
    |exact testGenome_sub_wellFormed | done].
Defined.

Section ReplaceTwice.
Context {T : Type}.
Implicit Types (t sub : Tree T).

(** The shape of a valid replacement: the context of the index, the old
    sub-tree and the new one. *)
Lemma replace_decomposed t sub i :
  wellFormed t → i < getNodeCount t →
  wellFormed sub → nodes sub ≠ [] →
  (Z.of_nat (getNodeCount t - sizeAt t i + getNodeCount sub) < 2 ^ 32)%Z →
  ∃ c s s',
    cpos c = i ∧ nodes t = flatten (plug c s) ∧ nodes sub = flatten s'
    ∧ (Z.of_nat (rsize (plug c s')) < 2 ^ 32)%Z
    ∧ replace i sub t = Ok (mkTree (flatten (plug c s'))).
Proof.
  unfold getNodeCount.
  intros [Hnil|(r & Hr)] Hi [Hsnil|(s' & Hs' & _)] Hne Hbound; try done.
  { rewrite Hnil in Hi. simpl in Hi. lia. }
  destruct (represents_index r t i Hr Hi) as (c & s & -> & <-).
  destruct Hr as [Ht _].
  rewrite (sizeAt_plug c s t Ht), Ht, Hs', !length_flatten, rsize_plug in Hbound.
  assert (Z.of_nat (rsize (plug c s')) < 2 ^ 32)%Z as Hfit
    by (rewrite rsize_plug; lia).
  exists c, s, s'. split_and!; try done.
  by apply (replace_plug c s s').
Qed.

End ReplaceTwice.

(** X4.  What [replace] puts at an index, [getSubTree] reads back from that
    index: after a valid replacement by a tree [sub] that is another object
    than the tree changed, the sub-tree at the index is the replacement,
    node for node. *)
Theorem replace_then_getSubTree {T} (t sub : Tree T) (i : nat) :
  wellFormed t → i < getNodeCount t →
  wellFormed sub → nodes sub ≠ [] →
  (Z.of_nat (getNodeCount t - sizeAt t i + getNodeCount sub) < 2 ^ 32)%Z →
  ∃ t', replace i (Another sub) t = Ok t' ∧ getSubTree i t' = Ok sub.
Proof.
  intros Ht Hi Hsub Hne Hbound.
  destruct (replace_decomposed t sub i Ht Hi Hsub Hne Hbound)
    as (c & s & s' & <- & _ & Hs' & _ & Hrep).
  eexists. split; [exact Hrep|].
  rewrite (getSubTree_plug c s' (mkTree (flatten (plug c s')))) by done.
  destruct sub as [ns]. simpl in Hs'. by subst.
Qed.

Lemma replace_then_getSubTree_witness :
  ∃ t', replace 4 (Another testGenome_sub) testGenome_tree = Ok t'
      ∧ getSubTree 4 t' = Ok testGenome_sub.
Proof.
  apply replace_then_getSubTree;
    [exact testGenome_tree_wellFormed | vm_compute; lia
    |exact testGenome_sub_wellFormed | done | by vm_compute].
Defined.

(** X5.  A second replacement at the same index overrides the first: for
    replacements [sub1] and [sub2] that are other objects than the tree
    changed, the result is the one of the second replacement alone.  In
    particular, putting a copy of the old sub-tree back undoes a
    replacement. *)
Theorem replace_overrides {T} (t sub1 sub2 : Tree T) (i : nat) :
  wellFormed t → i < getNodeCount t →
  wellFormed sub1 → nodes sub1 ≠ [] →
  wellFormed sub2 → nodes sub2 ≠ [] →
  (Z.of_nat (getNodeCount t - sizeAt t i + getNodeCount sub1) < 2 ^ 32)%Z →
  (Z.of_nat (getNodeCount t - sizeAt t i + getNodeCount sub2) < 2 ^ 32)%Z →
  ∃ t1 t2, replace i (Another sub1) t = Ok t1
    ∧ replace i (Another sub2) t1 = Ok t2
    ∧ replace i (Another sub2) t = Ok t2.
Proof.
  intros Ht Hi Hsub1 Hne1 Hsub2 Hne2 Hbound1 Hbound2.
  destruct (replace_decomposed t sub1 i Ht Hi Hsub1 Hne1 Hbound1)
    as (c & s & s1 & <- & Hnodes & Hs1 & _ & Hrep1).
  destruct Hsub2 as [Hnil|(s2 & Hs2 & _)]; [done|].
  assert (Z.of_nat (rsize (plug c s2)) < 2 ^ 32)%Z as Hfit.
  { unfold getNodeCount in Hbound2.
    rewrite (sizeAt_plug c s t Hnodes), Hnodes, Hs2, !length_flatten,
      rsize_plug in Hbound2.
    rewrite rsize_plug. lia. }
  exists (mkTree (flatten (plug c s1))), (mkTree (flatten (plug c s2))).
  split; [exact Hrep1|]. split.
  - by apply (replace_plug c s1 s2).
  - by apply (replace_plug c s s2).
Qed.

Lemma replace_overrides_witness :
  ∃ t1 t2,
    replace 4 (Another testGenome_sub) testGenome_tree = Ok t1
    ∧ replace 4 (Another (mkTree (flatten (Rose Zero [])))) t1 = Ok t2
    ∧ replace 4 (Another (mkTree (flatten (Rose Zero []))))
        testGenome_tree = Ok t2.
Proof.
  apply replace_overrides;
    [exact testGenome_tree_wellFormed | vm_compute; lia
    |exact testGenome_sub_wellFormed | done
    |right; exists (Rose Zero []); by split | done
    |by vm_compute | by vm_compute].
Defined.

(** X6.  The size recomputation repairs stale sizes: on a node array that
    has the values and the child counts of the layout of a tree, and the
    size 1 at every node without children, the walk from the root stores the
    right size at every node, stops behind the last node and returns the
    number of nodes, whatever sizes the other nodes held and whatever the
    two extra arguments are. *)
Theorem recomputeSubTreeSizes_repairs {T} (r : rose T)
    (L : list (NodeStorage T)) (nodeId : nat) (newSubTreeSize : Z) :
  Forall2 stale L (flatten r) →
  (Z.of_nat (rsize r) < 2 ^ 32)%Z →
  recomputeSubTreeSizes (S (length L)) (mkTree L) 0 nodeId newSubTreeSize
  = Ok (mkTree (flatten r), length L, Z.of_nat (length L))
  ∧ wellFormed (mkTree (flatten r)).
Proof.
  intros Hstale Hbound.
  pose proof (Forall2_length _ _ _ Hstale) as Hlen.
  rewrite length_flatten in Hlen. rewrite Hlen.
  split; [|right; by exists r].
  apply recompute_whole; [done|lia|done].
Qed.

Lemma recomputeSubTreeSizes_repairs_witness :
  recomputeSubTreeSizes 6
    (mkTree [mkNodeStorage Plus 2 77; mkNodeStorage Plus 2 0;
             mkNodeStorage One 0 1; mkNodeStorage One 0 1;
             mkNodeStorage Zero 0 1]) 0 3 9
  = Ok (testGenome_tree, 5, 5%Z)
  ∧ wellFormed testGenome_tree.
Proof.
  apply (recomputeSubTreeSizes_repairs testGenome_rose
           [mkNodeStorage Plus 2 77; mkNodeStorage Plus 2 0;
            mkNodeStorage One 0 1; mkNodeStorage One 0 1;
            mkNodeStorage Zero 0 1] 3 9).
  - repeat constructor; simpl; try done; intros; lia.
  - by vm_compute.
Defined.

Section Iteration.
Context {T : Type}.
Implicit Types (r s : rose T) (kids : list (rose T)).
Implicit Types (pre post : list (NodeStorage T)).

Lemma length_childPositions kids start :
  length (childPositions start kids) = length kids.
Proof.
  revert start. induction kids as [|kid kids IH]; intros start; [done|].
  simpl. by rewrite IH.
Qed.

Lemma lookup_childPositions kids : ∀ start j,
  j < length kids →
  childPositions start kids !! j = Some (start + fsize (take j kids)).
Proof.
  induction kids as [|kid kids IH]; intros start j Hj; simpl in Hj; [lia|].
  destruct j as [|j]; simpl.
  - f_equal. unfold fsize. simpl. lia.
  - rewrite IH by lia. f_equal. rewrite fsize_cons. lia.
Qed.

Lemma lookup_middle_flatten pre s post : ∃ n,
  (pre ++ flatten s ++ post) !! length pre = Some n
  ∧ subTreeSize n = Z.of_nat (rsize s)
  ∧ childCount n = Z.of_nat (match s with Rose _ kids => length kids end)
  ∧ value n = match s with Rose v _ => v end.
Proof.
  destruct s as [v kids]. rewrite flatten_Rose.
  exists (mkNodeStorage v (Z.of_nat (length kids)) (Z.of_nat (S (fsize kids)))).
  split; [by rewrite <- app_comm_cons, list_lookup_middle|].
  by rewrite rsize_Rose.
Qed.

Lemma fsize_ge_length kids : length kids ≤ fsize kids.
Proof.
  induction kids as [|kid kids IH]; [done|].
  rewrite fsize_cons. pose proof (rsize_pos kid). simpl. lia.
Qed.

Lemma iterate_forest kids : ∀ pre post fuel,
  length kids ≤ fuel →
  iterate fuel (mkTree (pre ++ flattenForest kids ++ post))
    (length pre) (length pre + fsize kids)
  = Ok (childPositions (length pre) kids).
Proof.
  induction kids as [|kid kids IH]; intros pre post fuel Hfuel.
  - unfold fsize. simpl. rewrite Nat.add_0_r.
    destruct fuel; simpl; by rewrite bool_decide_eq_true_2.
  - destruct fuel as [|fuel]; [simpl in Hfuel; lia|].
    pose proof (rsize_pos kid). rewrite fsize_cons.
    cbn [iterate]. rewrite bool_decide_eq_false_2 by lia.
    rewrite flattenForest_cons, <- (assoc_L (++)).
    unfold assert, nodeAt. cbn [nodes].
    rewrite bool_decide_eq_true_2
      by (rewrite !length_app, length_flatten; lia).
    cbn [mbind result_bind].
    destruct (lookup_middle_flatten pre kid (flattenForest kids ++ post))
      as (n & -> & Hsize & _).
    cbn [mbind result_bind]. rewrite Hsize, Nat2Z.id.
    specialize (IH (pre ++ flatten kid) post fuel).
    rewrite length_app, length_flatten, <- (assoc_L (++)) in IH.
    rewrite Nat.add_assoc, IH by (simpl in Hfuel; lia).
    reflexivity.
Qed.

Lemma stepIterator_forest kids : ∀ pre post j,
  j ≤ length kids →
  stepIterator (mkTree (pre ++ flattenForest kids ++ post)) j (length pre)
  = Ok (length pre + fsize (take j kids)).
Proof.
  induction kids as [|kid kids IH]; intros pre post j Hj.
  - simpl in Hj. assert (j = 0) as -> by lia. simpl. f_equal.
    unfold fsize. simpl. lia.
  - destruct j as [|j]; [simpl; f_equal; unfold fsize; simpl; lia|].
    cbn [stepIterator take]. rewrite fsize_cons.
    rewrite flattenForest_cons, <- (assoc_L (++)).
    unfold nodeAt. cbn [nodes].
    destruct (lookup_middle_flatten pre kid (flattenForest kids ++ post))
      as (n & -> & Hsize & _).
    cbn [mbind result_bind]. rewrite Hsize, Nat2Z.id.
    specialize (IH (pre ++ flatten kid) post j).
    rewrite length_app, length_flatten, <- (assoc_L (++)) in IH.
    rewrite Nat.add_assoc, IH by (simpl in Hj; lia).
    reflexivity.
Qed.

Lemma getSubTree_middle pre s post :
  getSubTree (length pre) (mkTree (pre ++ flatten s ++ post))
  = Ok (mkTree (flatten s)).
Proof.
  unfold getSubTree, assert, nodeAt. cbn [nodes].
  pose proof (rsize_pos s).
  rewrite bool_decide_eq_true_2
    by (rewrite !length_app, length_flatten; lia).
  cbn [mbind result_bind].
  destruct (lookup_middle_flatten pre s post) as (n & -> & Hsize & _).
  cbn [mbind result_bind]. rewrite Hsize, Nat2Z.id.
  rewrite bool_decide_eq_true_2
    by (rewrite !length_app, length_flatten; lia).
  rewrite drop_app_length, <- (length_flatten s), take_app_length.
  reflexivity.
Qed.

Lemma getSubTree_forest kids : ∀ pre post,
  Forall2 (fun k kid =>
             getSubTree k (mkTree (pre ++ flattenForest kids ++ post))
             = Ok (mkTree (flatten kid)))
          (childPositions (length pre) kids) kids.
Proof.
  induction kids as [|kid kids IH]; intros pre post; [constructor|].
  simpl. constructor.
  - rewrite flattenForest_cons, <- (assoc_L (++)). apply getSubTree_middle.
  - specialize (IH (pre ++ flatten kid) post).
    rewrite length_app, length_flatten, <- (assoc_L (++)) in IH.
    by rewrite flattenForest_cons, <- (assoc_L (++)).
Qed.

(** The layout around the children of the node in the hole of a context. *)
Lemma flatten_plug_children c v kids :
  ∃ pre, length pre = S (cpos c)
    ∧ flatten (plug c (Rose v kids)) = pre ++ flattenForest kids ++ csuffix c
    ∧ pre !! cpos c
      = Some (mkNodeStorage v (Z.of_nat (length kids))
                            (Z.of_nat (S (fsize kids)))).
Proof.
  exists (cprefix c (rsize (Rose v kids))
          ++ [mkNodeStorage v (Z.of_nat (length kids))
                            (Z.of_nat (S (fsize kids)))]).
  split_and!.
  - rewrite length_app, length_cprefix. simpl. lia.
  - rewrite flatten_plug, flatten_Rose, <- (assoc_L (++)). reflexivity.
  - rewrite <- (length_cprefix c (rsize (Rose v kids))).
    by rewrite list_lookup_middle.
Qed.

Lemma Node_children_plug c v kids (t : Tree T) :
  nodes t = flatten (plug c (Rose v kids)) →
  Node_size t (cpos c) = Ok (Z.of_nat (length kids))
  ∧ Node_children t (cpos c) = Ok (childPositions (S (cpos c)) kids)
  ∧ Forall2 (fun k kid => getSubTree k t = Ok (mkTree (flatten kid)))
            (childPositions (S (cpos c)) kids) kids.
Proof.
  intros Ht.
  destruct (flatten_plug_children c v kids) as (pre & Hpre & Hflat & Hnode).
  assert (nodes t !! cpos c
          = Some (mkNodeStorage v (Z.of_nat (length kids))
                                (Z.of_nat (S (fsize kids))))) as Hlook.
  { rewrite Ht, Hflat. apply lookup_app_l_Some. exact Hnode. }
  destruct t as [ns]. simpl in Ht, Hlook. split_and!.
  - unfold Node_size, nodeAt. cbn [nodes]. by rewrite Hlook.
  - unfold Node_children, nodeAt. cbn [nodes]. rewrite Hlook.
    cbn [mbind result_bind subTreeSize]. rewrite Nat2Z.id.
    replace (cpos c + 1) with (length pre) by lia.
    replace (cpos c + S (fsize kids)) with (length pre + fsize kids) by lia.
    replace (S (cpos c)) with (length pre) by lia.
    rewrite Ht, Hflat. apply iterate_forest.
    rewrite !length_app, length_flattenForest.
    pose proof (fsize_ge_length kids). lia.
  - rewrite Ht, Hflat, <- Hpre. apply getSubTree_forest.
Qed.

Lemma fsize_take_lt kids j :
  j < length kids → fsize (take j kids) < fsize kids.
Proof.
  intros Hj. rewrite <- (take_drop j kids) at 2. rewrite fsize_app.
  pose proof (fsize_ge_length (drop j kids)) as Hd.
  rewrite length_drop in Hd. lia.
Qed.

Lemma Node_at_plug c v kids (t : Tree T) j :
  nodes t = flatten (plug c (Rose v kids)) →
  Node_at t (cpos c) j
  = match childPositions (S (cpos c)) kids !! j with
    | Some k => Ok k
    | None => Fail AssertionFailed
    end.
Proof.
  intros Ht. destruct (Node_children_plug c v kids t Ht) as (Hsize & _ & _).
  unfold Node_at. rewrite Hsize. cbn [mbind result_bind]. unfold assert.
  destruct (decide (j < length kids)) as [Hj|Hj].
  - rewrite bool_decide_eq_true_2 by lia. cbn [mbind result_bind].
    rewrite lookup_childPositions by done.
    destruct (flatten_plug_children c v kids) as (pre & Hpre & Hflat & _).
    destruct t as [ns]. simpl in Ht. subst ns. rewrite Hflat.
    replace (cpos c + 1) with (length pre) by lia.
    rewrite stepIterator_forest by lia. cbn [mbind result_bind nodes].
    pose proof (fsize_take_lt kids j Hj).
    rewrite bool_decide_eq_true_2
      by (rewrite !length_app, length_flattenForest; lia).
    cbn [mbind result_bind mret result_ret]. f_equal. lia.
  - rewrite bool_decide_eq_false_2 by lia. cbn [mbind result_bind].
    rewrite lookup_ge_None_2; [done|]. rewrite length_childPositions. lia.
Qed.

Lemma Tree_roots_forest_single r :
  Tree_roots (mkTree (flatten r)) = Ok [0].
Proof.
  unfold Tree_roots. cbn [nodes].
  pose proof (iterate_forest [r] [] [] (length (flatten r))) as H.
  unfold flattenForest, fsize in H. cbn in H.
  rewrite !app_nil_r, Nat.add_0_r in H. rewrite length_flatten in H |- *.
  apply H. pose proof (rsize_pos r). lia.
Qed.

End Iteration.

(** X7.  Iterating over a node of a well-formed tree visits its children
    and nothing else: as many nodes as the child count says, from left to
    right, each the root of one child, so that the sub-tree at the k-th
    visited index is the k-th child. *)
Theorem Node_children_visits_children {T} (t : Tree T) (i : nat) :
  wellFormed t → i < getNodeCount t →
  ∃ c v kids,
    nodes t = flatten (plug c (Rose v kids)) ∧ cpos c = i
    ∧ Node_size t i = Ok (Z.of_nat (length kids))
    ∧ Node_children t i = Ok (childPositions (S i) kids)
    ∧ Forall2 (fun k kid => getSubTree k t = Ok (mkTree (flatten kid)))
              (childPositions (S i) kids) kids.
Proof.
  intros [Hnil|(r & Hr)] Hi; unfold getNodeCount in *.
  { rewrite Hnil in Hi. simpl in Hi. lia. }
  destruct (represents_index r t i Hr Hi) as (c & [v kids] & -> & <-).
  destruct Hr as [Ht _]. exists c, v, kids.
  split; [exact Ht|]. split; [done|]. by apply (Node_children_plug c v kids).
Qed.

Lemma Node_children_visits_children_witness :
  ∃ c v kids,
    nodes testGenome_tree = flatten (plug c (Rose v kids)) ∧ cpos c = 0
    ∧ Node_size testGenome_tree 0 = Ok (Z.of_nat (length kids))
    ∧ Node_children testGenome_tree 0 = Ok (childPositions 1 kids)
    ∧ Forall2 (fun k kid =>
                 getSubTree k testGenome_tree = Ok (mkTree (flatten kid)))
              (childPositions 1 kids) kids.
Proof.
  apply (Node_children_visits_children testGenome_tree 0);
    [exact testGenome_tree_wellFormed | vm_compute; lia].
Defined.

(** X8.  Iterating over a tree object visits the roots of the trees that
    its node array holds one after the other, in order: nothing for the
    empty array, the index 0 alone for a single tree.  [first()] returns the
    index 0, and fails its assertion on the empty array. *)
Theorem Tree_roots_forest {T} (kids : list (rose T)) :
  Tree_roots (mkTree (flattenForest kids)) = Ok (childPositions 0 kids)
  ∧ Tree_first (mkTree (flattenForest kids))
    = match kids with [] => Fail AssertionFailed | _ => Ok 0 end.
Proof.
  split.
  - unfold Tree_roots. cbn [nodes].
    pose proof (iterate_forest kids [] [] (length (flattenForest kids))) as H.
    rewrite app_nil_r in H. cbn [app length] in H.
    rewrite length_flattenForest in H |- *.
    apply H. apply fsize_ge_length.
  - unfold Tree_first, assert. cbn [nodes]. rewrite length_flattenForest.
    destruct kids as [|kid kids]; [done|].
    rewrite fsize_cons. pose proof (rsize_pos kid).
    by rewrite bool_decide_eq_true_2 by lia.
Qed.

(** X9.  [node[j]] on a node of a well-formed tree is the j-th index that
    iterating over the node visits; when the node has no more than [j]
    children, it fails its assertion. *)
Theorem Node_at_is_jth_child {T} (t : Tree T) (i j : nat) :
  wellFormed t → i < getNodeCount t →
  ∃ kids,
    Node_children t i = Ok kids
    ∧ Node_at t i j
      = match kids !! j with Some k => Ok k | None => Fail AssertionFailed end.
Proof.
  intros [Hnil|(r & Hr)] Hi; unfold getNodeCount in *.
  { rewrite Hnil in Hi. simpl in Hi. lia. }
  destruct (represents_index r t i Hr Hi) as (c & [v kids] & -> & <-).
  destruct Hr as [Ht _].
  destruct (Node_children_plug c v kids t Ht) as (_ & Hkids & _).
  exists (childPositions (S (cpos c)) kids). split; [exact Hkids|].
  by apply (Node_at_plug c v kids).
Qed.

Lemma Node_at_is_jth_child_witness :
  ∃ kids,
    Node_children testGenome_tree 0 = Ok kids
    ∧ Node_at testGenome_tree 0 1
      = match kids !! 1 with Some k => Ok k | None => Fail AssertionFailed end.
Proof.
  apply (Node_at_is_jth_child testGenome_tree 0 1);
    [exact testGenome_tree_wellFormed | vm_compute; lia].
Defined.

(** ** treePrinter.h *)

Lemma string_app_assoc (a b c : string) : (a +:+ b) +:+ c = a +:+ b +:+ c.
Proof.
  induction a as [|x a IH]; [done|].
  change (String x ((a +:+ b) +:+ c) = String x (a +:+ b +:+ c)).
  by rewrite IH.
Qed.

Lemma foldl_Fail {A B} (f : A → B → result A) (l : list B) e :
  foldl (fun acc x => a ← acc; f a x) (Fail e) l = Fail e.
Proof. induction l as [|x l IH]; [done|]. simpl. exact IH. Qed.

(** Folding over the indices of the children with a function of the packed
    tree is folding over the children with what the function computes for
    each of them. *)
Lemma foldl_Forall2 {A B K R} (rec : K → result B) (spec : R → result B)
    (step : A → B → result A) ks rs :
  Forall2 (fun k r => rec k = spec r) ks rs →
  ∀ acc, foldl (fun acc k => a ← acc; c ← rec k; step a c) acc ks
       = foldl (fun acc r => a ← acc; c ← spec r; step a c) acc rs.
Proof.
  induction 1 as [|k r ks rs Hk _ IH]; intros acc; [done|].
  simpl. rewrite Hk. apply IH.
Qed.

Section Children.
Context {T : Type}.
Implicit Types (kids : list (rose T)) (pre post : list (NodeStorage T)).

Lemma children_Forall2 {B} (f : Tree T → nat → B) (spec : rose T → B) kids :
  Forall (fun kid => ∀ pre post,
            f (mkTree (pre ++ flatten kid ++ post)) (length pre) = spec kid)
         kids →
  ∀ pre post,
    Forall2 (fun k kid =>
               f (mkTree (pre ++ flattenForest kids ++ post)) k = spec kid)
            (childPositions (length pre) kids) kids.
Proof.
  induction 1 as [|kid kids Hkid _ IH]; intros pre post; [constructor|].
  simpl. constructor.
  - rewrite flattenForest_cons, <- (assoc_L (++)). apply Hkid.
  - specialize (IH (pre ++ flatten kid) post).
    rewrite length_app, length_flatten, <- (assoc_L (++)) in IH.
    by rewrite flattenForest_cons, <- (assoc_L (++)).
Qed.

Lemma rsize_le_fsize kids kid : kid ∈ kids → rsize kid ≤ fsize kids.
Proof.
  induction 1 as [kid kids|kid kid' kids _ IH]; rewrite fsize_cons; lia.
Qed.

Lemma Node_children_middle pre v kids post :
  Node_children (mkTree (pre ++ flatten (Rose v kids) ++ post)) (length pre)
  = Ok (childPositions (S (length pre)) kids).
Proof.
  unfold Node_children, nodeAt. cbn [nodes].
  destruct (lookup_middle_flatten pre (Rose v kids) post)
    as (n & -> & Hsize & _).
  cbn [mbind result_bind]. rewrite Hsize, Nat2Z.id, rsize_Rose, flatten_Rose.
  pose proof (iterate_forest kids
                (pre ++ [mkNodeStorage v (Z.of_nat (length kids))
                                       (Z.of_nat (S (fsize kids)))])
                post) as Hit.
  rewrite length_app in Hit. cbn [length] in Hit.
  rewrite <- (assoc_L (++)) in Hit. cbn [app] in Hit.
  replace (length pre + S (fsize kids)) with (length pre + 1 + fsize kids)
    by lia.
  rewrite Hit; [by rewrite Nat.add_1_r|].
  rewrite !length_app. cbn [length]. rewrite length_flattenForest.
  pose proof (fsize_ge_length kids). lia.
Qed.

End Children.

Lemma print_S fuel defs delegate (t : Tree Z) nodeId :
  print (S fuel) defs delegate t nodeId =
  node ← nodeAt t nodeId;
  let definition := definitionFor defs (value node) in
  if isTerminal definition then
    _ ← assert (childCount node =? 0)%Z;
    match delegate with
    | Some printTerminal =>
        let written := printTerminal definition t nodeId in
        if written.2 then mret written.1
        else mret (written.1 +:+ getName definition)
    | None => mret (getName definition)
    end
  else
    _ ← assert (childCount node =? getNumArguments definition)%Z;
    kids ← Node_children t nodeId;
    rest ← foldl (fun acc child =>
                    text ← acc;
                    c ← print fuel defs delegate t child;
                    mret (text +:+ " " +:+ c))
                 (Ok "") kids;
    mret ("(" +:+ getName definition +:+ rest +:+ ")").
Proof. reflexivity. Qed.

Section PrinterFacts.
Context (g : Grammar).

Lemma printed_forest kids : ∀ acc,
  foldl (fun acc kid => text ← acc; c ← printed g kid; mret (text +:+ " " +:+ c))
        (Ok acc) kids
  = if forallb (shaped g) kids
    then Ok (foldl (fun text kid => text +:+ " " +:+ render g kid) acc kids)
    else Fail AssertionFailed.
Proof.
  induction kids as [|kid kids IH]; intros acc; [done|].
  cbn [foldl forallb]. unfold printed at 2.
  destruct (shaped g kid); cbn [mbind result_bind mret result_ret andb].
  - apply IH.
  - apply (foldl_Fail (fun a kid => c ← printed g kid; mret (a +:+ " " +:+ c))).
Qed.

Lemma render_fold (kids : list (rose Z)) : ∀ acc tail,
  foldl (fun text kid => text +:+ " " +:+ render g kid) acc kids +:+ tail
  = acc +:+ foldr (fun kid rest => " " +:+ render g kid +:+ rest) tail kids.
Proof.
  induction kids as [|kid kids IH]; intros acc tail; [done|].
  cbn [foldl foldr]. rewrite IH. by rewrite !string_app_assoc.
Qed.

Lemma print_middle (r : rose Z) : ∀ fuel pre post,
  rsize r ≤ fuel →
  print fuel g None (mkTree (pre ++ flatten r ++ post)) (length pre)
  = printed g r.
Proof.
  induction r as [v kids IH] using rose_forall_ind.
  intros fuel pre post Hfuel.
  destruct fuel as [|fuel]; [rewrite rsize_Rose in Hfuel; lia|].
  rewrite print_S. unfold nodeAt. cbn [nodes].
  destruct (lookup_middle_flatten pre (Rose v kids) post)
    as (n & -> & _ & Hcount & Hvalue).
  cbn [mbind result_bind]. rewrite Hvalue, Hcount. unfold printed.
  cbn [shaped render]. unfold assert.
  destruct (isTerminal (definitionFor g v)).
  { destruct kids as [|kid kids]; [done|].
    by rewrite (proj2 (Z.eqb_neq _ _)) by (cbn [length]; lia). }
  destruct (Z.of_nat (length kids) =? getNumArguments (definitionFor g v))%Z;
    [|done].
  cbn [mbind result_bind andb]. rewrite Node_children_middle.
  cbn [mbind result_bind].
  assert (Forall (fun kid => ∀ pre post,
            print fuel g None (mkTree (pre ++ flatten kid ++ post)) (length pre)
            = printed g kid) kids) as Hkids.
  { apply Forall_forall. intros kid Hkid pre' post'.
    eapply Forall_forall in IH; [|exact Hkid]. apply IH.
    pose proof (rsize_le_fsize kids kid Hkid). rewrite rsize_Rose in Hfuel. lia. }
  pose proof (children_Forall2 (print fuel g None) (printed g) kids Hkids
                (pre ++ [mkNodeStorage v (Z.of_nat (length kids))
                                       (Z.of_nat (S (fsize kids)))])
                post) as Hall.
  rewrite length_app in Hall. cbn [length] in Hall.
  rewrite <- (assoc_L (++)), Nat.add_1_r in Hall. cbn [app] in Hall.
  rewrite flatten_Rose.
  rewrite (foldl_Forall2 _ (printed g)
             (fun (text : string) c => mret (text +:+ " " +:+ c)) _ _ Hall).
  rewrite printed_forest.
  destruct (forallb (shaped g) kids); [|done].
  cbn [mbind result_bind mret result_ret]. do 2 f_equal.
  rewrite render_fold. reflexivity.
Qed.

End PrinterFacts.

(** X10.  Printing the layout of a tree gives the text of the tree when the
    tree fits the grammar: the name of a terminal, and for a function the
    name and the texts of the children, each after a space, between
    parentheses.  When some terminal has children or some function has not
    as many children as arguments, printing fails an assertion. *)
Theorem printTree_renders (g : Grammar) (r : rose Z) :
  printTree g None (mkTree (flatten r))
  = if shaped g r then Ok (render g r) else Fail AssertionFailed.
Proof.
  unfold printTree.
  pose proof (Tree_roots_forest_single r) as Hroots.
  rewrite Hroots. cbn [mbind result_bind foldl nodes].
  pose proof (print_middle g r (S (length (flatten r))) [] []) as Hprint.
  rewrite app_nil_r in Hprint. cbn [app length] in Hprint.
  rewrite Hprint by (rewrite length_flatten; lia).
  unfold printed. by destruct (shaped g r).
Qed.

(** ** treeGenerator.h *)

Lemma forallb_Forall {A} (f : A → bool) (l : list A) :
  Forall (fun x => f x = true) l → forallb f l = true.
Proof. induction 1 as [|x l Hx _ IH]; [done|]. simpl. by rewrite Hx, IH. Qed.

Lemma foldr_max_le (l : list nat) m :
  Forall (fun k => k ≤ m) l → foldr Nat.max 0 l ≤ m.
Proof. induction 1 as [|k l Hk _ IH]; simpl; lia. Qed.

(** What every generated tree has, whatever the strategy: it fits the
    grammar, it is no deeper than the depth asked for (a depth below 1 counts
    as 1), its nodes with children are functions and its leaves terminals. *)
Lemma Generated_facts g strategy (r : rose Z) : ∀ d,
  Generated g strategy d r →
  shaped g r = true
  ∧ (Z.of_nat (depth r) ≤ Z.max 1 d)%Z
  ∧ Forall (fun v => isFunction (definitionFor g v) = true) (internalValues r)
  ∧ Forall (fun v => isTerminal (definitionFor g v) = true) (leafValues r).
Proof.
  induction r as [v kids IH] using rose_forall_ind. intros d Hgen.
  inversion Hgen
    as [d' v' Hle Hterm|d' v' Hlt Hgrow Hterm|d' v' kids' Hlt Hfun Hne Hlen Hkids];
    subst.
  - cbn. rewrite Hterm. split_and!; [done|lia|constructor|by repeat constructor].
  - cbn. rewrite Hterm. split_and!; [done|lia|constructor|by repeat constructor].
  - destruct kids as [|k kids]; [done|].
    set (all := k :: kids) in *.
    assert (Forall (fun r =>
        shaped g r = true
        ∧ (Z.of_nat (depth r) ≤ Z.max 1 (d - 1))%Z
        ∧ Forall (fun v => isFunction (definitionFor g v) = true)
                 (internalValues r)
        ∧ Forall (fun v => isTerminal (definitionFor g v) = true)
                 (leafValues r)) all) as Hall.
    { apply Forall_forall. intros r Hr.
      eapply Forall_forall in IH; [|exact Hr].
      eapply Forall_forall in Hkids; [|exact Hr].
      by apply IH. }
    assert (isTerminal (definitionFor g v) = false) as Hnt
      by (unfold isFunction in Hfun; by destruct (isTerminal _)).
    change (internalValues (Rose v all))
      with (v :: concat (map internalValues all)).
    change (leafValues (Rose v all)) with (concat (map leafValues all)).
    split_and!.
    + cbn [shaped]. rewrite Hnt. unfold getNumArguments. rewrite Hlen.
      rewrite Z.eqb_refl. cbn [andb]. apply forallb_Forall.
      eapply Forall_impl; [exact Hall|]. by intros r (? & _).
    + cbn [depth].
      assert (foldr Nat.max 0 (map depth all) ≤ Z.to_nat (d - 1)) as Hmax.
      { apply foldr_max_le, Forall_fmap.
        eapply Forall_impl; [exact Hall|]. intros r (_ & Hd & _). simpl. lia. }
      lia.
    + constructor; [done|]. apply Forall_concat, Forall_fmap.
      eapply Forall_impl; [exact Hall|]. by intros r (_ & _ & ? & _).
    + apply Forall_concat, Forall_fmap.
      eapply Forall_impl; [exact Hall|]. by intros r (_ & _ & _ & ?).
Qed.

(** X11.  When every definition set that the type reaches has a terminal,
    [generateGrow] on a fresh builder returns for every depth, also one below
    1, and leaves the layout of one tree: no deeper than the depth asked for
    (a depth below 1 yields a single node), with functions at the nodes that
    have children and terminals at the leaves. *)
Theorem generateGrow_bounded_tree g gen fuel maxDepth type rng :
  GrammarOk g → TreeGenerator_new g = Ok gen →
  (maxDepth ≤ INT_MAX)%Z → 1 ≤ fuel → (maxDepth ≤ Z.of_nat fuel)%Z →
  (∀ type', reachable g type type' → hasTerminals (setOf g type') = true) →
  ∃ r rng',
    generateGrow fuel gen (Builder_new Tree_new) maxDepth type rng
    = Ok (mkBuilder (mkTree (packed r)) [], rng')
    ∧ (Z.of_nat (depth r) ≤ Z.max 1 maxDepth)%Z
    ∧ Forall (fun v => isFunction (definitionFor g v) = true) (internalValues r)
    ∧ Forall (fun v => isTerminal (definitionFor g v) = true) (leafValues r).
Proof.
  intros Hg Hgen Hdepth Hone Hfuel Htype.
  destruct (generate_ok g gen Hg Hgen Grow fuel maxDepth)
    with (b := Builder_new (@Tree_new Z)) (type := type) (rng := rng)
    as (r & [[ns] st] & rng' & Hrun & [Hstack Hnodes] & Hshape);
    [lia|lia|lia|done| |].
  { intros type' Hreach. split; [by apply Htype|done]. }
  simpl in Hstack, Hnodes. subst st ns.
  exists r, rng'. split; [exact Hrun|].
  by destruct (Generated_facts g Grow r maxDepth Hshape) as (_ & ? & ? & ?).
Qed.

Lemma generateGrow_bounded_tree_witness :
  ∃ gen, TreeGenerator_new testGrammar = Ok gen ∧
  ∃ r rng',
    generateGrow 3 gen (Builder_new Tree_new) 3 0 testRNG
    = Ok (mkBuilder (mkTree (packed r)) [], rng')
    ∧ (Z.of_nat (depth r) ≤ Z.max 1 3)%Z
    ∧ Forall (fun v => isFunction (definitionFor testGrammar v) = true)
             (internalValues r)
    ∧ Forall (fun v => isTerminal (definitionFor testGrammar v) = true)
             (leafValues r).
Proof.
  eexists. split; [reflexivity|].
  apply (generateGrow_bounded_tree testGrammar).
  - exact testGrammar_ok.
  - reflexivity.
  - by vm_compute.
  - lia.
  - by vm_compute.
  - intros type' Hreach.
    rewrite (testGrammar_reachable 0 type' Hreach eq_refl). by vm_compute.
Defined.

(** X12.  What the generator emits, the printer prints: under either
    strategy the tree that [generate] leaves on a fresh builder fits the
    grammar, and if its node count fits the 32-bit size field, printing it
    returns its text and fails no assertion. *)
Theorem generated_tree_prints g gen fuel maxDepth strategy type rng :
  GrammarOk g → TreeGenerator_new g = Ok gen →
  (maxDepth ≤ INT_MAX)%Z → 1 ≤ fuel → (maxDepth ≤ Z.of_nat fuel)%Z →
  (∀ type', reachable g type type' →
     hasTerminals (setOf g type') = true
     ∧ (strategy = Full → hasFunctions (setOf g type') = true)) →
  ∃ r b rng',
    generate fuel gen (Builder_new Tree_new) maxDepth strategy type rng
    = Ok (b, rng')
    ∧ nodes (tree b) = packed r
    ∧ shaped g r = true
    ∧ ((Z.of_nat (rsize r) < 2 ^ 32)%Z →
       printTree g None (tree b) = Ok (render g r)).
Proof.
  intros Hg Hgen Hdepth Hone Hfuel Htype.
  destruct (generate_ok g gen Hg Hgen strategy fuel maxDepth)
    with (b := Builder_new (@Tree_new Z)) (type := type) (rng := rng)
    as (r & [[ns] st] & rng' & Hrun & [Hstack Hnodes] & Hshape);
    [lia|lia|lia|done|exact Htype|].
  simpl in Hstack, Hnodes. subst st ns.
  destruct (Generated_facts g strategy r maxDepth Hshape) as (Hfits & _).
  exists r, (mkBuilder (mkTree (packed r)) []), rng'.
  split_and!; try done.
  intros Hbound. cbn [tree]. rewrite packed_flatten by done.
  pose proof (print_middle g r (S (length (flatten r))) [] []) as Hprint.
  rewrite app_nil_r in Hprint. cbn [app length] in Hprint.
  unfold printTree. rewrite Tree_roots_forest_single.
  cbn [mbind result_bind foldl nodes].
  rewrite Hprint by (rewrite length_flatten; lia).
  unfold printed. by rewrite Hfits.
Qed.

Lemma generated_tree_prints_witness :
  ∃ gen, TreeGenerator_new testGrammar = Ok gen ∧
  ∃ r b rng',
    generate 3 gen (Builder_new Tree_new) 3 Full 0 testRNG = Ok (b, rng')
    ∧ nodes (tree b) = packed r
    ∧ shaped testGrammar r = true
    ∧ ((Z.of_nat (rsize r) < 2 ^ 32)%Z →
       printTree testGrammar None (tree b) = Ok (render testGrammar r)).
Proof.
  eexists. split; [reflexivity|].
  apply (generated_tree_prints testGrammar).
  - exact testGrammar_ok.
  - reflexivity.
  - by vm_compute.
  - lia.
  - by vm_compute.
  - intros type' Hreach.
    rewrite (testGrammar_reachable 0 type' Hreach eq_refl). by vm_compute.
Defined.

Section BuilderSizes.
Context {T : Type}.
Implicit Types (b : Builder T) (t : Tree T).

Lemma modifyNode_length i (f : NodeStorage T → NodeStorage T) t t' :
  modifyNode i f t = Ok t' → length (nodes t') = length (nodes t).
Proof.
  unfold modifyNode. destruct (nodes t !! i); [|done].
  intros [= <-]. simpl. by rewrite length_insert.
Qed.

Lemma add_length v b b' :
  add v b = Ok b' → length (nodes (tree b')) = S (length (nodes (tree b))).
Proof.
  unfold add. cbn [addNode]. destruct (stack b) as [|back rest].
  - intros [= <-]. simpl. rewrite length_app. simpl. lia.
  - destruct (modifyNode back incrChildCount _) as [t2|] eqn:H2; [|done].
    cbn [mbind result_bind].
    destruct (modifyNode back (addSubTreeSize 1) t2) as [t3|] eqn:H3; [|done].
    intros [= <-]. simpl.
    rewrite (modifyNode_length _ _ _ _ H3), (modifyNode_length _ _ _ _ H2).
    simpl. rewrite length_app. simpl. lia.
Qed.

Lemma push_length v b b' :
  push v b = Ok b' → length (nodes (tree b')) = S (length (nodes (tree b))).
Proof.
  unfold push. destruct (stack b) as [|back rest].
  - cbn [mbind result_bind addNode]. intros [= <-]. simpl.
    rewrite length_app. simpl. lia.
  - destruct (modifyNode back incrChildCount (tree b)) as [t1|] eqn:H1; [|done].
    cbn [mbind result_bind addNode]. intros [= <-]. simpl.
    rewrite length_app, (modifyNode_length _ _ _ _ H1). simpl. lia.
Qed.

Lemma pop_length b b' :
  pop b = Ok b' → length (nodes (tree b')) = length (nodes (tree b)).
Proof.
  unfold pop. destruct (stack b) as [|back rest]; [done|].
  destruct (nodeAt (tree b) back) as [n|]; [|done]. cbn [mbind result_bind].
  destruct rest as [|parent rest]; [by intros [= <-]|].
  destruct (modifyNode parent _ (tree b)) as [t1|] eqn:H1; [|done].
  intros [= <-]. simpl. by apply modifyNode_length in H1.
Qed.

End BuilderSizes.

(** A draw takes one word off the stream. *)
Lemma uniform_int_distribution_draws a b rng v rng' :
  uniform_int_distribution a b rng = Ok (v, rng') →
  words rng' = words rng ∧ cursor rng' = S (cursor rng).
Proof.
  unfold uniform_int_distribution. destruct (a <=? b)%Z; [|done].
  by intros [= <- <-].
Qed.

Lemma constrained_draws (f : Z → Z) a b rng v rng' :
  ('(v, rng) ← random a b rng; mret (f v, rng)) = Ok (v, rng') →
  words rng' = words rng ∧ cursor rng' = S (cursor rng).
Proof.
  unfold random.
  destruct (uniform_int_distribution a b rng) as [[v0 rng0]|] eqn:Hdraw; [|done].
  intros [= <- <-]. by eapply uniform_int_distribution_draws.
Qed.

Lemma generateArguments_draws
    (rec : Builder Z → Z → RNG → result (Builder Z * RNG)) types :
  (∀ b type rng b' rng', rec b type rng = Ok (b', rng') →
     words rng' = words rng
     ∧ cursor rng' + length (nodes (tree b))
       = cursor rng + length (nodes (tree b'))) →
  ∀ b rng b' rng',
    generateArguments rec types b rng = Ok (b', rng') →
    words rng' = words rng
    ∧ cursor rng' + length (nodes (tree b))
      = cursor rng + length (nodes (tree b')).
Proof.
  intros Hrec. induction types as [|type types IH]; intros b rng b' rng'.
  - by intros [= <- <-].
  - rewrite generateArguments_cons.
    destruct (rec b type rng) as [[b1 rng1]|] eqn:H1; [|done].
    cbn [mbind result_bind]. intros H2.
    destruct (Hrec _ _ _ _ _ H1) as [Hw1 Hc1].
    destruct (IH _ _ _ _ H2) as [Hw2 Hc2].
    split; [congruence|lia].
Qed.

(** Every node that [generate] emits costs one draw, and nothing else
    does. *)
Lemma generate_draws fuel : ∀ gen b d strategy type rng b' rng',
  generate fuel gen b d strategy type rng = Ok (b', rng') →
  words rng' = words rng
  ∧ cursor rng' + length (nodes (tree b))
    = cursor rng + length (nodes (tree b')).
Proof.
  induction fuel as [|fuel IH]; intros gen b d strategy type rng b' rng';
    [done|].
  rewrite generate_S. cbv zeta.
  destruct ((d <=? 1)%Z && _).
  - destruct (if negb _ then _ else _) as [[v rng1]|] eqn:Hdraw; [|done].
    cbn [mbind result_bind].
    destruct (add v b) as [b1|] eqn:Hadd; [|done].
    intros [= <- <-]. apply add_length in Hadd.
    assert (words rng1 = words rng ∧ cursor rng1 = S (cursor rng)) as [Hw Hc].
    { destruct (negb _); [by eapply constrained_draws|].
      by eapply uniform_int_distribution_draws. }
    split; [done|lia].
  - destruct (match strategy with Full => _ | Grow => _ end)
      as [[v rng1]|] eqn:Hdraw; [|done].
    cbn [mbind result_bind].
    assert (words rng1 = words rng ∧ cursor rng1 = S (cursor rng)) as [Hw Hc].
    { destruct strategy, (negb _);
        first [by eapply constrained_draws
              |by eapply uniform_int_distribution_draws]. }
    destruct (isTerminal _).
    + destruct (add v b) as [b1|] eqn:Hadd; [|done].
      intros [= <- <-]. apply add_length in Hadd. split; [done|lia].
    + destruct (assert _); [|done]. cbn [mbind result_bind].
      destruct (push v b) as [b1|] eqn:Hpush; [|done].
      cbn [mbind result_bind].
      destruct (generateArguments _ _ b1 rng1) as [[b2 rng2]|] eqn:Hargs;
        [|done].
      cbn [mbind result_bind].
      destruct (pop b2) as [b3|] eqn:Hpop; [|done].
      intros [= <- <-].
      apply push_length in Hpush. apply pop_length in Hpop.
      apply generateArguments_draws in Hargs as [Hw2 Hc2].
      * split; [congruence|lia].
      * intros b0 type0 rng0 b0' rng0'.
        destruct (int_sub d 1) as [d'|]; [|done]. cbn [mbind result_bind].
        apply IH.
Qed.

(** X13.  The generator draws one random number for every node it emits and
    none besides: when [generate] returns, the cursor of the stream has
    moved on by the number of nodes of the tree, and the stream itself is
    untouched. *)
Theorem generate_draws_one_per_node g gen fuel maxDepth strategy type rng :
  GrammarOk g → TreeGenerator_new g = Ok gen →
  (maxDepth ≤ INT_MAX)%Z → 1 ≤ fuel → (maxDepth ≤ Z.of_nat fuel)%Z →
  (∀ type', reachable g type type' →
     hasTerminals (setOf g type') = true
     ∧ (strategy = Full → hasFunctions (setOf g type') = true)) →
  ∃ r rng',
    generate fuel gen (Builder_new Tree_new) maxDepth strategy type rng
    = Ok (mkBuilder (mkTree (packed r)) [], rng')
    ∧ words rng' = words rng
    ∧ cursor rng' = cursor rng + rsize r.
Proof.
  intros Hg Hgen Hdepth Hone Hfuel Htype.
  destruct (generate_ok g gen Hg Hgen strategy fuel maxDepth)
    with (b := Builder_new (@Tree_new Z)) (type := type) (rng := rng)
    as (r & [[ns] st] & rng' & Hrun & [Hstack Hnodes] & _);
    [lia|lia|lia|done|exact Htype|].
  simpl in Hstack, Hnodes. subst st ns.
  exists r, rng'. split; [exact Hrun|].
  destruct (generate_draws _ _ _ _ _ _ _ _ _ Hrun) as [Hw Hc].
  split; [done|]. cbn [tree nodes Builder_new Tree_new length] in Hc.
  unfold packed in Hc. rewrite length_fmap, length_flatten in Hc. lia.
Qed.

Lemma generate_draws_one_per_node_witness :
  ∃ gen, TreeGenerator_new testGrammar = Ok gen ∧
  ∃ r rng',
    generate 3 gen (Builder_new Tree_new) 3 Grow 0 testRNG
    = Ok (mkBuilder (mkTree (packed r)) [], rng')
    ∧ words rng' = words testRNG
    ∧ cursor rng' = cursor testRNG + rsize r.
Proof.
  eexists. split; [reflexivity|].
  apply (generate_draws_one_per_node testGrammar).
  - exact testGrammar_ok.
  - reflexivity.
  - by vm_compute.
  - lia.
  - by vm_compute.
  - intros type' Hreach.
    rewrite (testGrammar_reachable 0 type' Hreach eq_refl). by vm_compute.
Defined.

Lemma uniform_int_distribution_bounds a b rng v rng' :
  uniform_int_distribution a b rng = Ok (v, rng') → (a ≤ v ≤ b)%Z.
Proof.
  unfold uniform_int_distribution. destruct (a <=? b)%Z eqn:Hab; [|done].
  apply Z.leb_le in Hab. intros [= <- _].
  pose proof (Z.mod_pos_bound (words rng (cursor rng)) (b - a + 1)). lia.
Qed.

Section WithoutTerminals.
Context (g : Grammar) (gen : TreeGenerator).
Hypothesis Hg : GrammarOk g.
Hypothesis Hgen : TreeGenerator_new g = Ok gen.

(** The types from which no terminal can be reached, a function always. *)
Let barren (type : Z) : Prop :=
  ∀ type', reachable g type type' →
    hasTerminals (setOf g type') = false ∧ hasFunctions (setOf g type') = true.

Lemma generate_barren fuel : ∀ b maxDepth strategy type rng,
  barren type →
  ¬ isOk (generate fuel gen b maxDepth strategy type rng).
Proof using Hg Hgen.
  destruct (TreeGenerator_new_fields g gen Hgen) as (Hgrammar & _ & _ & Htl).
  induction fuel as [|fuel IH]; intros b d strategy type rng Hbarren;
    [by intros []|].
  destruct (Hbarren type (reachable_refl g type)) as [Hterm Hfun].
  destruct (limits_ordered g Hg type) as [Hord Hfit].
  unfold hasTerminals in Hterm. unfold hasFunctions in Hfun.
  apply Z.ltb_ge in Hterm. apply Z.ltb_lt in Hfun.
  assert ((type =? invalidTypeId g)%Z = false) as Htyped.
  { apply Z.eqb_neq. intros ->. unfold setOf in Hterm, Hord.
    rewrite Z.eqb_refl in Hterm, Hord. simpl in Hterm, Hord. lia. }
  assert (setOf g type = definitionSetForType g type) as Hset
    by (unfold setOf; by rewrite Htyped).
  rewrite Hset in Hterm, Hfun, Hord, Hfit.
  rewrite generate_S, Hgrammar. cbv zeta. rewrite Htyped. cbn [negb].
  assert (hasTerminals (definitionSetForType g type) = false) as ->
    by (unfold hasTerminals; apply Z.ltb_ge; lia).
  rewrite andb_false_r.
  set (set := definitionSetForType g type) in *.
  assert (∀ v rng',
            match strategy with
            | Full => randomFunctionValueForDefinitonSet set rng
            | Grow => randomNodeValueForDefinitonSet set rng
            end = Ok (v, rng') →
            ∃ v0, v = nodeValueForTypeConstrainedNodeValue set v0
              ∧ (typeConstrainedTerminalLimit set ≤ v0
                 < typeConstrainedFunctionLimit set)%Z) as Hdraw.
  { intros v rng'. unfold randomFunctionValueForDefinitonSet,
      randomNodeValueForDefinitonSet, random.
    rewrite wrap32_small by zlia.
    destruct strategy;
      (destruct (uniform_int_distribution _ _ rng) as [[v0 rng0]|] eqn:Hu;
       [|done]; intros [= <- <-];
       apply uniform_int_distribution_bounds in Hu;
       exists v0; split; [done|lia]). }
  destruct (match strategy with Full => _ | Grow => _ end)
    as [[v rng1]|]; [|by intros []].
  destruct (Hdraw v rng1 eq_refl) as (v0 & -> & Hv0).
  cbn [mbind result_bind].
  fold (definitionFor g (nodeValueForTypeConstrainedNodeValue set v0)).
  pose proof (functions_resolve g Hg type v0) as Hres.
  rewrite Hset in Hres. fold set in Hres.
  destruct (Hres Hv0) as [Hnot Hargs]. rewrite Hnot.
  destruct (assert _); [|by intros []]. cbn [mbind result_bind].
  destruct (push _ b) as [b1|]; [|by intros []]. cbn [mbind result_bind].
  destruct (argumentTypes
              (definitionFor g (nodeValueForTypeConstrainedNodeValue set v0)))
    as [|arg args] eqn:Hdef; [done|].
  rewrite generateArguments_cons.
  destruct (int_sub d 1) as [d'|]; [|by intros []]. cbn [mbind result_bind].
  assert (barren arg) as Harg.
  { intros type' Hreach. apply Hbarren.
    apply (reachable_step g type v0 arg type'); rewrite ?Hset; fold set;
      [done|rewrite Hdef; by left|done]. }
  specialize (IH b1 d' strategy arg rng1 Harg).
  destruct (generate fuel gen b1 d' strategy arg rng1) as [[b2 rng2]|];
    [by destruct IH|by intros []].
Qed.

End WithoutTerminals.

Lemma loopGrammar_checks type :
  definitionSetChecks loopGrammar (setOf loopGrammar type) = true.
Proof.
  destruct (decide (type = 0%Z)) as [->|H0]; [by vm_compute|].
  destruct (decide (type = 1%Z)) as [->|H1]; [by vm_compute|].
  destruct (decide (type = (2 ^ 32 - 1)%Z)) as [->|Hinv]; [by vm_compute|].
  unfold loopGrammar. rewrite Grammar_new_setOf by done.
  rewrite definitionSetOfTable_unused; [by vm_compute|].
  vm_compute assignNodeValues. repeat constructor; simpl; congruence.
Qed.

Lemma loopGrammar_ok : GrammarOk loopGrammar.
Proof.
  split.
  - by vm_compute.
  - intros type. apply (definitionSetChecks_sound _ _ (loopGrammar_checks type)).
  - intros type. apply (definitionSetChecks_sound _ _ (loopGrammar_checks type)).
  - intros type. apply (definitionSetChecks_sound _ _ (loopGrammar_checks type)).
Qed.

Lemma loopGrammar_reachable type type' :
  reachable loopGrammar type type' → type = 1%Z → type' = 1%Z.
Proof.
  induction 1 as [|type v arg type' Hv Harg _ IH]; [done|].
  intros ->. apply IH.
  pose proof (argumentTypesOfSet_complete loopGrammar 1 v arg Hv Harg) as Hin.
  vm_compute argumentTypesOfSet in Hin.
  repeat (apply elem_of_cons in Hin as [Hin|Hin]; [done|]).
  by apply elem_of_nil in Hin.
Qed.

(** X14.  For a type from which only definition sets without terminals can
    be reached, each with a function, [generate] never returns a tree,
    whatever the depth, the strategy and the builder: below depth 1 it goes
    on choosing a function and descends with a depth that only falls. *)
Theorem generate_without_terminals g gen fuel b maxDepth strategy type rng :
  GrammarOk g → TreeGenerator_new g = Ok gen →
  (∀ type', reachable g type type' →
     hasTerminals (setOf g type') = false
     ∧ hasFunctions (setOf g type') = true) →
  ¬ isOk (generate fuel gen b maxDepth strategy type rng).
Proof.
  intros Hg Hgen Hbarren. by apply (generate_barren g gen Hg Hgen).
Qed.

Lemma generate_without_terminals_witness :
  ∃ gen, TreeGenerator_new loopGrammar = Ok gen
    ∧ ¬ isOk (generate 100 gen (Builder_new Tree_new) 1 Grow 1 testRNG).
Proof.
  eexists. split; [reflexivity|].
  apply (generate_without_terminals loopGrammar).
  - exact loopGrammar_ok.
  - reflexivity.
  - intros type' Hreach.
    rewrite (loopGrammar_reachable 1 type' Hreach eq_refl). by vm_compute.
Defined.

(** ** geneticProgramming.h *)

Section VariationOutcomes.
Context {fo : FloatOps} {Host : Type}.
Context (traits : EvolvingPopulationDelegate Host).

Lemma values_cprefix (c : ctx Z) k m :
  value <$> cprefix c k = value <$> cprefix c m.
Proof. apply stale_fmap_value, stale_cprefix. Qed.

Lemma values_plug (c : ctx Z) (s : rose Z) :
  value <$> flatten (plug c s)
  = (value <$> cprefix c 0) ++ (value <$> flatten s) ++ (value <$> csuffix c).
Proof.
  rewrite flatten_plug, !fmap_app. f_equal. apply values_cprefix.
Qed.

Lemma exchange_Permutation {A} (a b c d e f : list A) :
  (a ++ e ++ c) ++ (d ++ b ++ f) ≡ₚ (a ++ b ++ c) ++ (d ++ e ++ f).
Proof.
  rewrite <- !(assoc_L (++)).
  apply Permutation_app_head.
  rewrite (Permutation_app_swap_app e c), (Permutation_app_swap_app e d).
  rewrite (Permutation_app_swap_app e b).
  rewrite (Permutation_app_swap_app b c), (Permutation_app_swap_app b d).
  reflexivity.
Qed.

End VariationOutcomes.

Lemma lookup_plug_root {T} (c : ctx T) (s : rose T) : ∃ n,
  flatten (plug c s) !! cpos c = Some n ∧ value n = rootValue s.
Proof.
  destruct (lookup_middle_flatten (cprefix c (rsize s)) s (csuffix c))
    as (n & Hn & _ & _ & Hv).
  rewrite length_cprefix, <- flatten_plug in Hn.
  exists n. split; [done|]. by destruct s.
Qed.

(** X15.  [mutate] replaces one sub-tree and touches nothing else: it draws
    a node, asks the host for a tree of the type of that node, and puts the
    host's tree in the place of the sub-tree under the node.  The nodes
    around the sub-tree stay, and no fitness is computed. *)
Theorem mutate_replaces_one_subtree {fo : FloatOps} {Host}
    (traits : EvolvingPopulationDelegate Host) (maxNodes : nat)
    (t : Tree Z) (w : World Host) :
  DelegateOk traits maxNodes →
  wellFormed t → nodes t ≠ [] →
  (Z.of_nat (getNodeCount t + maxNodes) < 2 ^ 32)%Z →
  ∃ c s s' rng1 w',
    nodes t = flatten (plug c s)
    ∧ selectRandomNode t (rng w) = Ok (cpos c, rng1)
    ∧ generateRandomTreeOfType traits
        (getType (definitionFor (genomeGrammar traits) (rootValue s)))
        (host w) rng1
      = Ok (mkTree (flatten s'), host w', rng w')
    ∧ mutate traits t w = Ok (mkTree (flatten (plug c s')), w')
    ∧ computeFitnessCalls w' = computeFitnessCalls w.
Proof.
  intros Hdelegate [Hnil|(r & Hr)] Hne Hbound; [done|].
  assert (goodGenome t) as Ht by (by exists r).
  unfold mutate.
  destruct (selectRandomNode_ok t (rng w) Ht) as (nodeId & rng1 & Hsel & HnodeId).
  rewrite Hsel. cbn [mbind result_bind].
  destruct (typeOfNode_ok traits t nodeId HnodeId) as (node & Hnode & ->).
  cbn [mbind result_bind].
  destruct (represents_index r t nodeId Hr HnodeId) as (c & s & -> & <-).
  destruct Hr as [Hnodes _].
  destruct (lookup_plug_root c s) as (n & Hn & Hroot).
  rewrite Hnodes, Hn in Hnode. injection Hnode as <-. rewrite Hroot.
  destruct (generateRandomTreeOfType_ok traits maxNodes Hdelegate
              (rootValue s) (host w) rng1)
    as ([sub] & host' & rng2 & Hhost & (s' & [Hs' _]) & Hsub).
  rewrite Hhost. cbn [mbind result_bind].
  simpl in Hs'. subst sub.
  unfold getNodeCount in *. simpl in Hsub.
  rewrite Hnodes, length_flatten, rsize_plug in Hbound.
  rewrite length_flatten in Hsub.
  pose proof (cpos_le_csize c).
  rewrite (replace_plug c s s' t (mkTree (flatten s')) Hnodes eq_refl)
    by (rewrite rsize_plug; zlia).
  cbn [mbind result_bind mret result_ret].
  by exists c, s, s', rng1, (mkWorld rng2 host' (computeFitnessCalls w)).
Qed.

Lemma mutate_replaces_one_subtree_witness :
  ∃ c s s' rng1 w',
    nodes genomePlusXY = flatten (plug c s)
    ∧ selectRandomNode genomePlusXY (rng testWorld) = Ok (cpos c, rng1)
    ∧ generateRandomTreeOfType testDelegate
        (getType (definitionFor (genomeGrammar testDelegate) (rootValue s)))
        (host testWorld) rng1
      = Ok (mkTree (flatten s'), host w', rng w')
    ∧ mutate testDelegate genomePlusXY testWorld
      = Ok (mkTree (flatten (plug c s')), w')
    ∧ computeFitnessCalls w' = computeFitnessCalls testWorld.
Proof.
  apply (mutate_replaces_one_subtree testDelegate 3).
  - exact testDelegate_ok.
  - right. eexists. by split.
  - done.
  - by vm_compute.
Defined.

(** X16.  [mutate] on the empty genome fails the assertion of the node
    access: the drawn index ranges over all of [size_t], since the node
    count less one wraps around, and no index is below the node count 0. *)
Theorem mutate_empty_genome {fo : FloatOps} {Host}
    (traits : EvolvingPopulationDelegate Host) (w : World Host) :
  mutate traits Tree_new w = Fail AssertionFailed.
Proof.
  unfold mutate, selectRandomNode, randomUpTo, uniform_int_distribution.
  change (0 <=? wrap64 (Z.of_nat (getNodeCount (@Tree_new Z)) - 1))%Z with true.
  cbn [nextWord mbind result_bind mret result_ret].
  unfold typeOfNode. cbn [Tree_new nodes length].
  by rewrite bool_decide_eq_false_2 by lia.
Qed.

(** X17.  [crossover] only moves nodes between the two genomes: whether or
    not a partner node is found, both genomes stay well formed, the sum of
    their node counts is the same, and the values of the two genomes taken
    together are the same up to their order. *)
Theorem crossover_conserves_nodes {fo : FloatOps} {Host}
    (traits : EvolvingPopulationDelegate Host) (A B : Tree Z) (i : nat)
    (type : Z) (rng : RNG) :
  wellFormed A → wellFormed B → i < getNodeCount A →
  (Z.of_nat (getNodeCount A + getNodeCount B) < 2 ^ 32)%Z →
  ∃ found A' B' rng',
    crossover traits A i type B rng = Ok (found, A', B', rng')
    ∧ wellFormed A' ∧ wellFormed B'
    ∧ getNodeCount A' + getNodeCount B' = getNodeCount A + getNodeCount B
    ∧ (value <$> nodes A') ++ (value <$> nodes B')
      ≡ₚ (value <$> nodes A) ++ (value <$> nodes B).
Proof.
  intros HA HB Hi Hbound. unfold crossover.
  destruct (nodesWithType traits B type) as [|j0 js] eqn:E.
  { unfold selectRandomNodeWithType. rewrite E.
    cbn [mbind result_bind mret result_ret]. by eexists _, _, _, _. }
  destruct (selectRandomNodeWithType_found traits B type rng)
    as (j & rng' & -> & Hj); [by rewrite E|zlia|].
  cbn [mbind result_bind].
  apply elem_of_nodesWithType in Hj as (n & Hn & _).
  apply lookup_lt_Some in Hn.
  destruct HA as [HnilA|(ra & HrA)];
    [unfold getNodeCount in Hi; rewrite HnilA in Hi; simpl in Hi; lia|].
  destruct HB as [HnilB|(rb & HrB)]; [rewrite HnilB in Hn; simpl in Hn; lia|].
  destruct (represents_index ra A i HrA Hi) as (c & sa & -> & <-).
  destruct (represents_index rb B j HrB Hn) as (d & sb & -> & <-).
  destruct HrA as [HnA _], HrB as [HnB _].
  rewrite (getSubTree_plug c sa A HnA), (getSubTree_plug d sb B HnB).
  cbn [mbind result_bind].
  unfold getNodeCount in *.
  rewrite HnA, HnB, !length_flatten, !rsize_plug in Hbound |- *.
  pose proof (cpos_le_csize c). pose proof (cpos_le_csize d).
  rewrite (replace_plug c sa sb A) by (rewrite ?rsize_plug; (done || zlia)).
  cbn [mbind result_bind].
  rewrite (replace_plug d sb sa B) by (rewrite ?rsize_plug; (done || zlia)).
  cbn [mbind result_bind mret result_ret].
  eexists _, _, _, _. split; [reflexivity|]. cbn [nodes]. split_and!.
  - right. exists (plug c sb). split; [done|]. rewrite rsize_plug. zlia.
  - right. exists (plug d sa). split; [done|]. rewrite rsize_plug. zlia.
  - rewrite !length_flatten, !rsize_plug. lia.
  - rewrite !values_plug. apply exchange_Permutation.
Qed.

Lemma crossover_conserves_nodes_witness :
  ∃ found A' B' rng',
    crossover testDelegate genomePlusXY 1 0 genomeSinY testRNG
    = Ok (found, A', B', rng')
    ∧ wellFormed A' ∧ wellFormed B'
    ∧ getNodeCount A' + getNodeCount B'
      = getNodeCount genomePlusXY + getNodeCount genomeSinY
    ∧ (value <$> nodes A') ++ (value <$> nodes B')
      ≡ₚ (value <$> nodes genomePlusXY) ++ (value <$> nodes genomeSinY).
Proof.
  apply (crossover_conserves_nodes testDelegate genomePlusXY genomeSinY 1 0).
  - right. eexists. by split.
  - right. eexists. by split.
  - vm_compute. lia.
  - by vm_compute.
Defined.

Section Scores.
Context {fo : FloatOps}.

(** The scan keeps the best score and its index together. *)
Lemma bestFrom_lookup (all : list float) : ∀ rest seen bf bi,
  all = seen ++ rest → all !! bi = Some bf →
  all !! (bestFrom rest (length seen) bf bi).2
  = Some (bestFrom rest (length seen) bf bi).1.
Proof.
  induction rest as [|f rest IH]; intros seen bf bi Hall Hbi; [done|].
  cbn [bestFrom].
  assert (all = (seen ++ [f]) ++ rest) as Hall'
    by (by rewrite <- (assoc_L (++))).
  pose proof (IH (seen ++ [f])) as IH'.
  rewrite length_app in IH'. cbn [length] in IH'. rewrite Nat.add_1_r in IH'.
  destruct (float_lt bf f).
  - apply IH'; [done|]. rewrite Hall. by apply list_lookup_middle.
  - by apply IH'.
Qed.

End Scores.

(** X18.  The statistics agree with the evaluation: after
    [evaluateGeneration] has computed the fitness scores, [getStats] names
    the individual that [evaluateGeneration] returned as the best one, and
    its best fitness is the score of that individual. *)
Theorem getStats_agrees_with_evaluateGeneration {fo : FloatOps} {Host}
    (traits : EvolvingPopulationDelegate Host) p w best p1 w1 :
  evaluatedGeneration p ≠ generation p →
  evaluateGeneration traits p w = Ok (best, p1, w1) →
  ∃ stats, getStats p1 = Ok stats
    ∧ bestIndividual stats = best
    ∧ fitnesses p1 !! best = Some (bestFitness stats).
Proof.
  intros Hstale. unfold evaluateGeneration.
  rewrite (proj2 (Z.eqb_neq _ _) Hstale).
  destruct (computeFitness traits _ _ _) as [scores host'].
  destruct (length scores =? length (individuals p)) eqn:Hlen; [|done].
  apply Nat.eqb_eq in Hlen. cbn [assert mbind result_bind].
  unfold at_. destruct (scores !! 0) as [first|] eqn:Hfirst; [|done].
  cbn [mbind result_bind].
  pose proof (bestFrom_lookup scores scores [] first 0 eq_refl Hfirst) as Hbest.
  cbn [length] in Hbest.
  rewrite <- Hlen, firstn_all.
  destruct (bestFrom scores 0 first 0) as [bf bi] eqn:Hscan.
  intros [= <- <- <-].
  unfold getStats, at_. cbn [fitnesses individuals].
  rewrite Hfirst. cbn [mbind result_bind].
  rewrite bool_decide_eq_true_2 by lia. cbn [mbind result_bind].
  rewrite <- Hlen, firstn_all, Hscan. cbn [mret result_ret].
  eexists. split; [reflexivity|]. by split.
Qed.

Lemma getStats_agrees_with_evaluateGeneration_witness :
  let p := testPopulation [genomeSinY; genomeX; genomePlusXY] in
  ∃ p1 w1 stats,
    evaluateGeneration testDelegate p testWorld = Ok (1, p1, w1)
    ∧ getStats p1 = Ok stats
    ∧ bestIndividual stats = 1
    ∧ fitnesses p1 !! 1 = Some (bestFitness stats).
Proof.
  intros p.
  assert (evaluateGeneration testDelegate p testWorld
          = Ok (1, mkPopulation (individuals p)
                     (map testFitness (individuals p)) 1 0 0,
                mkWorld testRNG tt 1)) as Hfirst by reflexivity.
  destruct (getStats_agrees_with_evaluateGeneration testDelegate p testWorld
              1 _ _ ltac:(done) Hfirst) as (stats & Hstats).
  by eexists _, _, stats.
Defined.

(** X19.  A population that was never initialized cannot be evaluated: with
    a host that keeps the length of the score array, [evaluateGeneration] on
    a fresh population fails the assertion that there is one score per
    individual. *)
Theorem evaluateGeneration_needs_initialize {fo : FloatOps} {Host}
    (traits : EvolvingPopulationDelegate Host) (size : nat) p (w : World Host) :
  (∀ individuals scores h,
     length (computeFitness traits individuals scores h).1 = length scores) →
  Population_new size = Ok p →
  evaluateGeneration traits p w = Fail AssertionFailed.
Proof.
  intros Hkeep. unfold Population_new, assert.
  destruct size as [|size]; [done|]. intros [= <-].
  unfold evaluateGeneration. cbn [evaluatedGeneration generation Z.eqb].
  cbn [individuals fitnesses].
  specialize (Hkeep [] (replicate (S size) (float_of_int 0)) (host w)).
  destruct (computeFitness traits _ _ _) as [scores host'].
  simpl in Hkeep. rewrite length_replicate in Hkeep.
  cbn [length]. destruct scores; [done|]. reflexivity.
Qed.

Lemma evaluateGeneration_needs_initialize_witness :
  ∃ p, Population_new 3 = Ok p
     ∧ evaluateGeneration testDelegate p testWorld = Fail AssertionFailed.
Proof.
  eexists. split; [reflexivity|].
  apply (evaluateGeneration_needs_initialize testDelegate 3).
  - intros individuals scores h. simpl.
    rewrite length_take, length_app, length_map, length_drop. lia.
  - reflexivity.
Defined.

Section Tournament.
Context {fo : FloatOps}.
Hypothesis float_lt_irrefl : ∀ x, float_lt x x = false.
Hypothesis float_lt_trans : ∀ x y z,
  float_lt x y = true → float_lt y z = true → float_lt x z = true.

Lemma float_lt_asym x y : float_lt x y = true → float_lt y x = false.
Proof using float_lt_irrefl float_lt_trans.
  intros Hxy. destruct (float_lt y x) eqn:Hyx; [|done].
  by rewrite <- (float_lt_irrefl x), (float_lt_trans x y x).
Qed.

Lemma float_lt_false_trans x y z :
  float_lt x y = true → float_lt x z = false → float_lt y z = false.
Proof using float_lt_trans.
  intros Hxy Hxz. destruct (float_lt y z) eqn:Hyz; [|done].
  by rewrite <- Hxz, (float_lt_trans x y z).
Qed.

(** The two comparisons of a tournament leave a score that none of the
    three exceeds. *)
Lemma best_of_three (f0 f1 f2 : float) :
  let first := if float_lt f0 f1 then f1 else f0 in
  let best := if float_lt first f2 then f2 else first in
  float_lt best f0 = false ∧ float_lt best f1 = false
  ∧ float_lt best f2 = false.
Proof using float_lt_irrefl float_lt_trans.
  cbv zeta.
  destruct (float_lt f0 f1) eqn:H01.
  - destruct (float_lt f1 f2) eqn:H12.
    + split_and!; [|by apply float_lt_asym|done].
      apply float_lt_asym. by apply (float_lt_trans f0 f1 f2).
    + split_and!; [by apply float_lt_asym|done|done].
  - destruct (float_lt f0 f2) eqn:H02.
    + split_and!; [by apply float_lt_asym| |done].
      by apply (float_lt_false_trans f0 f2 f1).
    + by split_and!.
Qed.

End Tournament.

(** X20.  One tournament draws three indices and returns a copy of a
    fittest of the three individuals drawn: the individual at one of the
    three indices, with a score that the score at none of the three
    exceeds. *)
Theorem tournament_picks_fittest_of_three {fo : FloatOps} (p : Population)
    (rng : RNG) :
  (∀ x, float_lt x x = false) →
  (∀ x y z, float_lt x y = true → float_lt y z = true → float_lt x z = true) →
  individuals p ≠ [] →
  length (fitnesses p) = length (individuals p) →
  (Z.of_nat (length (individuals p)) < 2 ^ 64)%Z →
  let max := wrap64 (Z.of_nat (length (individuals p)) - 1) in
  ∃ s0 s1 s2 rng1 rng2 rng' k t fk,
    randomUpTo max rng = Ok (s0, rng1)
    ∧ randomUpTo max rng1 = Ok (s1, rng2)
    ∧ randomUpTo max rng2 = Ok (s2, rng')
    ∧ tournament p rng = Ok (t, rng')
    ∧ k ∈ [s0; s1; s2]
    ∧ individuals p !! k = Some t
    ∧ fitnesses p !! k = Some fk
    ∧ ∀ s, s ∈ [s0; s1; s2] →
        ∃ fs, fitnesses p !! s = Some fs ∧ float_lt fk fs = false.
Proof.
  intros Hirrefl Htrans Hne Hlen Hsize. cbv zeta. unfold tournament.
  assert (0 < length (individuals p)) as Hpos
    by (destruct (individuals p); [done|simpl; lia]).
  rewrite wrap64_small by zlia.
  destruct (randomUpTo_range (Z.of_nat (length (individuals p)) - 1) rng)
    as (s0 & rng0 & Hd0 & Hs0); [lia|].
  destruct (randomUpTo_range (Z.of_nat (length (individuals p)) - 1) rng0)
    as (s1 & rng1 & Hd1 & Hs1); [lia|].
  destruct (randomUpTo_range (Z.of_nat (length (individuals p)) - 1) rng1)
    as (s2 & rng2 & Hd2 & Hs2); [lia|].
  rewrite Hd0. cbn [mbind result_bind]. rewrite Hd1. cbn [mbind result_bind].
  rewrite Hd2. cbn [mbind result_bind].
  destruct (at_ok (fitnesses p) s0) as (f0 & -> & Hf0); [lia|].
  cbn [mbind result_bind].
  destruct (at_ok (fitnesses p) s1) as (f1 & -> & Hf1); [lia|].
  cbn [mbind result_bind].
  destruct (at_ok (fitnesses p) s2) as (f2 & -> & Hf2); [lia|].
  destruct (at_ok (individuals p) s0) as (t0 & Ht0 & Hin0); [lia|].
  destruct (at_ok (individuals p) s1) as (t1 & Ht1 & Hin1); [lia|].
  destruct (at_ok (individuals p) s2) as (t2 & Ht2 & Hin2); [lia|].
  pose proof (best_of_three Hirrefl Htrans f0 f1 f2) as Hbest.
  cbv zeta in Hbest.
  assert (∀ k fk, fitnesses p !! k = Some fk →
            float_lt fk f0 = false ∧ float_lt fk f1 = false
            ∧ float_lt fk f2 = false →
            ∀ s, s ∈ [s0; s1; s2] →
              ∃ fs, fitnesses p !! s = Some fs ∧ float_lt fk fs = false)
    as Hall.
  { intros k fk _ (H0 & H1 & H2) s Hs.
    apply elem_of_cons in Hs as [->|Hs]; [by eauto|].
    apply elem_of_cons in Hs as [->|Hs]; [by eauto|].
    apply elem_of_cons in Hs as [->|Hs]; [by eauto|].
    by apply elem_of_nil in Hs. }
  exists s0, s1, s2, rng0, rng1, rng2.
  destruct (float_lt f0 f1); cbn [mbind result_bind];
    [destruct (float_lt f1 f2)|destruct (float_lt f0 f2)];
    cbn [mbind result_bind];
    rewrite ?Ht0, ?Ht1, ?Ht2; cbn [mbind result_bind mret result_ret].
  - exists s2, t2, f2.
    split_and!; try done; [do 2 right; left|by eapply Hall].
  - exists s1, t1, f1. split_and!; try done; [right; left|by eapply Hall].
  - exists s2, t2, f2.
    split_and!; try done; [do 2 right; left|by eapply Hall].
  - exists s0, t0, f0. split_and!; try done; [left|by eapply Hall].
Qed.

Lemma tournament_picks_fittest_of_three_witness :
  let p := mkPopulation [genomeSinY; genomeX; genomePlusXY]
             (map testFitness [genomeSinY; genomeX; genomePlusXY]) 0 0 0 in
  ∃ s0 s1 s2 rng1 rng2 rng' k t fk,
    randomUpTo 2 testRNG = Ok (s0, rng1)
    ∧ randomUpTo 2 rng1 = Ok (s1, rng2)
    ∧ randomUpTo 2 rng2 = Ok (s2, rng')
    ∧ tournament p testRNG = Ok (t, rng')
    ∧ k ∈ [s0; s1; s2]
    ∧ individuals p !! k = Some t
    ∧ fitnesses p !! k = Some fk
    ∧ ∀ s, s ∈ [s0; s1; s2] →
        ∃ fs, fitnesses p !! s = Some fs ∧ float_lt fk fs = false.
Proof.
  intros p.
  apply (tournament_picks_fittest_of_three p testRNG).
  - exact rational_lt_irrefl.
  - exact rational_lt_trans.
  - done.
  - reflexivity.
  - by vm_compute.
Defined.

Lemma randomUpTo_draws max rng v rng' :
  randomUpTo max rng = Ok (v, rng') →
  words rng' = words rng ∧ cursor rng' = S (cursor rng).
Proof.
  unfold randomUpTo.
  destruct (uniform_int_distribution 0 max rng) as [[v0 rng0]|] eqn:Hdraw;
    [|done].
  intros [= <- <-]. by eapply uniform_int_distribution_draws.
Qed.

Section SelectionDraws.
Context {fo : FloatOps}.

Lemma tournament_draws p rng t rng' :
  tournament p rng = Ok (t, rng') →
  words rng' = words rng ∧ cursor rng' = cursor rng + 3.
Proof.
  unfold tournament.
  destruct (randomUpTo _ rng) as [[s0 rng0]|] eqn:H0; [|done].
  cbn [mbind result_bind].
  destruct (randomUpTo _ rng0) as [[s1 rng1]|] eqn:H1; [|done].
  cbn [mbind result_bind].
  destruct (randomUpTo _ rng1) as [[s2 rng2]|] eqn:H2; [|done].
  cbn [mbind result_bind].
  apply randomUpTo_draws in H0 as [Hw0 Hc0].
  apply randomUpTo_draws in H1 as [Hw1 Hc1].
  apply randomUpTo_draws in H2 as [Hw2 Hc2].
  destruct (at_ (fitnesses p) s0) as [f0|]; [|done]. cbn [mbind result_bind].
  destruct (at_ (fitnesses p) s1) as [f1|]; [|done]. cbn [mbind result_bind].
  destruct (if float_lt f0 f1 then _ else _) as [m1 k1].
  destruct (at_ (fitnesses p) s2) as [f2|]; [|done]. cbn [mbind result_bind].
  destruct (if float_lt m1 f2 then _ else _) as [m2 k2].
  destruct (at_ (individuals p) k2) as [t'|]; [|done].
  intros [= <- <-]. split; [congruence|lia].
Qed.

Lemma selectLoop_draws p count : ∀ newGeneration rng result rng',
  selectLoop count p newGeneration rng = Ok (result, rng') →
  words rng' = words rng ∧ cursor rng' = cursor rng + 3 * count.
Proof.
  induction count as [|count IH]; intros newGeneration rng result rng'.
  - intros [= <- <-]. split; [done|lia].
  - simpl.
    destruct (tournament p rng) as [[t rng1]|] eqn:Ht; [|done].
    cbn [mbind result_bind]. intros Hrest.
    apply tournament_draws in Ht as [Hw1 Hc1].
    apply IH in Hrest as [Hw2 Hc2]. split; [congruence|lia].
Qed.

End SelectionDraws.

(** X21.  For a count between 1 and the number of individuals, [select]
    appends exactly that many genomes to the new generation and leaves what
    was in it as it was; every appended genome is a copy of an individual of
    the current population, and every pick costs three draws. *)
Theorem select_appends_copies {fo : FloatOps} (p : Population)
    (newGeneration : list (Tree Z)) (count : nat) (rng : RNG) :
  1 ≤ count ≤ length (individuals p) →
  length (fitnesses p) = length (individuals p) →
  (Z.of_nat (length (individuals p)) < 2 ^ 64)%Z →
  ∃ picked rng',
    select newGeneration (Z.of_nat count) p rng
    = Ok (newGeneration ++ picked, rng')
    ∧ length picked = count
    ∧ Forall (fun t => t ∈ individuals p) picked
    ∧ words rng' = words rng
    ∧ cursor rng' = cursor rng + 3 * count.
Proof.
  intros Hcount Hlen Hsize. unfold select, selectPrecondition.
  rewrite (proj2 (Z.eqb_neq _ 0)) by lia.
  rewrite (proj2 (Z.leb_le _ _)) by lia.
  cbn [negb andb assert mbind result_bind]. rewrite Nat2Z.id.
  destruct (selectLoop_ok p count newGeneration rng)
    as (picked & rng' & Hrun & Hpicked & Hall);
    [intros Hnil; rewrite Hnil in Hcount; simpl in Hcount; lia|done|done|].
  exists picked, rng'. rewrite Hrun.
  destruct (selectLoop_draws p count _ _ _ _ Hrun) as [Hw Hc].
  by split_and!.
Qed.

Lemma select_appends_copies_witness :
  let p := mkPopulation [genomeSinY; genomeX; genomePlusXY]
             (map testFitness [genomeSinY; genomeX; genomePlusXY]) 0 0 0 in
  ∃ picked rng',
    select [genomeX] 2 p testRNG = Ok ([genomeX] ++ picked, rng')
    ∧ length picked = 2
    ∧ Forall (fun t => t ∈ individuals p) picked
    ∧ words rng' = words testRNG
    ∧ cursor rng' = cursor testRNG + 3 * 2.
Proof.
  intros p. apply (select_appends_copies p [genomeX] 2 testRNG).
  - simpl. lia.
  - reflexivity.
  - by vm_compute.
Defined.

Section FitnessCalls.
Context {fo : FloatOps} {Host : Type}.
Context (params : EvolutionParameters) (traits : EvolvingPopulationDelegate Host).

Lemma mutate_calls t (w : World Host) t' w' :
  mutate traits t w = Ok (t', w') →
  computeFitnessCalls w' = computeFitnessCalls w.
Proof.
  unfold mutate.
  destruct (selectRandomNode t (rng w)) as [[nodeId rng1]|]; [|done].
  cbn [mbind result_bind].
  destruct (typeOfNode traits t nodeId) as [type|]; [|done].
  cbn [mbind result_bind].
  destruct (generateRandomTreeOfType traits type (host w) rng1)
    as [[[sub host1] rng2]|]; [|done].
  cbn [mbind result_bind].
  destruct (replace nodeId sub t) as [t1|]; [|done].
  by intros [= <- <-].
Qed.

Lemma variation_calls : ∀ rounds i (newGeneration : list (Tree Z)) w result w',
  variation params traits rounds i newGeneration w = Ok (result, w') →
  computeFitnessCalls w' = computeFitnessCalls w.
Proof.
  induction rounds as [|rounds IH]; intros i newGeneration w result w';
    rewrite variation_unfold; case_bool_decide;
    try (by intros [= <- <-]).
  destruct (nextWord (rng w)) as [word rng0]. cbv zeta.
  destruct (float_le _ (mutationRate params)).
  - destruct (at_ newGeneration i) as [genome|]; [|done].
    cbn [mbind result_bind].
    destruct (mutate traits genome _) as [[genome' w1]|] eqn:Hmutate; [|done].
    cbn [mbind result_bind]. intros Hrest.
    apply mutate_calls in Hmutate. apply IH in Hrest.
    simpl in Hmutate. congruence.
  - destruct (float_le _ (float_add _ _));
      [|intros Hrest; by apply IH in Hrest].
    destruct (if bool_decide (i + 1 ≠ length newGeneration) then _ else _)
      as [[next rng1]|]; [|done].
    cbn [mbind result_bind].
    destruct (at_ newGeneration i) as [genome|]; [|done].
    cbn [mbind result_bind].
    destruct (selectRandomNode genome rng1) as [[genomeIndex rng2]|]; [|done].
    cbn [mbind result_bind].
    destruct (typeOfNode traits genome genomeIndex) as [type|]; [|done].
    cbn [mbind result_bind].
    destruct (at_ newGeneration _) as [other|]; [|done].
    cbn [mbind result_bind].
    destruct (crossover traits genome genomeIndex type other rng2)
      as [[[[found genome'] other'] rng3]|]; [|done].
    cbn [mbind result_bind]. intros Hrest. by apply IH in Hrest.
Qed.

End FitnessCalls.

(** X22.  [nextGeneration] computes the fitness scores at most once, and not
    at all when the generation had been evaluated before; and it leaves the
    cache of the evaluation stale, so that the first [evaluateGeneration]
    of the new generation computes the scores again. *)
Theorem nextGeneration_invalidates_cache {fo : FloatOps} {Host}
    (params : EvolutionParameters) (traits : EvolvingPopulationDelegate Host)
    (doDump : bool) (p : Population) (w : World Host) p' w' :
  nextGeneration params traits doDump p w = Ok (p', w') →
  evaluatedGeneration p' ≠ generation p'
  ∧ computeFitnessCalls w ≤ computeFitnessCalls w' ≤ S (computeFitnessCalls w)
  ∧ (evaluatedGeneration p = generation p →
     computeFitnessCalls w' = computeFitnessCalls w)
  ∧ ∀ best p2 w2,
      evaluateGeneration traits p' w' = Ok (best, p2, w2) →
      computeFitnessCalls w2 = S (computeFitnessCalls w').
Proof.
  unfold nextGeneration.
  destruct (evaluateGeneration traits p w) as [[[best p1] w1]|] eqn:Heval;
    [|done].
  cbn [mbind result_bind].
  destruct (if doDump then _ else _) as [text|]; [|done].
  cbn [mbind result_bind].
  destruct (at_ (individuals p1) best) as [elite|]; [|done].
  cbn [mbind result_bind].
  destruct (assert _); [|done]. cbn [mbind result_bind].
  destruct (select _ _ p1 (rng w1)) as [[newGeneration rng1]|]; [|done].
  cbn [mbind result_bind].
  destruct (variation params traits _ 0 newGeneration _)
    as [[newGeneration' w2]|] eqn:Hvar; [|done].
  cbn [mbind result_bind].
  unfold int_add. case_bool_decide as Hrange; [|done].
  cbn [mbind result_bind mret result_ret]. intros [= <- <-].
  apply variation_calls in Hvar. simpl in Hvar.
  pose proof (evaluateGeneration_inv traits p w best p1 w1 Heval)
    as (_ & _ & Hcached & _ & _ & Hcalls).
  assert (evaluatedGeneration p = generation p →
          computeFitnessCalls w1 = computeFitnessCalls w) as Hhit.
  { intros Hsame. unfold evaluateGeneration in Heval.
    rewrite (proj2 (Z.eqb_eq _ _) Hsame) in Heval. by injection Heval as _ _ <-. }
  cbn [evaluatedGeneration generation].
  split_and!; [lia|lia|lia|intros Hsame; specialize (Hhit Hsame); lia|].
  intros best2 p2 w3. unfold evaluateGeneration.
  cbn [evaluatedGeneration generation].
  rewrite (proj2 (Z.eqb_neq _ _)) by lia.
  destruct (computeFitness traits _ _ _) as [scores host'].
  destruct (assert _); [|done]. cbn [mbind result_bind].
  destruct (at_ scores 0); [|done]. cbn [mbind result_bind].
  destruct (bestFrom _ _ _ _). by intros [= _ _ <-].
Qed.

Lemma nextGeneration_invalidates_cache_witness :
  let p := testPopulation [genomeSinY; genomeX; genomePlusXY; genomeX] in
  ∃ p' w',
    nextGeneration testParameters testDelegate false p testWorld = Ok (p', w')
    ∧ evaluatedGeneration p' ≠ generation p'
    ∧ computeFitnessCalls w' ≤ 1.
Proof.
  intros p.
  destruct (nextGeneration testParameters testDelegate false p testWorld)
    as [[p' w']|e] eqn:Hrun; [|by vm_compute in Hrun].
  exists p', w'. split; [done|].
  destruct (nextGeneration_invalidates_cache testParameters testDelegate false
              p testWorld p' w' Hrun) as (Hstale & Hcalls & _).
  split; [exact Hstale|]. simpl in Hcalls. lia.
Defined.

(** ** rampedHalfAndHalfInitializer.h *)




Section InitializerRamp.
Context {fo : FloatOps}.
Context (g : Grammar) (init : RampedHalfAndHalfInitializer) (fuel : nat).
Hypothesis Hg : GrammarOk g.
Hypothesis Hinit : TreeGenerator_new g = Ok (gen init).
Hypothesis Htypes : ∀ type', reachable g (invalidTypeId g) type' →
  hasTerminals (setOf g type') = true ∧ hasFunctions (setOf g type') = true.
Hypothesis Hnone : delegate init = None.
Hypothesis Hfuel : 1 ≤ fuel ∧ ∀ x, (float_floor_to_int x ≤ Z.of_nat fuel)%Z.





End InitializerRamp.



(** ** treeEvaluator.h and treeCompiler.h *)

Section ChildAccess.
Context {T : Type}.
Implicit Types (kids : list (rose T)) (pre post : list (NodeStorage T)).

Lemma Node_size_middle pre v kids post :
  Node_size (mkTree (pre ++ flatten (Rose v kids) ++ post)) (length pre)
  = Ok (Z.of_nat (length kids)).
Proof.
  unfold Node_size, nodeAt. cbn [nodes].
  destruct (lookup_middle_flatten pre (Rose v kids) post)
    as (n & -> & _ & Hcount & _).
  cbn [mbind result_bind mret result_ret]. by rewrite Hcount.
Qed.

Lemma Node_at_middle pre v kids post j :
  Node_at (mkTree (pre ++ flatten (Rose v kids) ++ post)) (length pre) j
  = match childPositions (S (length pre)) kids !! j with
    | Some k => Ok k
    | None => Fail AssertionFailed
    end.
Proof.
  unfold Node_at. rewrite Node_size_middle. cbn [mbind result_bind].
  unfold assert.
  destruct (decide (j < length kids)) as [Hj|Hj].
  - rewrite bool_decide_eq_true_2 by lia. cbn [mbind result_bind].
    rewrite lookup_childPositions by done.
    rewrite flatten_Rose.
    pose proof (stepIterator_forest kids
                  (pre ++ [mkNodeStorage v (Z.of_nat (length kids))
                                         (Z.of_nat (S (fsize kids)))])
                  post j) as Hstep.
    rewrite length_app in Hstep. cbn [length] in Hstep.
    rewrite <- (assoc_L (++)) in Hstep. cbn [app] in Hstep.
    rewrite <- app_comm_cons, Hstep by lia. cbn [mbind result_bind nodes].
    pose proof (fsize_take_lt kids j Hj).
    rewrite bool_decide_eq_true_2
      by (rewrite !length_app; cbn [length];
          rewrite length_app, length_flattenForest; lia).
    cbn [mbind result_bind mret result_ret]. f_equal. lia.
  - rewrite bool_decide_eq_false_2 by lia. cbn [mbind result_bind].
    rewrite lookup_ge_None_2; [done|]. rewrite length_childPositions. lia.
Qed.

End ChildAccess.

Lemma evaluate_S {A} fuel defs (ev : TreeGenomeEvaluator A) (t : Tree Z) nodeId :
  evaluate (S fuel) defs ev t nodeId =
  node ← nodeAt t nodeId;
  let definition := definitionFor defs (value node) in
  let dID := getDefinitionId definition in
  if isTerminal definition then
    _ ← assert (childCount node =? 0)%Z;
    evaluteTerminal ev dID t nodeId
  else
    _ ← assert (childCount node =? getNumArguments definition)%Z;
    kids ← Node_children t nodeId;
    arguments ← foldl (fun acc child =>
                         arguments ← acc;
                         a ← evaluate fuel defs ev t child;
                         mret (arguments ++ [a]))
                      (Ok []) kids;
    match arguments with
    | [x] => evaluateUnaryFunction ev dID t nodeId x
    | [x; y] => evaluateBinaryFunction ev dID t nodeId x y
    | _ => evaluateFunction ev dID t nodeId arguments
    end.
Proof. reflexivity. Qed.

Section EvaluatorFacts.
Context {A : Type} (g : Grammar) (view : ValueEvaluator A).

Lemma evaluate_middle (r : rose Z) : ∀ fuel pre post,
  rsize r ≤ fuel →
  evaluate fuel g (evaluatorOf view) (mkTree (pre ++ flatten r ++ post))
    (length pre)
  = evaluated g view r.
Proof.
  induction r as [v kids IH] using rose_forall_ind.
  intros fuel pre post Hfuel.
  destruct fuel as [|fuel]; [rewrite rsize_Rose in Hfuel; lia|].
  rewrite evaluate_S. unfold nodeAt at 1. cbn [nodes].
  destruct (lookup_middle_flatten pre (Rose v kids) post)
    as (n & Hn & _ & Hcount & Hvalue).
  rewrite Hn. cbn [mbind result_bind]. cbv zeta.
  rewrite Hvalue, Hcount. cbn [rootValue evaluated]. unfold assert.
  destruct (isTerminal (definitionFor g v)).
  { destruct kids as [|kid kids].
    - cbn [length Z.of_nat Z.eqb mbind result_bind evaluatorOf evaluteTerminal].
      unfold nodeAt. cbn [nodes]. rewrite Hn. cbn [mbind result_bind].
      by rewrite Hvalue.
    - by rewrite (proj2 (Z.eqb_neq _ _)) by (cbn [length]; lia). }
  destruct (Z.of_nat (length kids) =? getNumArguments (definitionFor g v))%Z;
    [|done].
  cbn [mbind result_bind]. rewrite Node_children_middle.
  cbn [mbind result_bind].
  assert (Forall (fun kid => ∀ pre post,
            evaluate fuel g (evaluatorOf view)
              (mkTree (pre ++ flatten kid ++ post)) (length pre)
            = evaluated g view kid) kids) as Hkids.
  { apply Forall_forall. intros kid Hkid pre' post'.
    eapply Forall_forall in IH; [|exact Hkid]. apply IH.
    pose proof (rsize_le_fsize kids kid Hkid). rewrite rsize_Rose in Hfuel. lia. }
  pose proof (children_Forall2 (evaluate fuel g (evaluatorOf view))
                (evaluated g view) kids Hkids
                (pre ++ [mkNodeStorage v (Z.of_nat (length kids))
                                       (Z.of_nat (S (fsize kids)))])
                post) as Hall.
  rewrite length_app in Hall. cbn [length] in Hall.
  rewrite <- (assoc_L (++)), Nat.add_1_r in Hall. cbn [app] in Hall.
  rewrite flatten_Rose in Hn |- *.
  rewrite (foldl_Forall2 _ (evaluated g view)
             (fun (arguments : list A) a => mret (arguments ++ [a])) _ _ Hall).
  destruct (foldl _ (Ok []) kids) as [arguments|]; [|done].
  cbn [mbind result_bind].
  destruct arguments as [|x [|y [|z arguments]]];
    cbn [evaluatorOf evaluateUnaryFunction evaluateBinaryFunction
         evaluateFunction];
    unfold nodeAt; cbn [nodes]; rewrite Hn; cbn [mbind result_bind];
    by rewrite Hvalue.
Qed.

End EvaluatorFacts.

(** X25.  The evaluator folds the tree that a layout stands for: with
    methods that read no more of a node than its value, evaluating the
    layout of a tree gives what the recursion over the tree gives, a
    terminal by its method and a function by the method for the number of
    its arguments applied to the values of the children from left to right;
    a node that does not fit the grammar fails the assertion.  Evaluating the
    empty tree fails the assertion of [first()]. *)
Theorem evaluateTree_folds_tree {A} (g : Grammar) (view : ValueEvaluator A)
    (r : rose Z) :
  evaluateTree g (evaluatorOf view) (mkTree (flatten r)) = evaluated g view r
  ∧ evaluateTree g (evaluatorOf view) Tree_new = Fail AssertionFailed.
Proof.
  split; [|done].
  unfold evaluateTree, Tree_first, assert. cbn [nodes].
  pose proof (rsize_pos r). rewrite length_flatten.
  rewrite bool_decide_eq_true_2 by lia.
  cbn [mbind result_bind mret result_ret].
  pose proof (evaluate_middle g view r (S (rsize r)) [] []) as Heval.
  rewrite app_nil_r in Heval. cbn [app length] in Heval.
  apply Heval. lia.
Qed.

Lemma TreeGenomeCompiler_print_S fuel defs delegate (t : Tree Z) nodeId :
  TreeGenomeCompiler_print (S fuel) defs delegate t nodeId =
  node ← nodeAt t nodeId;
  let definition := definitionFor defs (value node) in
  if isTerminal definition then
    _ ← assert (childCount node =? 0)%Z;
    match delegate with
    | Some d =>
        let written := compiler_printTerminal d definition t nodeId in
        if written.2 then mret written.1
        else mret (written.1 +:+ getName definition)
    | None => mret (getName definition)
    end
  else
    _ ← assert (childCount node =? getNumArguments definition)%Z;
    let written :=
      match delegate with
      | Some d => compiler_printFunction d definition t nodeId
      | None => ("", false)
      end in
    if written.2 then mret written.1
    else if match delegate with
            | Some d =>
                treeGenomeCompilerShouldPrintFunctionAsOperator d definition
            | None => false
            end
    then
      if (childCount node =? 1)%Z then
        child ← Node_at t nodeId 0;
        x ← TreeGenomeCompiler_print fuel defs delegate t child;
        mret (written.1 +:+ "(" +:+ getName definition +:+ " " +:+ x +:+ ")")
      else if (childCount node =? 2)%Z then
        child ← Node_at t nodeId 0;
        x ← TreeGenomeCompiler_print fuel defs delegate t child;
        child ← Node_at t nodeId 1;
        y ← TreeGenomeCompiler_print fuel defs delegate t child;
        mret (written.1 +:+ "(" +:+ x +:+ " " +:+ getName definition
                        +:+ " " +:+ y +:+ ")")
      else Fail AssertionFailed
    else
      kids ← Node_children t nodeId;
      out ← foldl (fun acc child =>
                     state ← acc;
                     c ← TreeGenomeCompiler_print fuel defs delegate t child;
                     mret (state.1 +:+ (if state.2 : bool then "" else ", ")
                                   +:+ c, false))
                  (Ok (written.1 +:+ getName definition +:+ "(", true)) kids;
      mret (out.1 +:+ ")").
Proof. reflexivity. Qed.

(** A fold that checks every element before it uses it. *)
Lemma foldl_checked {S R B} (ok : R → bool) (f : R → B) (step : S → B → S)
    (l : list R) : ∀ a,
  foldl (fun acc x =>
           state ← acc;
           c ← (if ok x then Ok (f x) else Fail AssertionFailed);
           mret (step state c))
        (Ok a) l
  = if forallb ok l then Ok (foldl (fun state x => step state (f x)) a l)
    else Fail AssertionFailed.
Proof.
  induction l as [|x l IH]; intros a; [done|].
  cbn [foldl forallb].
  destruct (ok x); cbn [mbind result_bind mret result_ret andb]; [apply IH|].
  apply (foldl_Fail
           (fun state x =>
              c ← (if ok x then Ok (f x) else Fail AssertionFailed);
              mret (step state c))).
Qed.

(** The separators of a call: none before the first argument. *)
Lemma concat_cons (x : string) (l : list string) :
  String.concat ", " (x :: l)
  = x +:+ foldr (fun s rest => ", " +:+ s +:+ rest) "" l.
Proof.
  revert x. induction l as [|y l IH]; intros x.
  - cbn [String.concat foldr]. induction x as [|a x IHx]; [done|].
    change (String a x = String a (x +:+ "")). by rewrite <- IHx.
  - change (String.concat ", " (x :: y :: l))
      with (x +:+ ", " +:+ String.concat ", " (y :: l)).
    by rewrite IH.
Qed.

Lemma call_fold (l : list string) : ∀ acc first,
  (foldl (fun (state : string * bool) c =>
            (state.1 +:+ (if state.2 then "" else ", ") +:+ c, false))
         (acc, first) l).1
  = acc +:+ (if first then String.concat ", " l
             else foldr (fun s rest => ", " +:+ s +:+ rest) "" l).
Proof.
  induction l as [|x l IH]; intros acc first.
  - destruct first; cbn [foldl foldr fst String.concat];
      (induction acc as [|a acc IHacc]; [done|]);
      change (String a acc = String a (acc +:+ "")); by rewrite <- IHacc.
  - cbn [foldl fst snd]. rewrite IH.
    destruct first; cbn [foldr].
    + rewrite concat_cons. change ("" +:+ x) with x.
      by rewrite string_app_assoc.
    + by rewrite !string_app_assoc.
Qed.

Section CompilerFacts.
Context (g : Grammar).

Lemma compile_call_middle (r : rose Z) : ∀ fuel pre post,
  rsize r ≤ fuel →
  TreeGenomeCompiler_print fuel g None (mkTree (pre ++ flatten r ++ post))
    (length pre)
  = if shaped g r then Ok (renderCall g r) else Fail AssertionFailed.
Proof.
  induction r as [v kids IH] using rose_forall_ind.
  intros fuel pre post Hfuel.
  destruct fuel as [|fuel]; [rewrite rsize_Rose in Hfuel; lia|].
  rewrite TreeGenomeCompiler_print_S. unfold nodeAt. cbn [nodes].
  destruct (lookup_middle_flatten pre (Rose v kids) post)
    as (n & -> & _ & Hcount & Hvalue).
  cbn [mbind result_bind]. cbv zeta. rewrite Hvalue, Hcount.
  cbn [rootValue shaped renderCall fst snd]. unfold assert.
  destruct (isTerminal (definitionFor g v)).
  { destruct kids as [|kid kids]; [done|].
    by rewrite (proj2 (Z.eqb_neq _ _)) by (cbn [length]; lia). }
  destruct (Z.of_nat (length kids) =? getNumArguments (definitionFor g v))%Z;
    [|done].
  cbn [mbind result_bind andb]. rewrite Node_children_middle.
  cbn [mbind result_bind].
  assert (Forall (fun kid => ∀ pre post,
            TreeGenomeCompiler_print fuel g None
              (mkTree (pre ++ flatten kid ++ post)) (length pre)
            = if shaped g kid then Ok (renderCall g kid)
              else Fail AssertionFailed) kids) as Hkids.
  { apply Forall_forall. intros kid Hkid pre' post'.
    eapply Forall_forall in IH; [|exact Hkid]. apply IH.
    pose proof (rsize_le_fsize kids kid Hkid). rewrite rsize_Rose in Hfuel. lia. }
  pose proof (children_Forall2 (TreeGenomeCompiler_print fuel g None)
                (fun kid => if shaped g kid then Ok (renderCall g kid)
                            else Fail AssertionFailed) kids Hkids
                (pre ++ [mkNodeStorage v (Z.of_nat (length kids))
                                       (Z.of_nat (S (fsize kids)))])
                post) as Hall.
  rewrite length_app in Hall. cbn [length] in Hall.
  rewrite <- (assoc_L (++)), Nat.add_1_r in Hall. cbn [app] in Hall.
  rewrite flatten_Rose.
  rewrite (foldl_Forall2 _ _
             (fun (state : string * bool) c =>
                mret (state.1 +:+ (if state.2 then "" else ", ") +:+ c, false))
             _ _ Hall).
  rewrite (foldl_checked (shaped g) (renderCall g)
             (fun (state : string * bool) c =>
                (state.1 +:+ (if state.2 then "" else ", ") +:+ c, false))).
  destruct (forallb (shaped g) kids); [|done].
  cbn [mbind result_bind mret result_ret]. f_equal.
  rewrite <- (foldl_fmap
                (fun (state : string * bool) c =>
                   (state.1 +:+ (if state.2 then "" else ", ") +:+ c, false))
                _ kids (renderCall g)).
  rewrite call_fold. change ("" +:+ ?x) with x.
  by rewrite !string_app_assoc.
Qed.

Lemma compile_operators_middle (r : rose Z) : ∀ fuel pre post,
  rsize r ≤ fuel →
  TreeGenomeCompiler_print fuel g (Some operatorDelegate)
    (mkTree (pre ++ flatten r ++ post)) (length pre)
  = renderOperators g r.
Proof.
  induction r as [v kids IH] using rose_forall_ind.
  intros fuel pre post Hfuel.
  destruct fuel as [|fuel]; [rewrite rsize_Rose in Hfuel; lia|].
  rewrite TreeGenomeCompiler_print_S. unfold nodeAt. cbn [nodes].
  destruct (lookup_middle_flatten pre (Rose v kids) post)
    as (n & -> & _ & Hcount & Hvalue).
  cbn [mbind result_bind]. cbv zeta. rewrite Hvalue, Hcount.
  cbn [rootValue renderOperators operatorDelegate compiler_printTerminal
       compiler_printFunction treeGenomeCompilerShouldPrintFunctionAsOperator
       fst snd].
  unfold assert.
  destruct (isTerminal (definitionFor g v)).
  { destruct kids as [|kid kids]; [done|].
    by rewrite (proj2 (Z.eqb_neq _ _)) by (cbn [length]; lia). }
  destruct (Z.of_nat (length kids) =? getNumArguments (definitionFor g v))%Z;
    [|done].
  cbn [mbind result_bind].
  assert (Forall (fun kid => ∀ pre post,
            TreeGenomeCompiler_print fuel g (Some operatorDelegate)
              (mkTree (pre ++ flatten kid ++ post)) (length pre)
            = renderOperators g kid) kids) as Hkids.
  { apply Forall_forall. intros kid Hkid pre' post'.
    eapply Forall_forall in IH; [|exact Hkid]. apply IH.
    pose proof (rsize_le_fsize kids kid Hkid). rewrite rsize_Rose in Hfuel. lia. }
  pose proof (children_Forall2
                (TreeGenomeCompiler_print fuel g (Some operatorDelegate))
                (renderOperators g) kids Hkids
                (pre ++ [mkNodeStorage v (Z.of_nat (length kids))
                                       (Z.of_nat (S (fsize kids)))])
                post) as Hall.
  rewrite length_app in Hall. cbn [length] in Hall.
  rewrite <- (assoc_L (++)), Nat.add_1_r in Hall. cbn [app] in Hall.
  pose proof (Node_at_middle pre v kids post) as Hat.
  rewrite flatten_Rose in Hat |- *. rewrite <- app_comm_cons in Hat |- *.
  destruct kids as [|a [|b [|c kids]]].
  - done.
  - rewrite (Hat 0).
    change (Z.of_nat (length [a]) =? 1)%Z with true.
    cbn [childPositions lookup list_lookup mbind result_bind].
    apply Forall2_cons in Hall as [-> _].
    destruct (renderOperators g a); [|done].
    cbn [mbind result_bind mret result_ret]. by change ("" +:+ ?x) with x.
  - rewrite (Hat 0), (Hat 1).
    change (Z.of_nat (length [a; b]) =? 1)%Z with false.
    change (Z.of_nat (length [a; b]) =? 2)%Z with true.
    cbn [childPositions lookup list_lookup mbind result_bind].
    apply Forall2_cons in Hall as [-> Hall].
    destruct (renderOperators g a); [|done].
    cbn [mbind result_bind].
    cbn [childPositions] in Hall. apply Forall2_cons in Hall as [-> _].
    destruct (renderOperators g b); [|done].
    cbn [mbind result_bind mret result_ret]. by change ("" +:+ ?x) with x.
  - assert ((Z.of_nat (length (a :: b :: c :: kids)) =? 1)%Z = false) as ->
      by (apply Z.eqb_neq; cbn [length]; lia).
    assert ((Z.of_nat (length (a :: b :: c :: kids)) =? 2)%Z = false) as ->
      by (apply Z.eqb_neq; cbn [length]; lia).
    done.
Qed.

End CompilerFacts.

(** X26.  Without a delegate the compiler writes a tree that fits the
    grammar as nested function calls: the name of a terminal, and for a
    function the name and, between parentheses, the texts of the arguments
    from left to right with a comma and a space between them.  On a tree
    that does not fit the grammar it fails an assertion. *)
Theorem TreeGenomeCompiler_writes_calls (g : Grammar) (r : rose Z) :
  TreeGenomeCompiler_printTree g None (mkTree (flatten r))
  = if shaped g r then Ok (renderCall g r) else Fail AssertionFailed.
Proof.
  unfold TreeGenomeCompiler_printTree. rewrite Tree_roots_forest_single.
  cbn [mbind result_bind foldl nodes].
  pose proof (compile_call_middle g r (S (length (flatten r))) [] []) as Hc.
  rewrite app_nil_r in Hc. cbn [app length] in Hc.
  rewrite Hc by (rewrite length_flatten; lia).
  by destruct (shaped g r).
Qed.

(** X27.  With a delegate that prints nothing itself and has every function
    printed as an operator, the compiler writes a function of one argument
    in front of its argument and a function of two arguments between them,
    each between parentheses, and fails the assertion on a function of any
    other number of arguments. *)
Theorem TreeGenomeCompiler_writes_operators (g : Grammar) (r : rose Z) :
  TreeGenomeCompiler_printTree g (Some operatorDelegate) (mkTree (flatten r))
  = renderOperators g r.
Proof.
  unfold TreeGenomeCompiler_printTree. rewrite Tree_roots_forest_single.
  cbn [mbind result_bind foldl nodes].
  pose proof (compile_operators_middle g r (S (length (flatten r))) [] []) as Hc.
  rewrite app_nil_r in Hc. cbn [app length] in Hc.
  rewrite Hc by (rewrite length_flatten; lia).
  by destruct (renderOperators g r).
Qed.

(** ** tree.h: a replacement has to hold a node *)

Lemma between_refl l a : between l a a = 0.
Proof. unfold between. by rewrite Nat.sub_diag. Qed.

Lemma between_step l e x : l !! e = Some x → between l e (S e) = x.
Proof.
  intros Hx. unfold between.
  replace (S e - e) with 1 by lia.
  rewrite (drop_S l x e Hx). simpl. lia.
Qed.

Lemma between_split l a b c :
  a ≤ b ≤ c → b ≤ length l →
  between l a c = between l a b + between l b c.
Proof.
  intros Habc Hb. unfold between.
  rewrite <- (take_drop (b - a) (drop a l)) at 1.
  rewrite drop_drop, take_app, sum_list_with_app.
  replace (a + (b - a)) with b by lia.
  rewrite length_take, length_drop.
  replace (c - a - (b - a) `min` (length l - a)) with (c - b) by lia.
  by rewrite take_take, Nat.min_r by lia.
Qed.

Lemma between_prefix l k : between l 0 k = sum_list (take k l).
Proof. unfold between. by rewrite Nat.sub_0_r. Qed.

Section SizeWalk.
Context {T : Type}.
Implicit Types (t : Tree T) (r s : rose T) (kids : list (rose T)) (c : ctx T).

Lemma childCounts_setSubTreeSize (ns : list (NodeStorage T)) e n size :
  ns !! e = Some n →
  childCounts (<[e := setSubTreeSize size n]> ns) = childCounts ns.
Proof.
  intros Hn. unfold childCounts. rewrite list_fmap_insert. simpl.
  apply list_insert_id. by rewrite list_lookup_fmap, Hn.
Qed.

Lemma length_childCounts (ns : list (NodeStorage T)) :
  length (childCounts ns) = length ns.
Proof. unfold childCounts. by rewrite length_fmap. Qed.

Lemma sumChildSizes_walked
    (rec : Tree T → nat → result (Tree T * nat * Z)) :
  (∀ t e, walked 1 t e (rec t e)) →
  ∀ count t e acc,
    e ≤ length (nodes t) →
    walked count t e (sumChildSizes rec count t e acc).
Proof.
  intros Hrec. induction count as [|count IH]; intros t e acc He.
  - simpl. rewrite between_refl. split_and!; (done || lia).
  - simpl. specialize (Hrec t e).
    destruct (rec t e) as [[[t1 e1] s1]|f]; [|done].
    destruct Hrec as (Hcc1 & He1 & Hstep1). cbn [mbind result_bind].
    assert (length (nodes t1) = length (nodes t)) as Hlen1
      by (by rewrite <- !length_childCounts, Hcc1).
    specialize (IH t1 e1 (wrap32 (acc + s1)) ltac:(lia)).
    destruct (sumChildSizes rec count t1 e1 _) as [[[t2 e2] s2]|f]; [|done].
    destruct IH as (Hcc2 & He2 & Hstep2). rewrite Hcc1 in Hcc2, Hstep2.
    split; [done|]. split; [lia|].
    rewrite (between_split _ e e1 e2) by (rewrite ?length_childCounts; lia).
    lia.
Qed.

Lemma recompute_walked fuel : ∀ t e nodeId newSize,
  walked 1 t e (recomputeSubTreeSizes fuel t e nodeId newSize).
Proof.
  induction fuel as [|fuel IH]; intros t e nodeId newSize; [by right|].
  rewrite recomputeSubTreeSizes_S. unfold advance, nodeAt.
  destruct (nodes t !! e) as [n|] eqn:Hn; [|by left].
  pose proof (lookup_lt_Some _ _ _ Hn) as He.
  assert (childCounts (nodes t) !! e = Some (Z.to_nat (childCount n))) as Hcc
    by (unfold childCounts; by rewrite list_lookup_fmap, Hn).
  cbn [mbind result_bind mret result_ret].
  destruct (childCount n =? 0)%Z eqn:Hleaf.
  { apply Z.eqb_eq in Hleaf. simpl. rewrite (between_step _ _ _ Hcc), Hleaf.
    split_and!; (done || lia). }
  pose proof (sumChildSizes_walked
                (fun t' e' => recomputeSubTreeSizes fuel t' e' nodeId newSize)
                (fun t' e' => IH t' e' nodeId newSize)
                (Z.to_nat (childCount n)) t (S e) 1%Z ltac:(lia)) as Hsum.
  destruct (sumChildSizes _ _ t (S e) 1%Z) as [[[t2 e2] size]|f]; [|done].
  destruct Hsum as (Hcc2 & He2 & Hstep2). cbn [mbind result_bind].
  unfold modifyNode.
  destruct (nodes t2 !! e) as [n2|] eqn:Hn2; [|by left].
  simpl. rewrite (childCounts_setSubTreeSize _ _ _ _ Hn2), Hcc2.
  split; [done|]. split; [lia|].
  rewrite (between_split _ e (S e) e2) by (rewrite ?length_childCounts; lia).
  rewrite (between_step _ _ _ Hcc). lia.
Qed.

(** *** The child counts of a layout *)

Lemma childCounts_app (l1 l2 : list (NodeStorage T)) :
  childCounts (l1 ++ l2) = childCounts l1 ++ childCounts l2.
Proof. apply fmap_app. Qed.

Lemma childCounts_flatten v kids :
  childCounts (flatten (Rose v kids))
  = length kids :: childCounts (flattenForest kids).
Proof.
  rewrite flatten_Rose. unfold childCounts. simpl. by rewrite Nat2Z.id.
Qed.

(** Up to every position of a forest, the nodes ask for at least as many
    sub-trees as there are nodes, less the trees of the forest. *)
Lemma forest_counts kids :
  Forall (fun r =>
            sum_list (childCounts (flatten r)) + 1 = rsize r
            ∧ ∀ k, k ≤ rsize r →
                k ≤ sum_list (take k (childCounts (flatten r))) + 1) kids →
  sum_list (childCounts (flattenForest kids)) + length kids = fsize kids
  ∧ ∀ k, k ≤ fsize kids →
      k ≤ sum_list (take k (childCounts (flattenForest kids))) + length kids.
Proof.
  induction 1 as [|r kids [Hsum Hpre] _ [IHsum IHpre]].
  - split; [done|]. intros k Hk. unfold fsize in Hk. simpl in Hk. lia.
  - rewrite flattenForest_cons, childCounts_app, fsize_cons. cbn [length].
    split; [rewrite sum_list_with_app; lia|].
    intros k Hk. rewrite take_app, sum_list_with_app.
    rewrite length_childCounts, length_flatten.
    destruct (decide (k ≤ rsize r)) as [Hle|Hgt].
    + specialize (Hpre k Hle). lia.
    + rewrite take_ge by (rewrite length_childCounts, length_flatten; lia).
      specialize (IHpre (k - rsize r) ltac:(lia)). lia.
Qed.

Lemma tree_counts r :
  sum_list (childCounts (flatten r)) + 1 = rsize r
  ∧ ∀ k, k ≤ rsize r →
      k ≤ sum_list (take k (childCounts (flatten r))) + 1.
Proof.
  induction r as [v kids IH] using rose_forall_ind.
  destruct (forest_counts kids IH) as [Hsum Hpre].
  rewrite childCounts_flatten, rsize_Rose. split; [simpl; lia|].
  intros [|k] Hk; [lia|]. simpl. specialize (Hpre k ltac:(lia)). lia.
Qed.

Lemma forest_counts_all kids :
  sum_list (childCounts (flattenForest kids)) + length kids = fsize kids
  ∧ ∀ k, k ≤ fsize kids →
      k ≤ sum_list (take k (childCounts (flattenForest kids))) + length kids.
Proof.
  apply forest_counts, Forall_forall. intros r _. apply tree_counts.
Qed.

(** Around a hole, the nodes ask for one sub-tree more than follow: up to
    every position they ask for at least as many as there are nodes. *)
Lemma ctx_counts c n :
  sum_list (childCounts (cprefix c n ++ csuffix c)) = csize c
  ∧ ∀ k, k ≤ csize c →
      k ≤ sum_list (take k (childCounts (cprefix c n ++ csuffix c))).
Proof.
  induction c as [|v before c [IHsum IHpre] after].
  - split; [done|]. intros k Hk. simpl in Hk. lia.
  - destruct (forest_counts_all before) as [Hbsum Hbpre].
    destruct (forest_counts_all after) as [Hasum Hapre].
    cbn [cprefix csuffix csize].
    assert (childCounts
              ((mkNodeStorage v (Z.of_nat (length before + S (length after)))
                  (Z.of_nat (S (fsize before + csize c + fsize after) + n))
                :: flattenForest before ++ cprefix c n)
               ++ csuffix c ++ flattenForest after)
            = (length before + S (length after))
              :: childCounts (flattenForest before)
              ++ childCounts (cprefix c n ++ csuffix c)
              ++ childCounts (flattenForest after)) as ->.
    { unfold childCounts.
      rewrite <- app_comm_cons, fmap_cons, !fmap_app, <- !(assoc_L (++)).
      simpl. by rewrite Nat2Z.id. }
    split.
    + simpl. rewrite !sum_list_with_app. lia.
    + intros [|k] Hk; [lia|]. simpl.
      rewrite !take_app, !sum_list_with_app, !length_childCounts,
        length_flattenForest.
      rewrite length_app, length_cprefix, length_csuffix.
      pose proof (cpos_le_csize c).
      replace (cpos c + (csize c - cpos c)) with (csize c) by lia.
      destruct (decide (k ≤ fsize before)) as [Hb|Hb].
      { specialize (Hbpre k Hb). lia. }
      rewrite (take_ge (childCounts (flattenForest before)))
        by (rewrite length_childCounts, length_flattenForest; lia).
      destruct (decide (k - fsize before ≤ csize c)) as [Hc|Hc].
      { specialize (IHpre (k - fsize before) Hc). lia. }
      rewrite (take_ge (childCounts (cprefix c n ++ csuffix c)))
        by (rewrite length_childCounts, length_app, length_cprefix,
              length_csuffix; lia).
      specialize (Hapre (k - fsize before - csize c) ltac:(lia)). lia.
Qed.

End SizeWalk.

(** X28.  A replacement has to hold at least one node: replacing a sub-tree
    of a well-formed tree by the empty tree leaves the parent with a child
    count that no node array satisfies, and the size walk reads past the end
    of the nodes. *)
Theorem replace_with_empty_tree_fails {T} (t : Tree T) (i : nat) :
  wellFormed t → i < getNodeCount t →
  replace i Tree_new t = Fail OutOfRange.
Proof.
  intros [Hnil|(r & Hr)] Hi; unfold getNodeCount in *.
  { rewrite Hnil in Hi. simpl in Hi. lia. }
  destruct (represents_index r t i Hr Hi) as (c & s & -> & <-).
  destruct Hr as [Ht _].
  unfold replace, nodeAt. rewrite Ht.
  pose proof (cpos_le_csize c). pose proof (rsize_pos s).
  rewrite length_flatten, rsize_plug.
  rewrite bool_decide_eq_true_2 by lia. simpl.
  destruct (lookup_plug c s) as (n & -> & Hn). simpl.
  rewrite Hn, Nat2Z.id.
  rewrite bool_decide_eq_true_2 by lia.
  rewrite take_plug, drop_plug_after.
  rewrite !take_cprefix_app, !drop_cprefix_app.
  set (erased := cprefix c (rsize s) ++ csuffix c).
  assert (length erased = csize c) as Hlen
    by (unfold erased; rewrite length_app, length_cprefix, length_csuffix; lia).
  pose proof (recompute_walked (S (length erased)) (mkTree erased) 0 (cpos c)
                (wrap32 0)) as Hwalk.
  pose proof (recompute_fuel_enough (S (length erased)) (mkTree erased) 0
                (cpos c) (wrap32 0) ltac:(simpl; lia) ltac:(simpl; lia))
    as Hfuel.
  destruct (recomputeSubTreeSizes _ _ 0 _ _) as [[[t' e'] size]|f].
  - exfalso. destruct Hwalk as (_ & He' & Hstep). cbn [nodes] in He', Hstep.
    rewrite between_prefix in Hstep.
    destruct (ctx_counts c (rsize s)) as [_ Hpre].
    specialize (Hpre e' ltac:(lia)). fold erased in Hpre. lia.
  - cbn [mbind result_bind]. destruct Hwalk as [->| ->]; [done|].
    by destruct Hfuel.
Qed.

Lemma replace_with_empty_tree_fails_witness :
  replace 1 Tree_new testGenome_tree = Fail OutOfRange.
Proof.
  apply replace_with_empty_tree_fails;
    [exact testGenome_tree_wellFormed | vm_compute; lia].
Defined.

(** ** The depth-first walk of the iteration test *)

Lemma Walker_fn_S {T} fuel (t : Tree T) nodeId :
  Walker_fn (S fuel) t nodeId =
  n ← nodeAt t nodeId;
  kids ← Node_children t nodeId;
  rest ← foldl (fun acc k => a ← acc; r ← Walker_fn fuel t k; mret (a ++ r))
               (Ok []) kids;
  mret (value n :: rest).
Proof. reflexivity. Qed.

Section Walker.
Context {T : Type}.
Implicit Types (r : rose T) (kids : list (rose T)).

Lemma values_forest_fold kids : ∀ acc : list T,
  foldl (fun acc kid => a ← acc; vs ← Ok (value <$> flatten kid); mret (a ++ vs))
        (Ok acc) kids
  = Ok (acc ++ (value <$> flattenForest kids)).
Proof.
  induction kids as [|kid kids IH]; intros acc.
  - simpl. by rewrite app_nil_r.
  - cbn [foldl mbind result_bind mret result_ret]. rewrite IH.
    by rewrite flattenForest_cons, fmap_app, (assoc_L (++)).
Qed.

Lemma Walker_fn_middle r : ∀ fuel pre post,
  rsize r ≤ fuel →
  Walker_fn fuel (mkTree (pre ++ flatten r ++ post)) (length pre)
  = Ok (value <$> flatten r).
Proof.
  induction r as [v kids IH] using rose_forall_ind.
  intros fuel pre post Hfuel.
  destruct fuel as [|fuel]; [rewrite rsize_Rose in Hfuel; lia|].
  rewrite Walker_fn_S. unfold nodeAt. cbn [nodes].
  destruct (lookup_middle_flatten pre (Rose v kids) post)
    as (n & -> & _ & _ & Hvalue).
  cbn [mbind result_bind]. rewrite Node_children_middle.
  cbn [mbind result_bind].
  assert (Forall (fun kid => ∀ pre post,
            Walker_fn fuel (mkTree (pre ++ flatten kid ++ post)) (length pre)
            = Ok (value <$> flatten kid)) kids) as Hkids.
  { apply Forall_forall. intros kid Hkid pre' post'.
    eapply Forall_forall in IH; [|exact Hkid]. apply IH.
    pose proof (rsize_le_fsize kids kid Hkid). rewrite rsize_Rose in Hfuel. lia. }
  pose proof (children_Forall2 (Walker_fn fuel)
                (fun kid => Ok (value <$> flatten kid)) kids Hkids
                (pre ++ [mkNodeStorage v (Z.of_nat (length kids))
                                       (Z.of_nat (S (fsize kids)))])
                post) as Hall.
  rewrite length_app in Hall. cbn [length] in Hall.
  rewrite <- (assoc_L (++)), Nat.add_1_r in Hall. cbn [app] in Hall.
  rewrite flatten_Rose.
  rewrite (foldl_Forall2 _ (fun kid => Ok (value <$> flatten kid))
             (fun (a : list T) vs => mret (a ++ vs)) _ _ Hall).
  rewrite values_forest_fold.
  cbn [mbind result_bind mret result_ret app fmap list_fmap].
  by rewrite Hvalue.
Qed.

End Walker.

(** X29.  The depth-first walk over the children of every node visits the
    nodes in the order in which the tree stores them: walking the layout of
    a tree returns the values of its node array from first to last. *)
Theorem Walker_run_in_storage_order {T} (r : rose T) :
  Walker_run (mkTree (flatten r)) = Ok (value <$> flatten r).
Proof.
  unfold Walker_run. rewrite Tree_roots_forest_single.
  cbn [mbind result_bind foldl nodes].
  pose proof (Walker_fn_middle r (S (length (flatten r))) [] []) as Hwalk.
  rewrite app_nil_r in Hwalk. cbn [app length] in Hwalk.
  by rewrite Hwalk by (rewrite length_flatten; lia).
Qed.

(** ** treePrinter.h: the delegate *)

Section PrinterDelegate.
Context (g : Grammar) (view : GrammarDefinition → Z → string * bool).

Lemma renderWith_fold (kids : list (rose Z)) : ∀ acc tail,
  foldl (fun text kid => text +:+ " " +:+ renderWith g view kid) acc kids
    +:+ tail
  = acc +:+ foldr (fun kid rest => " " +:+ renderWith g view kid +:+ rest)
                  tail kids.
Proof.
  induction kids as [|kid kids IH]; intros acc tail; [done|].
  cbn [foldl foldr]. rewrite IH. by rewrite !string_app_assoc.
Qed.

Lemma print_view_middle (r : rose Z) : ∀ fuel pre post,
  rsize r ≤ fuel →
  print fuel g (Some (delegateOfView view))
    (mkTree (pre ++ flatten r ++ post)) (length pre)
  = if shaped g r then Ok (renderWith g view r) else Fail AssertionFailed.
Proof.
  induction r as [v kids IH] using rose_forall_ind.
  intros fuel pre post Hfuel.
  destruct fuel as [|fuel]; [rewrite rsize_Rose in Hfuel; lia|].
  rewrite print_S. unfold nodeAt. cbn [nodes].
  destruct (lookup_middle_flatten pre (Rose v kids) post)
    as (n & Hn & _ & Hcount & Hvalue).
  rewrite Hn. cbn [mbind result_bind]. rewrite Hvalue, Hcount.
  cbn [rootValue shaped renderWith]. unfold assert.
  destruct (isTerminal (definitionFor g v)).
  { destruct kids as [|kid kids].
    - cbn [length Z.of_nat Z.eqb mbind result_bind Nat.eqb andb forallb].
      unfold delegateOfView. cbn [nodes]. rewrite Hn, Hvalue.
      by destruct (view (definitionFor g v) v) as [text []].
    - by rewrite (proj2 (Z.eqb_neq _ _)) by (cbn [length]; lia). }
  destruct (Z.of_nat (length kids) =? getNumArguments (definitionFor g v))%Z;
    [|done].
  cbn [mbind result_bind andb]. rewrite Node_children_middle.
  cbn [mbind result_bind].
  assert (Forall (fun kid => ∀ pre post,
            print fuel g (Some (delegateOfView view))
              (mkTree (pre ++ flatten kid ++ post)) (length pre)
            = if shaped g kid then Ok (renderWith g view kid)
              else Fail AssertionFailed) kids) as Hkids.
  { apply Forall_forall. intros kid Hkid pre' post'.
    eapply Forall_forall in IH; [|exact Hkid]. apply IH.
    pose proof (rsize_le_fsize kids kid Hkid). rewrite rsize_Rose in Hfuel. lia. }
  pose proof (children_Forall2 (print fuel g (Some (delegateOfView view)))
                (fun kid => if shaped g kid then Ok (renderWith g view kid)
                            else Fail AssertionFailed) kids Hkids
                (pre ++ [mkNodeStorage v (Z.of_nat (length kids))
                                       (Z.of_nat (S (fsize kids)))])
                post) as Hall.
  rewrite length_app in Hall. cbn [length] in Hall.
  rewrite <- (assoc_L (++)), Nat.add_1_r in Hall. cbn [app] in Hall.
  rewrite flatten_Rose.
  rewrite (foldl_Forall2 _ _
             (fun (text : string) c => mret (text +:+ " " +:+ c)) _ _ Hall).
  rewrite (foldl_checked (shaped g) (renderWith g view)
             (fun (text : string) c => text +:+ " " +:+ c)).
  destruct (forallb (shaped g) kids); [|done].
  cbn [mbind result_bind mret result_ret]. do 2 f_equal.
  rewrite renderWith_fold. reflexivity.
Qed.

End PrinterDelegate.

(** X30.  A printer delegate is asked about the terminals only.  With a
    delegate that reads no more of a node than its value, printing the
    layout of a tree that fits the grammar gives the text of the tree in
    which every function shows its name before its arguments and every
    terminal shows what the delegate wrote for it, followed by the name of
    the terminal unless the delegate returned true; a tree that does not
    fit the grammar fails an assertion. *)
Theorem printTree_with_delegate (g : Grammar)
    (view : GrammarDefinition → Z → string * bool) (r : rose Z) :
  printTree g (Some (delegateOfView view)) (mkTree (flatten r))
  = if shaped g r then Ok (renderWith g view r) else Fail AssertionFailed.
Proof.
  unfold printTree. rewrite Tree_roots_forest_single.
  cbn [mbind result_bind foldl nodes].
  pose proof (print_view_middle g view r (S (length (flatten r))) [] []) as Hp.
  rewrite app_nil_r in Hp. cbn [app length] in Hp.
  rewrite Hp by (rewrite length_flatten; lia).
  by destruct (shaped g r).
Qed.
